(** * A shallow embedding of the handle layer of py-lmdb (src/lmdb/cpython.c)

    Handles (Environment, _Database, Transaction, Cursor) live in a heap
    indexed by their address; pointer value 0 is NULL.  The intrusive
    sibling list of [struct list_head] is represented by the list of
    children of each object, head first, as [link_child] pushes at the head.
    The LMDB engine is a parameter: every engine primitive is a function
    of the history of engine calls made so far (the engine's state), and
    every call the wrapper makes is appended to that history. *)

From Stdlib Require Import ZArith String Bool Lia.
From stdpp Require Import base gmap list strings.

Open Scope Z_scope.

(** ** Engine constants (lmdb.h) *)

Definition MDB_NOOVERWRITE : Z := 16.     (* 0x10 *)
Definition MDB_NODUPDATA : Z := 32.       (* 0x20 *)
Definition MDB_APPEND : Z := 131072.      (* 0x20000 *)
Definition MDB_RDONLY : Z := 131072.      (* 0x20000, environment/txn flag *)
Definition MDB_REVERSEKEY : Z := 2.       (* 0x02 *)
Definition MDB_DUPSORT : Z := 4.          (* 0x04 *)
Definition MDB_CREATE : Z := 262144.      (* 0x40000 *)
Definition MDB_KEYEXIST : Z := -30799.
Definition MDB_NOTFOUND : Z := -30798.
Definition EINVAL : Z := 22.

Inductive MDB_cursor_op :=
| MDB_FIRST | MDB_GET_CURRENT | MDB_LAST | MDB_NEXT | MDB_PREV
| MDB_SET_KEY | MDB_SET_RANGE.

Definition ptr := nat.
Definition NULL : ptr := 0%nat.
Definition bytes := list Byte.byte.

(** ** Handle objects (LmdbObject_HEAD and the four structs) *)

Record env_fields := mkEnvFields {
  env_env : ptr;          (* MDB_env *env *)
  env_main_db : ptr;      (* DbObject *main_db *)
  env_readonly : bool     (* int readonly *)
}.

Record db_fields := mkDbFields {
  db_env : ptr;           (* struct EnvObject *env, not refcounted *)
  db_dbi : nat            (* MDB_dbi dbi *)
}.

Record trans_fields := mkTransFields {
  trans_env : ptr;        (* EnvObject *env *)
  trans_txn : ptr;        (* MDB_txn *txn *)
  trans_buffers : bool    (* int buffers *)
}.

Record cursor_fields := mkCursorFields {
  curs_trans : ptr;       (* TransObject *trans *)
  curs_positioned : bool; (* int positioned *)
  curs_curs : ptr;        (* MDB_cursor *curs *)
  curs_key : bytes;       (* MDB_val key *)
  curs_val : bytes        (* MDB_val val *)
}.

Inductive body :=
| EnvObject (e : env_fields)
| DbObject (d : db_fields)
| TransObject (t : trans_fields)
| CursorObject (c : cursor_fields).

Record lmdb_object := mkObject {
  children : list ptr;    (* children.next and the siblings chain *)
  valid : bool;           (* int valid *)
  obj_body : body
}.

(** The projection of an iterator: [cursor_key], [cursor_value] or
    [cursor_item]. *)
Inductive val_func := VKey | VValue | VItem.

Record IterObject := mkIter {
  iter_curs : ptr;
  iter_started : bool;
  iter_op : MDB_cursor_op;
  iter_val_func : val_func
}.

(** Calls made into the engine. *)
Inductive ecall :=
| EEnvClose (env : ptr)
| ETxnBegin (env parent : ptr) (flags : Z)
| ETxnCommit (txn : ptr)
| ETxnAbort (txn : ptr)
| EDbiOpen (txn : ptr) (name : option string) (flags : Z)
| EGet (txn : ptr) (dbi : nat) (key : bytes)
| EPut (txn : ptr) (dbi : nat) (key val : bytes) (flags : Z)
| EDel (txn : ptr) (dbi : nat) (key : bytes) (val : option bytes)
| EDrop (txn : ptr) (dbi : nat) (del : bool)
| ECursorOpen (txn : ptr) (dbi : nat)
| ECursorClose (curs : ptr)
| ECursorGet (curs : ptr) (key : bytes) (op : MDB_cursor_op)
| ECursorPut (curs : ptr) (key val : bytes) (flags : Z)
| ECursorDel (curs : ptr) (flags : Z)
| ECursorCount (curs : ptr)
| EEnvInfo (env : ptr)
| EEnvStat (env : ptr)
| EEnvSync (env : ptr) (force : bool)
| EEnvGetPath (env : ptr).

Record world := mkWorld {
  heap : gmap ptr lmdb_object;
  iters : gmap ptr IterObject;
  next_ptr : ptr;              (* next free address handed out by PyObject_New *)
  trace : list ecall           (* engine calls, most recent first *)
}.

(** The engine: each primitive answers from the history of calls. *)
Record engine := mkEngine {
  mdb_txn_begin : list ecall -> ptr -> ptr -> Z -> Z * ptr;
  mdb_txn_commit : list ecall -> ptr -> Z;
  mdb_dbi_open : list ecall -> ptr -> option string -> Z -> Z * nat;
  mdb_get : list ecall -> ptr -> nat -> bytes -> Z * bytes;
  mdb_put : list ecall -> ptr -> nat -> bytes -> bytes -> Z -> Z;
  mdb_del : list ecall -> ptr -> nat -> bytes -> option bytes -> Z;
  mdb_drop : list ecall -> ptr -> nat -> bool -> Z;
  mdb_cursor_open : list ecall -> ptr -> nat -> Z * ptr;
  mdb_cursor_get : list ecall -> ptr -> bytes -> MDB_cursor_op -> Z * (bytes * bytes);
  mdb_cursor_put : list ecall -> ptr -> bytes -> bytes -> Z -> Z;
  mdb_cursor_del : list ecall -> ptr -> Z -> Z;
  mdb_cursor_count : list ecall -> ptr -> Z * nat;
  mdb_env_info : list ecall -> ptr -> Z * list Z;
  mdb_env_stat : list ecall -> ptr -> Z * list Z;
  mdb_env_sync : list ecall -> ptr -> bool -> Z;
  mdb_env_get_path : list ecall -> ptr -> Z * string
}.

(** ** Python-level values and errors *)

Local Set Warnings "-register-all".
Inductive pyobj :=
| PyNone
| PyBool (b : bool)
| PyBytes (b : bytes)         (* string_from_val: a copy *)
| PyBuffer (b : bytes)        (* buffer_from_val: a view *)
| PyLong (n : Z)
| PyStr (s : string)
| PyTuple (l : list pyobj)
| PyList (l : list pyobj)
| PyDict (l : list (pyobj * pyobj))
| PyHandle (p : ptr)          (* a Transaction, Cursor, _Database or Iterator *)
| PyOther (n : nat).          (* any other object, e.g. a get() default *)

Inductive error :=
| InvalidHandle               (* err_invalid() *)
| EngineError (what : string) (rc : Z)   (* err_set(what, rc) *)
| TypeError (msg : string)    (* type_error() *)
| NullDeref                   (* a NULL or dangling handle pointer is dereferenced *)
| PythonError (n : nat)       (* an exception raised by caller-supplied Python code *)
| SystemError.                (* NULL returned with no exception set *)

(** ** The tree primitives, on worlds *)

Definition set_heap (h : gmap ptr lmdb_object) (w : world) : world :=
  mkWorld h (iters w) (next_ptr w) (trace w).

Definition log (c : ecall) (w : world) : world :=
  mkWorld (heap w) (iters w) (next_ptr w) (c :: trace w).

Definition upd_obj (p : ptr) (f : lmdb_object -> lmdb_object) (w : world) : world :=
  match heap w !! p with
  | Some o => set_heap (<[p := f o]> (heap w)) w
  | None => w
  end.

Definition upd_children (p : ptr) (f : list ptr -> list ptr) : world -> world :=
  upd_obj p (fun o => mkObject (f (children o)) (valid o) (obj_body o)).

Definition upd_body (p : ptr) (f : body -> body) : world -> world :=
  upd_obj p (fun o => mkObject (children o) (valid o) (f (obj_body o))).

(** [self->valid = 0] *)
Definition set_invalid (p : ptr) : world -> world :=
  upd_obj p (fun o => mkObject (children o) false (obj_body o)).

Definition env_at (w : world) (p : ptr) : option env_fields :=
  match heap w !! p with Some (mkObject _ _ (EnvObject e)) => Some e | _ => None end.
Definition db_at (w : world) (p : ptr) : option db_fields :=
  match heap w !! p with Some (mkObject _ _ (DbObject d)) => Some d | _ => None end.
Definition trans_at (w : world) (p : ptr) : option trans_fields :=
  match heap w !! p with Some (mkObject _ _ (TransObject t)) => Some t | _ => None end.
Definition cursor_at (w : world) (p : ptr) : option cursor_fields :=
  match heap w !! p with Some (mkObject _ _ (CursorObject c)) => Some c | _ => None end.

Definition map_env (f : env_fields -> env_fields) (b : body) : body :=
  match b with EnvObject e => EnvObject (f e) | b => b end.
Definition map_db (f : db_fields -> db_fields) (b : body) : body :=
  match b with DbObject d => DbObject (f d) | b => b end.
Definition map_trans (f : trans_fields -> trans_fields) (b : body) : body :=
  match b with TransObject t => TransObject (f t) | b => b end.
Definition map_cursor (f : cursor_fields -> cursor_fields) (b : body) : body :=
  match b with CursorObject c => CursorObject (f c) | b => b end.

Definition set_env_env (p v : ptr) := upd_body p (map_env (fun e =>
  mkEnvFields v (env_main_db e) (env_readonly e))).
Definition set_env_main_db (p v : ptr) := upd_body p (map_env (fun e =>
  mkEnvFields (env_env e) v (env_readonly e))).
Definition set_db_env (p v : ptr) := upd_body p (map_db (fun d =>
  mkDbFields v (db_dbi d))).
Definition set_trans_env (p v : ptr) := upd_body p (map_trans (fun t =>
  mkTransFields v (trans_txn t) (trans_buffers t))).
Definition set_trans_txn (p v : ptr) := upd_body p (map_trans (fun t =>
  mkTransFields (trans_env t) v (trans_buffers t))).
Definition set_curs_trans (p v : ptr) := upd_body p (map_cursor (fun c =>
  mkCursorFields v (curs_positioned c) (curs_curs c) (curs_key c) (curs_val c))).
Definition set_curs_key (p : ptr) (k : bytes) := upd_body p (map_cursor (fun c =>
  mkCursorFields (curs_trans c) (curs_positioned c) (curs_curs c) k (curs_val c))).
(** The state written back by [_cursor_get_c]: positioned, key and value. *)
Definition set_curs_pos (p : ptr) (pos : bool) (k v : bytes) := upd_body p (map_cursor (fun c =>
  mkCursorFields (curs_trans c) pos (curs_curs c) k v)).

Fixpoint remove_first (x : ptr) (l : list ptr) : list ptr :=
  match l with
  | [] => []
  | y :: l' => if Nat.eqb x y then l' else y :: remove_first x l'
  end.

(** [link_child]: insert at the head of the parent's list. *)
Definition link_child (parent child : ptr) : world -> world :=
  upd_children parent (cons child).

(** [unlink_child]: a NULL parent is ignored; otherwise the child leaves the
    parent's list (a second unlink finds nothing to remove). *)
Definition unlink_child (parent child : ptr) (w : world) : world :=
  if Nat.eqb parent NULL then w else upd_children parent (remove_first child) w.

(** [invalidate]: walk the children list captured before the walk (the C
    loop saves [next] before calling [tp_clear] on each child) and call
    each child's [tp_clear]. *)
Definition invalidate_with (clr : ptr -> world -> world) (parent : ptr) (w : world) : world :=
  match heap w !! parent with
  | Some o => fold_left (fun w c => clr c w) (children o) w
  | None => w
  end.

Definition db_clear (self : ptr) (w : world) : world :=
  match db_at w self with
  | Some d =>
      let w := if Nat.eqb (db_env d) NULL then w
               else set_db_env self NULL (unlink_child (db_env d) self w) in
      set_invalid self w
  | None => w
  end.

Definition env_clear (inv : ptr -> world -> world) (self : ptr) (w : world) : world :=
  match env_at w self with
  | Some e =>
      let w := if Nat.eqb (env_env e) NULL then w
               else let w := inv self w in
                    match env_at w self with
                    | Some e' => set_env_env self NULL (log (EEnvClose (env_env e')) w)
                    | None => w
                    end in
      match env_at w self with
      | Some e' => if Nat.eqb (env_main_db e') NULL then w else set_env_main_db self NULL w
      | None => w
      end
  | None => w
  end.

Definition trans_clear (inv : ptr -> world -> world) (self : ptr) (w : world) : world :=
  match heap w !! self with
  | Some o =>
      let w := if valid o then
                 let w := inv self w in
                 let w := match trans_at w self with
                          | Some t => if Nat.eqb (trans_txn t) NULL then w
                                      else set_trans_txn self NULL (log (ETxnAbort (trans_txn t)) w)
                          | None => w
                          end in
                 set_invalid self w
               else w in
      match trans_at w self with
      | Some t => set_trans_env self NULL (unlink_child (trans_env t) self w)
      | None => w
      end
  | None => w
  end.

(** [cursor_clear]; the view buffers and the cached item tuple it resets
    are not represented. *)
Definition cursor_clear (inv : ptr -> world -> world) (self : ptr) (w : world) : world :=
  match heap w !! self with
  | Some o =>
      let w := if valid o then
                 let w := inv self w in
                 match cursor_at w self with
                 | Some c =>
                     let w := unlink_child (curs_trans c) self w in
                     set_invalid self (log (ECursorClose (curs_curs c)) w)
                 | None => w
                 end
               else w in
      set_curs_trans self NULL w
  | None => w
  end.

(** [Py_TYPE(child)->tp_clear(child)], with the recursion through
    [invalidate] bounded by [fuel]. *)
Fixpoint tp_clear (fuel : nat) (self : ptr) (w : world) : world :=
  match fuel with
  | O => w
  | S n =>
      let inv := invalidate_with (tp_clear n) in
      match heap w !! self with
      | Some o =>
          match obj_body o with
          | EnvObject _ => env_clear inv self w
          | DbObject _ => db_clear self w
          | TransObject _ => trans_clear inv self w
          | CursorObject _ => cursor_clear inv self w
          end
      | None => w
      end
  end.

(** Objects are linked only by [make_trans] and [db_from_name] (to an
    environment) and by [make_cursor] (to a transaction): the tree has three
    levels, so three levels of recursion reach every handle. *)
Definition tree_depth : nat := 3.

Definition invalidate (parent : ptr) : world -> world :=
  invalidate_with (tp_clear tree_depth) parent.

(** ** A state and error monad: a NULL return with an exception set *)

Definition M (A : Type) : Type := world -> world * (error + A).

Global Instance M_ret : MRet M := fun A a w => (w, inr a).
Global Instance M_bind : MBind M := fun A B k m w =>
  match m w with
  | (w', inl e) => (w', inl e)
  | (w', inr a) => k a w'
  end.

Definition throw {A} (e : error) : M A := fun w => (w, inl e).
Definition lift (f : world -> world) : M unit := fun w => (f w, inr tt).

(** Run [m] and keep its exception as a value (the C code inspecting a NULL
    result before cleaning up). *)
Definition attempt {A} (m : M A) : M (error + A) := fun w =>
  match m w with (w', r) => (w', inr r) end.
Definition of_result {A} (r : error + A) : M A :=
  match r with inl e => throw e | inr a => mret a end.

Definition get_obj (p : ptr) : M lmdb_object := fun w =>
  match heap w !! p with Some o => (w, inr o) | None => (w, inl NullDeref) end.
Definition get_env (p : ptr) : M env_fields := fun w =>
  match env_at w p with Some e => (w, inr e) | None => (w, inl NullDeref) end.
Definition get_db (p : ptr) : M db_fields := fun w =>
  match db_at w p with Some d => (w, inr d) | None => (w, inl NullDeref) end.
Definition get_trans (p : ptr) : M trans_fields := fun w =>
  match trans_at w p with Some t => (w, inr t) | None => (w, inl NullDeref) end.
Definition get_cursor (p : ptr) : M cursor_fields := fun w =>
  match cursor_at w p with Some c => (w, inr c) | None => (w, inl NullDeref) end.
Definition get_iter (p : ptr) : M IterObject := fun w =>
  match iters w !! p with Some i => (w, inr i) | None => (w, inl NullDeref) end.
Definition get_valid (p : ptr) : M bool := o ← get_obj p; mret (valid o).

(** [if(! self->valid) return err_invalid();] *)
Definition check_valid (p : ptr) : M unit :=
  o ← get_obj p; if valid o then mret tt else throw InvalidHandle.

(** An engine call: logged, answered from the history before it. *)
Definition call {A} (c : ecall) (f : list ecall -> A) : M A := fun w =>
  (log c w, inr (f (trace w))).

(** [PyObject_New] followed by [OBJECT_INIT]: a fresh address, valid, no
    children.  The C code allocates before the engine call that fills the
    object and frees it when that call fails; allocating after a successful
    call is the same up to the choice of address. *)
Definition alloc (b : body) : M ptr := fun w =>
  let p := next_ptr w in
  (mkWorld (<[p := mkObject [] true b]> (heap w)) (iters w) (S p) (trace w), inr p).

Definition alloc_iter (i : IterObject) : M ptr := fun w =>
  let p := next_ptr w in
  (mkWorld (heap w) (<[p := i]> (iters w)) (S p) (trace w), inr p).

Definition set_iter_started (p : ptr) : M unit := fun w =>
  match iters w !! p with
  | Some i => (mkWorld (heap w) (<[p := mkIter (iter_curs i) true (iter_op i) (iter_val_func i)]> (iters w))
                 (next_ptr w) (trace w), inr tt)
  | None => (w, inl NullDeref)
  end.

(** [parse_args]: the validity test comes first; the arguments themselves
    arrive already typed (records of options below, [None] standing for an
    argument not given or given as None). *)
Definition parse_args (v : bool) : M unit :=
  if v then mret tt else throw InvalidHandle.

Definition err_set {A} (what : string) (rc : Z) : M A := throw (EngineError what rc).

(** A Python object handed where a buffer is expected ([val_from_buffer]). *)
Inductive pybuf := Buf (b : bytes) | NotBuf.

Definition val_from_buffer (x : pybuf) : M bytes :=
  match x with
  | Buf b => mret b
  | NotBuf => throw (TypeError "expected a readable buffer object")
  end.

Record get_args := mkGetArgs {
  ga_key : option bytes; ga_default : option pyobj; ga_db : option ptr }.
Record put_args := mkPutArgs {
  pa_key : option bytes; pa_value : option bytes; pa_dupdata : option bool;
  pa_overwrite : option bool; pa_append : option bool; pa_db : option ptr }.
Record delete_args := mkDeleteArgs {
  da_key : option bytes; da_val : option bytes; da_db : option ptr }.

Section Wrapper.

Variable eng : engine.

(** ** Functionality shared between Transaction and Environment *)

Definition generic_get (v : bool) (txn db : ptr) (buffers : bool) (a : get_args) : M pyobj :=
  parse_args v ;;
  let db := default db (ga_db a) in
  let default_ := default PyNone (ga_default a) in
  match ga_key a with
  | None => throw (TypeError "key must be given.")
  | Some key =>
      d ← get_db db;
      '(rc, val) ← call (EGet txn (db_dbi d) key) (fun tr => mdb_get eng tr txn (db_dbi d) key);
      if negb (rc =? 0) then
        (if rc =? MDB_NOTFOUND then mret default_ else err_set "mdb_get" rc)
      else if buffers then mret (PyBuffer val) else mret (PyBytes val)
  end.

(** [generic_put]; an absent key or value is the zero-length [MDB_val]. *)
Definition generic_put (v : bool) (txn db : ptr) (a : put_args) : M pyobj :=
  parse_args v ;;
  let key := default [] (pa_key a) in
  let value := default [] (pa_value a) in
  let dupdata := default false (pa_dupdata a) in
  let overwrite := default true (pa_overwrite a) in
  let append := default false (pa_append a) in
  let db := default db (pa_db a) in
  let flags := 0 in
  let flags := if negb dupdata then Z.lor flags MDB_NODUPDATA else flags in
  let flags := if negb overwrite then Z.lor flags MDB_NOOVERWRITE else flags in
  let flags := if append then Z.lor flags MDB_APPEND else flags in
  d ← get_db db;
  rc ← call (EPut txn (db_dbi d) key value flags)
            (fun tr => mdb_put eng tr txn (db_dbi d) key value flags);
  if negb (rc =? 0) then
    (if rc =? MDB_KEYEXIST then mret (PyBool false) else err_set "mdb_put" rc)
  else mret (PyBool true).

Definition generic_delete (v : bool) (txn db : ptr) (a : delete_args) : M pyobj :=
  parse_args v ;;
  let key := default [] (da_key a) in
  let db := default db (da_db a) in
  (* MDB_val *val_ptr = arg.val.mv_size ? &arg.val : NULL; *)
  let val_ptr := match da_val a with Some (b :: bs) => Some (b :: bs) | _ => None end in
  d ← get_db db;
  rc ← call (EDel txn (db_dbi d) key val_ptr) (fun tr => mdb_del eng tr txn (db_dbi d) key val_ptr);
  if negb (rc =? 0) then
    (if rc =? MDB_NOTFOUND then mret (PyBool false) else err_set "mdb_del" rc)
  else mret (PyBool true).

Definition make_trans (env parent : ptr) (write buffers : bool) : M ptr :=
  eo ← get_obj env;
  if negb (valid eo) then throw InvalidHandle else
  parent_txn ← (if Nat.eqb parent NULL then mret NULL else
                  po ← get_obj parent;
                  if negb (valid po) then throw InvalidHandle else
                  t ← get_trans parent; mret (trans_txn t));
  e ← get_env env;
  if write && env_readonly e then
    err_set "Cannot start write transaction with read-only env" 0
  else
  let flags := if write && negb (env_readonly e) then 0 else MDB_RDONLY in
  '(rc, txn) ← call (ETxnBegin (env_env e) parent_txn flags)
                    (fun tr => mdb_txn_begin eng tr (env_env e) parent_txn flags);
  if negb (rc =? 0) then err_set "mdb_txn_begin" rc else
  self ← alloc (TransObject (mkTransFields env txn buffers));
  lift (link_child env self) ;;
  mret self.

Definition make_cursor (db trans : ptr) : M ptr :=
  tobj ← get_obj trans;
  if negb (valid tobj) then throw InvalidHandle else
  t ← get_trans trans;
  db ← (if Nat.eqb db NULL then e ← get_env (trans_env t); mret (env_main_db e) else mret db);
  d ← get_db db;
  '(rc, curs) ← call (ECursorOpen (trans_txn t) (db_dbi d))
                     (fun tr => mdb_cursor_open eng tr (trans_txn t) (db_dbi d));
  if negb (rc =? 0) then err_set "mdb_cursor_open" rc else
  self ← alloc (CursorObject (mkCursorFields trans false curs [] []));
  lift (link_child trans self) ;;
  mret self.

(** ** Database *)

Definition db_from_name (env txn : ptr) (name : option string) (flags : Z) : M ptr :=
  '(rc, dbi) ← call (EDbiOpen txn name flags) (fun tr => mdb_dbi_open eng tr txn name flags);
  if negb (rc =? 0) then err_set "mdb_dbi_open" rc else
  dbo ← alloc (DbObject (mkDbFields env dbi));
  lift (link_child env dbo) ;;
  mret dbo.

Definition txn_db_from_name (env : ptr) (name : option string) (flags : Z) : M ptr :=
  e ← get_env env;
  let begin_flags := if (match name with None => true | Some _ => false end) || env_readonly e
                     then MDB_RDONLY else 0 in
  '(rc, txn) ← call (ETxnBegin (env_env e) NULL begin_flags)
                    (fun tr => mdb_txn_begin eng tr (env_env e) NULL begin_flags);
  if negb (rc =? 0) then err_set "mdb_txn_begin" rc else
  r ← attempt (db_from_name env txn name flags);
  match r with
  | inl err => call (ETxnAbort txn) (fun _ => tt) ;; throw err
  | inr dbo =>
      rc ← call (ETxnCommit txn) (fun tr => mdb_txn_commit eng tr txn);
      if negb (rc =? 0) then
        (* Py_DECREF(dbo): the last reference, so db_dealloc runs db_clear *)
        lift (db_clear dbo) ;; err_set "mdb_txn_commit" rc
      else mret dbo
  end.

(** ** Environment *)

Record begin_args := mkBeginArgs {
  ba_buffers : option bool; ba_write : option bool; ba_parent : option ptr }.
Record open_db_args := mkOpenDbArgs {
  oa_name : option string; oa_txn : option ptr; oa_reverse_key : option bool;
  oa_dupsort : option bool; oa_create : option bool }.

(** Iterating the [items] argument of [puts]: [PyIter_Next] either yields a
    2-tuple, some other object, or raises. *)
Inductive puts_item :=
| PutsPair (k v : pybuf)
| PutsNotPair
| PutsRaise (n : nat).

(** Iterating the [keys] argument of [gets]/[deletes]. *)
Inductive key_item :=
| KeyItem (k : pybuf)
| KeyRaise (n : nat).

Definition env_begin (self : ptr) (a : begin_args) : M pyobj :=
  v ← get_valid self;
  parse_args v ;;
  t ← make_trans self (default NULL (ba_parent a)) (default false (ba_write a))
                  (default false (ba_buffers a));
  mret (PyHandle t).

Definition env_close (self : ptr) : M pyobj :=
  so ← get_obj self;
  if valid so then
    (lift (invalidate self) ;;
     lift (set_invalid self) ;;
     e ← get_env self;
     call (EEnvClose (env_env e)) (fun _ => tt) ;;
     lift (set_env_env self NULL) ;;
     mret PyNone)
  else mret PyNone.

(** [env_copy] parses its argument and returns NULL without setting an
    exception. *)
Definition env_copy (self : ptr) : M pyobj :=
  check_valid self ;; throw SystemError.

Definition dict_from_fields (names : list string) (vals : list Z) : pyobj :=
  PyDict (map (fun nv => (PyStr nv.1, PyLong nv.2)) (combine names vals)).

Definition env_info (self : ptr) : M pyobj :=
  check_valid self ;;
  e ← get_env self;
  '(rc, info) ← call (EEnvInfo (env_env e)) (fun tr => mdb_env_info eng tr (env_env e));
  if negb (rc =? 0) then err_set "mdb_env_info" rc else
  mret (dict_from_fields ["map_addr"; "map_size"; "last_pgno"; "last_txnid";
                          "max_readers"; "num_readers"]%string info).

(** [env_open_db] parses its arguments with [parse_args(1, ...)]. *)
Definition env_open_db (self : ptr) (a : open_db_args) : M pyobj :=
  parse_args true ;;
  let flags := 0 in
  let flags := if default false (oa_reverse_key a) then Z.lor flags MDB_REVERSEKEY else flags in
  let flags := if default false (oa_dupsort a) then Z.lor flags MDB_DUPSORT else flags in
  let flags := if default true (oa_create a) then Z.lor flags MDB_CREATE else flags in
  match oa_txn a with
  | Some txn =>
      t ← get_trans txn;
      dbo ← db_from_name self (trans_txn t) (oa_name a) flags; mret (PyHandle dbo)
  | None =>
      dbo ← txn_db_from_name self (oa_name a) flags; mret (PyHandle dbo)
  end.

Definition env_path (self : ptr) : M pyobj :=
  check_valid self ;;
  e ← get_env self;
  '(rc, path) ← call (EEnvGetPath (env_env e)) (fun tr => mdb_env_get_path eng tr (env_env e));
  if negb (rc =? 0) then err_set "mdb_env_get_path" rc else mret (PyStr path).

Definition env_stat (self : ptr) : M pyobj :=
  check_valid self ;;
  e ← get_env self;
  '(rc, st) ← call (EEnvStat (env_env e)) (fun tr => mdb_env_stat eng tr (env_env e));
  if negb (rc =? 0) then err_set "mdb_env_stat" rc else
  mret (dict_from_fields ["psize"; "depth"; "branch_pages"; "leaf_pages";
                          "overflow_pages"; "entries"]%string st).

Definition env_sync (self : ptr) (force : option bool) : M pyobj :=
  v ← get_valid self;
  parse_args v ;;
  e ← get_env self;
  let force := default false force in
  rc ← call (EEnvSync (env_env e) force) (fun tr => mdb_env_sync eng tr (env_env e) force);
  if negb (rc =? 0) then err_set "mdb_env_sync" rc else mret PyNone.

Definition env_get (self : ptr) (a : get_args) : M pyobj :=
  check_valid self ;;
  e ← get_env self;
  '(rc, txn) ← call (ETxnBegin (env_env e) NULL MDB_RDONLY)
                    (fun tr => mdb_txn_begin eng tr (env_env e) NULL MDB_RDONLY);
  if negb (rc =? 0) then err_set "mdb_txn_begin" rc else
  r ← attempt (generic_get true txn (env_main_db e) false a);
  call (ETxnAbort txn) (fun _ => tt) ;;
  of_result r.

(** [PyDict_SetItem].  Abstraction: C uses the original key object as the
    dict key; this model keys the dict by the key's bytes, since [pybuf]
    does not record the key's Python type.  Two keys whose objects differ
    but whose bytes agree (a str and a bytes, say) are therefore merged
    here but not in C, and C's TypeError for an unhashable key (a
    bytearray) is not modelled.  The model of [env_gets] is used only for
    which LMDB calls it makes, not for the dict it returns. *)
Fixpoint dict_set (k v : bytes) (d : list (bytes * bytes)) : list (bytes * bytes) :=
  match d with
  | [] => [(k, v)]
  | (k', v') :: d' =>
      if List.list_eq_dec Byte.byte_eq_dec k k' then (k, v) :: d' else (k', v') :: dict_set k v d'
  end.

Fixpoint gets_loop (txn : ptr) (dbi : nat) (keys : list key_item)
    (dict : list (bytes * bytes)) : M (list (bytes * bytes)) :=
  match keys with
  | [] => mret dict
  | KeyRaise n :: _ => throw (PythonError n)
  | KeyItem kobj :: keys =>
      key ← val_from_buffer kobj;
      '(rc, val) ← call (EGet txn dbi key) (fun tr => mdb_get eng tr txn dbi key);
      if rc =? 0 then gets_loop txn dbi keys (dict_set key val dict)
      else if negb (rc =? MDB_NOTFOUND) then err_set "mdb_get" rc
      else gets_loop txn dbi keys dict
  end.

Definition env_gets (self : ptr) (keys : option (list key_item)) (db : option ptr) : M pyobj :=
  e ← get_env self;
  v ← get_valid self;
  parse_args v ;;
  let db := default (env_main_db e) db in
  match keys with
  | None => throw (TypeError "keys must be given")
  | Some keys =>
      '(rc, txn) ← call (ETxnBegin (env_env e) NULL MDB_RDONLY)
                        (fun tr => mdb_txn_begin eng tr (env_env e) NULL MDB_RDONLY);
      if negb (rc =? 0) then err_set "mdb_txn_begin" rc else
      d ← get_db db;
      r ← attempt (gets_loop txn (db_dbi d) keys []);
      call (ETxnAbort txn) (fun _ => tt) ;;
      dict ← of_result r;
      mret (PyDict (map (fun kv => (PyBytes kv.1, PyBytes kv.2)) dict))
  end.

Definition env_put (self : ptr) (a : put_args) : M pyobj :=
  check_valid self ;;
  e ← get_env self;
  '(rc, txn) ← call (ETxnBegin (env_env e) NULL 0)
                    (fun tr => mdb_txn_begin eng tr (env_env e) NULL 0);
  if negb (rc =? 0) then err_set "mdb_txn_begin" rc else
  r ← attempt (generic_put true txn (env_main_db e) a);
  match r with
  | inr ret =>
      rc ← call (ETxnCommit txn) (fun tr => mdb_txn_commit eng tr txn);
      if negb (rc =? 0) then err_set "mdb_txn_commit" rc else mret ret
  | inl err => call (ETxnAbort txn) (fun _ => tt) ;; throw err
  end.
Fixpoint puts_loop (txn db : ptr) (flags : Z) (items : list puts_item) (lst : list pyobj)
    : M (list pyobj) :=
  match items with
  | [] => mret lst
  | PutsRaise n :: _ => throw (PythonError n)
  | PutsNotPair :: _ => throw (TypeError "puts() element type must be a 2-tuple.")
  | PutsPair k v :: items =>
      key ← val_from_buffer k;
      val ← val_from_buffer v;
      d ← get_db db;
      rc ← call (EPut txn (db_dbi d) key val flags) (fun tr => mdb_put eng tr txn (db_dbi d) key val flags);
      res ← (if rc =? 0 then mret (PyBool true)
             else if rc =? MDB_KEYEXIST then mret (PyBool false)
             else err_set "mdb_put" rc);
      puts_loop txn db flags items (lst ++ [res])
  end.

Definition env_puts (self : ptr) (items : option (list puts_item))
    (dupdata overwrite append : option bool) (db : option ptr) : M pyobj :=
  e ← get_env self;
  v ← get_valid self;
  parse_args v ;;
  let dupdata := default false dupdata in
  let overwrite := default true overwrite in
  let append := default false append in
  let db := default (env_main_db e) db in
  match items with
  | None => throw (TypeError "items must be given")
  | Some items =>
      '(rc, txn) ← call (ETxnBegin (env_env e) NULL 0)
                        (fun tr => mdb_txn_begin eng tr (env_env e) NULL 0);
      if negb (rc =? 0) then err_set "mdb_txn_begin" rc else
      let flags := 0 in
      let flags := if negb dupdata then Z.lor flags MDB_NODUPDATA else flags in
      let flags := if negb overwrite then Z.lor flags MDB_NOOVERWRITE else flags in
      let flags := if append then Z.lor flags MDB_APPEND else flags in
      r ← attempt (puts_loop txn db flags items []);
      match r with
      | inl err => call (ETxnAbort txn) (fun _ => tt) ;; throw err
      | inr lst =>
          rc ← call (ETxnCommit txn) (fun tr => mdb_txn_commit eng tr txn);
          if negb (rc =? 0) then err_set "mdb_txn_commit" rc else mret (PyList lst)
      end
  end.

Definition env_delete (self : ptr) (a : delete_args) : M pyobj :=
  check_valid self ;;
  e ← get_env self;
  '(rc, txn) ← call (ETxnBegin (env_env e) NULL 0)
                    (fun tr => mdb_txn_begin eng tr (env_env e) NULL 0);
  if negb (rc =? 0) then err_set "mdb_txn_begin" rc else
  r ← attempt (generic_delete true txn (env_main_db e) a);
  match r with
  | inr ret =>
      rc ← call (ETxnCommit txn) (fun tr => mdb_txn_commit eng tr txn);
      if negb (rc =? 0) then err_set "mdb_txn_commit" rc else mret ret
  | inl err => call (ETxnAbort txn) (fun _ => tt) ;; throw err
  end.

Fixpoint deletes_loop (txn db : ptr) (keys : list key_item) (lst : list pyobj) : M (list pyobj) :=
  match keys with
  | [] => mret lst
  | KeyRaise n :: _ => throw (PythonError n)
  | KeyItem k :: keys =>
      key ← val_from_buffer k;
      d ← get_db db;
      rc ← call (EDel txn (db_dbi d) key None) (fun tr => mdb_del eng tr txn (db_dbi d) key None);
      res ← (if rc =? 0 then mret (PyBool true)
             else if rc =? MDB_NOTFOUND then mret (PyBool false)
             else err_set "mdb_del" rc);
      deletes_loop txn db keys (lst ++ [res])
  end.

Definition env_deletes (self : ptr) (keys : option (list key_item)) (db : option ptr) : M pyobj :=
  e ← get_env self;
  v ← get_valid self;
  parse_args v ;;
  let db := default (env_main_db e) db in
  match keys with
  | None => throw (TypeError "keys must be given")
  | Some keys =>
      '(rc, txn) ← call (ETxnBegin (env_env e) NULL 0)
                        (fun tr => mdb_txn_begin eng tr (env_env e) NULL 0);
      if negb (rc =? 0) then err_set "mdb_txn_begin" rc else
      r ← attempt (deletes_loop txn db keys []);
      match r with
      | inl err => call (ETxnAbort txn) (fun _ => tt) ;; throw err
      | inr lst =>
          rc ← call (ETxnCommit txn) (fun tr => mdb_txn_commit eng tr txn);
          if negb (rc =? 0) then err_set "mdb_txn_commit" rc else mret (PyList lst)
      end
  end.

Definition env_cursor (self : ptr) (buffers : option bool) (db : option ptr) : M pyobj :=
  e ← get_env self;
  v ← get_valid self;
  parse_args v ;;
  let db := default (env_main_db e) db in
  trans ← make_trans self NULL false (default false buffers);
  r ← attempt (make_cursor db trans);
  (* Py_DECREF(trans): without a cursor holding it, trans_dealloc runs trans_clear *)
  match r with
  | inl err => lift (tp_clear tree_depth trans) ;; throw err
  | inr cursor => mret (PyHandle cursor)
  end.

(** ** Transactions *)

Definition trans_abort (self : ptr) : M pyobj :=
  check_valid self ;;
  lift (invalidate self) ;;
  t ← get_trans self;
  call (ETxnAbort (trans_txn t)) (fun _ => tt) ;;
  lift (set_trans_txn self NULL) ;;
  lift (set_invalid self) ;;
  mret PyNone.

Definition trans_commit (self : ptr) : M pyobj :=
  check_valid self ;;
  lift (invalidate self) ;;
  t ← get_trans self;
  rc ← call (ETxnCommit (trans_txn t)) (fun tr => mdb_txn_commit eng tr (trans_txn t));
  lift (set_trans_txn self NULL) ;;
  lift (set_invalid self) ;;
  if negb (rc =? 0) then err_set "mdb_txn_commit" rc else mret PyNone.

Definition trans_enter (self : ptr) : M pyobj :=
  check_valid self ;; mret (PyHandle self).

(** [__exit__]: [exc_none] is whether the exception type passed is None. *)
Definition trans_exit (self : ptr) (exc_none : bool) : M pyobj :=
  check_valid self ;;
  if exc_none then trans_commit self else trans_abort self.

Definition trans_cursor (self : ptr) (db : option ptr) : M pyobj :=
  v ← get_valid self;
  parse_args v ;;
  db ← (match db with
        | Some db => mret db
        | None => t ← get_trans self; e ← get_env (trans_env t); mret (env_main_db e)
        end);
  c ← make_cursor db self;
  mret (PyHandle c).

(** [trans_get], [trans_put], [trans_delete] evaluate [self->env->main_db]
    as an argument, before [parse_args] tests [valid]. *)
Definition trans_delete (self : ptr) (a : delete_args) : M pyobj :=
  so ← get_obj self;
  t ← get_trans self;
  e ← get_env (trans_env t);
  generic_delete (valid so) (trans_txn t) (env_main_db e) a.

Definition trans_drop (self : ptr) (db : option ptr) (delete : option bool) : M pyobj :=
  v ← get_valid self;
  parse_args v ;;
  match db with
  | None => throw (TypeError "'db' argument required.")
  | Some db =>
      t ← get_trans self;
      d ← get_db db;
      let del := default true delete in
      rc ← call (EDrop (trans_txn t) (db_dbi d) del) (fun tr => mdb_drop eng tr (trans_txn t) (db_dbi d) del);
      if negb (rc =? 0) then err_set "mdb_drop" rc else mret PyNone
  end.

Definition trans_get (self : ptr) (a : get_args) : M pyobj :=
  so ← get_obj self;
  t ← get_trans self;
  e ← get_env (trans_env t);
  generic_get (valid so) (trans_txn t) (env_main_db e) (trans_buffers t) a.

Definition trans_put (self : ptr) (a : put_args) : M pyobj :=
  so ← get_obj self;
  t ← get_trans self;
  e ← get_env (trans_env t);
  generic_put (valid so) (trans_txn t) (env_main_db e) a.

Record trans_new_args := mkTransNewArgs {
  tn_env : option ptr; tn_parent : option ptr; tn_write : option bool; tn_buffers : option bool }.

(** [trans_new] tests [arg.env] before [parse_args] has filled it in. *)
Definition trans_new (a : trans_new_args) : M pyobj :=
  let env := NULL in
  if Nat.eqb env NULL then throw (TypeError "'env' argument required") else
  parse_args true ;;
  t ← make_trans (default env (tn_env a)) (default NULL (tn_parent a))
                 (default false (tn_write a)) (default false (tn_buffers a));
  mret (PyHandle t).

(** ** Cursors *)

Definition is_get_current (op : MDB_cursor_op) : bool :=
  match op with MDB_GET_CURRENT => true | _ => false end.

(** [_cursor_get_c]: not-found, and EINVAL for MDB_GET_CURRENT, leave the
    cursor unpositioned without an error. *)
Definition _cursor_get_c (self : ptr) (op : MDB_cursor_op) : M unit :=
  c ← get_cursor self;
  '(rc, kv) ← call (ECursorGet (curs_curs c) (curs_key c) op)
                   (fun tr => mdb_cursor_get eng tr (curs_curs c) (curs_key c) op);
  if rc =? 0 then lift (set_curs_pos self true kv.1 kv.2)
  else
    (lift (set_curs_pos self false [] []) ;;
     if rc =? MDB_NOTFOUND then mret tt
     else if (rc =? EINVAL) && is_get_current op then mret tt
     else err_set "mdb_cursor_get" rc).

Definition _cursor_get (self : ptr) (op : MDB_cursor_op) : M pyobj :=
  _cursor_get_c self op ;;
  c ← get_cursor self;
  mret (PyBool (curs_positioned c)).

Definition cursor_count (self : ptr) : M pyobj :=
  check_valid self ;;
  c ← get_cursor self;
  '(rc, count) ← call (ECursorCount (curs_curs c)) (fun tr => mdb_cursor_count eng tr (curs_curs c));
  if negb (rc =? 0) then err_set "mdb_cursor_count" rc else mret (PyLong (Z.of_nat count)).

(** [cursor_delete] ignores the result of the MDB_GET_CURRENT refresh; when
    that refresh sets an exception, True is returned with the exception set,
    which the interpreter reports as a SystemError. *)
Definition cursor_delete (self : ptr) : M pyobj :=
  check_valid self ;;
  c ← get_cursor self;
  if curs_positioned c then
    (rc ← call (ECursorDel (curs_curs c) 0) (fun tr => mdb_cursor_del eng tr (curs_curs c) 0);
     if negb (rc =? 0) then err_set "mdb_cursor_del" rc else
     r ← attempt (_cursor_get_c self MDB_GET_CURRENT);
     match r with inl _ => throw SystemError | inr _ => mret (PyBool true) end)
  else mret (PyBool false).

Definition cursor_first (self : ptr) : M pyobj := check_valid self ;; _cursor_get self MDB_FIRST.
Definition cursor_last (self : ptr) : M pyobj := check_valid self ;; _cursor_get self MDB_LAST.
Definition cursor_next (self : ptr) : M pyobj := check_valid self ;; _cursor_get self MDB_NEXT.
Definition cursor_prev (self : ptr) : M pyobj := check_valid self ;; _cursor_get self MDB_PREV.

(** [cursor_key], [cursor_value], [cursor_item]: views when the
    transaction buffers, copies otherwise (the reuse of the view objects and
    of the cached tuple is not represented). *)
Definition cursor_key (self : ptr) : M pyobj :=
  check_valid self ;;
  c ← get_cursor self;
  t ← get_trans (curs_trans c);
  if trans_buffers t then mret (PyBuffer (curs_key c)) else mret (PyBytes (curs_key c)).

Definition cursor_value (self : ptr) : M pyobj :=
  check_valid self ;;
  c ← get_cursor self;
  t ← get_trans (curs_trans c);
  if trans_buffers t then mret (PyBuffer (curs_val c)) else mret (PyBytes (curs_val c)).

Definition cursor_item (self : ptr) : M pyobj :=
  check_valid self ;;
  c ← get_cursor self;
  t ← get_trans (curs_trans c);
  if trans_buffers t then mret (PyTuple [PyBuffer (curs_key c); PyBuffer (curs_val c)])
  else mret (PyTuple [PyBytes (curs_key c); PyBytes (curs_val c)]).

Definition cursor_get (self : ptr) (key : option bytes) (default_ : option pyobj) : M pyobj :=
  check_valid self ;;
  v ← get_valid self;
  parse_args v ;;
  match key with
  | None => throw (TypeError "key must be given.")
  | Some key =>
      lift (set_curs_key self key) ;;
      _cursor_get_c self MDB_SET_KEY ;;
      c ← get_cursor self;
      if negb (curs_positioned c) then mret (default PyNone default_) else cursor_value self
  end.

Record cursor_put_args := mkCursorPutArgs {
  cpa_key : option bytes; cpa_val : option bytes; cpa_dupdata : option bool;
  cpa_overwrite : option bool; cpa_append : option bool }.

Definition cursor_put (self : ptr) (a : cursor_put_args) : M pyobj :=
  v ← get_valid self;
  parse_args v ;;
  let key := default [] (cpa_key a) in
  let val := default [] (cpa_val a) in
  let dupdata := default false (cpa_dupdata a) in
  let overwrite := default true (cpa_overwrite a) in
  let append := default false (cpa_append a) in
  let flags := 0 in
  let flags := if negb dupdata then Z.lor flags MDB_NODUPDATA else flags in
  let flags := if negb overwrite then Z.lor flags MDB_NOOVERWRITE else flags in
  let flags := if negb append then Z.lor flags MDB_APPEND else flags in
  c ← get_cursor self;
  rc ← call (ECursorPut (curs_curs c) key val flags)
            (fun tr => mdb_cursor_put eng tr (curs_curs c) key val flags);
  if negb (rc =? 0) then
    (if rc =? MDB_KEYEXIST then mret (PyBool false) else err_set "mdb_put" rc)
  else mret (PyBool true).

Definition cursor_set_key (self : ptr) (arg : pybuf) : M pyobj :=
  check_valid self ;;
  key ← val_from_buffer arg;
  lift (set_curs_key self key) ;;
  _cursor_get self MDB_SET_KEY.

Definition cursor_set_range (self : ptr) (arg : pybuf) : M pyobj :=
  check_valid self ;;
  key ← val_from_buffer arg;
  lift (set_curs_key self key) ;;
  match key with
  | _ :: _ => _cursor_get self MDB_SET_RANGE
  | [] => _cursor_get self MDB_FIRST
  end.

(** ** Cursor iteration *)

Definition iter_from_args (self : ptr) (keys values : option bool)
    (pos_op op : MDB_cursor_op) : M pyobj :=
  v ← get_valid self;
  parse_args v ;;
  let keys := default true keys in
  let values := default true values in
  c ← get_cursor self;
  (if negb (curs_positioned c) then _cursor_get_c self pos_op else mret tt) ;;
  let vf := if negb values then VKey else if negb keys then VValue else VItem in
  it ← alloc_iter (mkIter self false op vf);
  mret (PyHandle it).

Definition cursor_iter (self : ptr) : M pyobj :=
  iter_from_args self None None MDB_FIRST MDB_NEXT.
Definition cursor_iternext (self : ptr) (keys values : option bool) : M pyobj :=
  iter_from_args self keys values MDB_FIRST MDB_NEXT.
Definition cursor_iterprev (self : ptr) (keys values : option bool) : M pyobj :=
  iter_from_args self keys values MDB_LAST MDB_PREV.

Definition cursor_iter_from (self : ptr) (key : option bytes) (reverse : option bool) : M pyobj :=
  v ← get_valid self;
  parse_args v ;;
  let key := default [] key in
  let reverse := default false reverse in
  (match key, reverse with
   | [], false => _cursor_get_c self MDB_FIRST
   | _, _ => lift (set_curs_key self key) ;; _cursor_get_c self MDB_SET_RANGE
   end) ;;
  let op := if reverse then MDB_PREV else MDB_NEXT in
  c ← get_cursor self;
  (if reverse && negb (curs_positioned c) then _cursor_get_c self MDB_LAST else mret tt) ;;
  it ← alloc_iter (mkIter self false op VItem);
  mret (PyHandle it).

Definition cursor_new (db trans : option ptr) : M pyobj :=
  parse_args true ;;
  match db, trans with
  | Some db, Some trans => c ← make_cursor db trans; mret (PyHandle c)
  | _, _ => throw (TypeError "db and transaction parameters required.")
  end.

Definition call_val_func (f : val_func) (curs : ptr) : M pyobj :=
  match f with
  | VKey => cursor_key curs
  | VValue => cursor_value curs
  | VItem => cursor_item curs
  end.

(** [iter_next]: [None] is the end of the iteration (NULL, no exception). *)
Definition iter_yield (self : ptr) (it : IterObject) : M (option pyobj) :=
  r ← attempt (call_val_func (iter_val_func it) (iter_curs it));
  set_iter_started self ;;
  val ← of_result r;
  mret (Some val).

Definition iter_next (self : ptr) : M (option pyobj) :=
  it ← get_iter self;
  co ← get_obj (iter_curs it);
  if negb (valid co) then throw InvalidHandle else
  c ← get_cursor (iter_curs it);
  if negb (curs_positioned c) then mret None else
  if iter_started it then
    (_cursor_get_c (iter_curs it) (iter_op it) ;;
     c' ← get_cursor (iter_curs it);
     if negb (curs_positioned c') then mret None else iter_yield self it)
  else iter_yield self it.

(** ** The public methods *)

(** One call of a Python-level method of a handle, or of a constructor or
    of [Iterator.__next__], with its arguments. *)
Inductive op :=
| OEnvBegin (self : ptr) (a : begin_args)
| OEnvClose (self : ptr)
| OEnvCopy (self : ptr)
| OEnvInfo (self : ptr)
| OEnvOpenDb (self : ptr) (a : open_db_args)
| OEnvPath (self : ptr)
| OEnvStat (self : ptr)
| OEnvSync (self : ptr) (force : option bool)
| OEnvGet (self : ptr) (a : get_args)
| OEnvGets (self : ptr) (keys : option (list key_item)) (db : option ptr)
| OEnvPut (self : ptr) (a : put_args)
| OEnvPuts (self : ptr) (items : option (list puts_item)) (dupdata overwrite append : option bool)
    (db : option ptr)
| OEnvDelete (self : ptr) (a : delete_args)
| OEnvDeletes (self : ptr) (keys : option (list key_item)) (db : option ptr)
| OEnvCursor (self : ptr) (buffers : option bool) (db : option ptr)
| OTransAbort (self : ptr)
| OTransCommit (self : ptr)
| OTransEnter (self : ptr)
| OTransExit (self : ptr) (exc_none : bool)
| OTransCursor (self : ptr) (db : option ptr)
| OTransDelete (self : ptr) (a : delete_args)
| OTransDrop (self : ptr) (db : option ptr) (delete : option bool)
| OTransGet (self : ptr) (a : get_args)
| OTransPut (self : ptr) (a : put_args)
| OCursorCount (self : ptr)
| OCursorDelete (self : ptr)
| OCursorFirst (self : ptr)
| OCursorGet (self : ptr) (key : option bytes) (default_ : option pyobj)
| OCursorItem (self : ptr)
| OCursorIterNext (self : ptr) (keys values : option bool)
| OCursorIterPrev (self : ptr) (keys values : option bool)
| OCursorKey (self : ptr)
| OCursorLast (self : ptr)
| OCursorNext (self : ptr)
| OCursorPrev (self : ptr)
| OCursorPut (self : ptr) (a : cursor_put_args)
| OCursorSetKey (self : ptr) (arg : pybuf)
| OCursorSetRange (self : ptr) (arg : pybuf)
| OCursorValue (self : ptr)
| OCursorIterFrom (self : ptr) (key : option bytes) (reverse : option bool)
| OCursorIter (self : ptr)
| OTransNew (a : trans_new_args)
| OCursorNew (db trans : option ptr)
| OIterNext (self : ptr).

Definition returning (m : M pyobj) : M (option pyobj) := x ← m; mret (Some x).

(** The method table; [None] is the end of an iteration. *)
Definition run_op (o : op) : M (option pyobj) :=
  match o with
  | OEnvBegin p a => returning (env_begin p a)
  | OEnvClose p => returning (env_close p)
  | OEnvCopy p => returning (env_copy p)
  | OEnvInfo p => returning (env_info p)
  | OEnvOpenDb p a => returning (env_open_db p a)
  | OEnvPath p => returning (env_path p)
  | OEnvStat p => returning (env_stat p)
  | OEnvSync p f => returning (env_sync p f)
  | OEnvGet p a => returning (env_get p a)
  | OEnvGets p k d => returning (env_gets p k d)
  | OEnvPut p a => returning (env_put p a)
  | OEnvPuts p i du ow ap d => returning (env_puts p i du ow ap d)
  | OEnvDelete p a => returning (env_delete p a)
  | OEnvDeletes p k d => returning (env_deletes p k d)
  | OEnvCursor p b d => returning (env_cursor p b d)
  | OTransAbort p => returning (trans_abort p)
  | OTransCommit p => returning (trans_commit p)
  | OTransEnter p => returning (trans_enter p)
  | OTransExit p e => returning (trans_exit p e)
  | OTransCursor p d => returning (trans_cursor p d)
  | OTransDelete p a => returning (trans_delete p a)
  | OTransDrop p d del => returning (trans_drop p d del)
  | OTransGet p a => returning (trans_get p a)
  | OTransPut p a => returning (trans_put p a)
  | OCursorCount p => returning (cursor_count p)
  | OCursorDelete p => returning (cursor_delete p)
  | OCursorFirst p => returning (cursor_first p)
  | OCursorGet p k d => returning (cursor_get p k d)
  | OCursorItem p => returning (cursor_item p)
  | OCursorIterNext p k v => returning (cursor_iternext p k v)
  | OCursorIterPrev p k v => returning (cursor_iterprev p k v)
  | OCursorKey p => returning (cursor_key p)
  | OCursorLast p => returning (cursor_last p)
  | OCursorNext p => returning (cursor_next p)
  | OCursorPrev p => returning (cursor_prev p)
  | OCursorPut p a => returning (cursor_put p a)
  | OCursorSetKey p a => returning (cursor_set_key p a)
  | OCursorSetRange p a => returning (cursor_set_range p a)
  | OCursorValue p => returning (cursor_value p)
  | OCursorIterFrom p k r => returning (cursor_iter_from p k r)
  | OCursorIter p => returning (cursor_iter p)
  | OTransNew a => returning (trans_new a)
  | OCursorNew d t => returning (cursor_new d t)
  | OIterNext p => iter_next p
  end.

(** Independent calls made one after the other: an exception raised by one
    does not prevent the next. *)
Fixpoint run_ops (os : list op) (w : world) : world :=
  match os with
  | [] => w
  | o :: os => run_ops os (run_op o w).1
  end.

End Wrapper.

(** ** Shape of the handle tree *)

Inductive kind := KEnv | KDb | KTrans | KCursor.

Definition body_kind (b : body) : kind :=
  match b with
  | EnvObject _ => KEnv | DbObject _ => KDb | TransObject _ => KTrans | CursorObject _ => KCursor
  end.

(** Level in the tree: cursors below transactions below environments;
    databases hang directly below their environment. *)
Definition rank (k : kind) : nat :=
  match k with KEnv => 2 | KTrans => 1 | KDb => 0 | KCursor => 0 end.

Definition kind_at (w : world) (p : ptr) : option kind :=
  (fun o => body_kind (obj_body o)) <$> heap w !! p.
Definition valid_at (w : world) (p : ptr) : bool :=
  match heap w !! p with Some o => valid o | None => false end.
Definition ch (w : world) (p : ptr) : list ptr :=
  match heap w !! p with Some o => children o | None => [] end.

(** [q] is reached from [p] through one or more child lists. *)
Inductive desc (w : world) : ptr -> ptr -> Prop :=
| desc_child p c : c ∈ ch w p -> desc w p c
| desc_step p c q : c ∈ ch w p -> desc w c q -> desc w p q.

(** Addresses from [next_ptr] on are unused. *)
Definition fresh (w : world) : Prop :=
  forall p : ptr, (next_ptr w <= p)%nat -> heap w !! p = None /\ iters w !! p = None.

(** Every listed child is a handle one level below its parent. *)
Definition well_ranked (w : world) : Prop :=
  forall p c, c ∈ ch w p ->
    exists kp kc, kind_at w p = Some kp /\ kind_at w c = Some kc /\ (rank kc < rank kp)%nat.

(** An invalidated transaction or cursor lists only invalid children. *)
Definition dead_children (w : world) : Prop :=
  forall p c, valid_at w p = false -> kind_at w p <> Some KEnv -> c ∈ ch w p -> valid_at w c = false.

Definition wf (w : world) : Prop := fresh w /\ well_ranked w /\ dead_children w.

(** The handle a method is called on, the kind it expects, and whether it
    starts with the validity test. *)
Definition op_target (o : op) : ptr :=
  match o with
  | OEnvBegin p _ | OEnvClose p | OEnvCopy p | OEnvInfo p | OEnvOpenDb p _ | OEnvPath p
  | OEnvStat p | OEnvSync p _ | OEnvGet p _ | OEnvGets p _ _ | OEnvPut p _
  | OEnvPuts p _ _ _ _ _ | OEnvDelete p _ | OEnvDeletes p _ _ | OEnvCursor p _ _
  | OTransAbort p | OTransCommit p | OTransEnter p | OTransExit p _ | OTransCursor p _
  | OTransDelete p _ | OTransDrop p _ _ | OTransGet p _ | OTransPut p _
  | OCursorCount p | OCursorDelete p | OCursorFirst p | OCursorGet p _ _ | OCursorItem p
  | OCursorIterNext p _ _ | OCursorIterPrev p _ _ | OCursorKey p | OCursorLast p
  | OCursorNext p | OCursorPrev p | OCursorPut p _ | OCursorSetKey p _ | OCursorSetRange p _
  | OCursorValue p | OCursorIterFrom p _ _ | OCursorIter p | OIterNext p => p
  | OTransNew _ | OCursorNew _ _ => NULL
  end.

Definition op_kind (o : op) : option kind :=
  match o with
  | OEnvBegin _ _ | OEnvClose _ | OEnvCopy _ | OEnvInfo _ | OEnvOpenDb _ _ | OEnvPath _
  | OEnvStat _ | OEnvSync _ _ | OEnvGet _ _ | OEnvGets _ _ _ | OEnvPut _ _
  | OEnvPuts _ _ _ _ _ _ | OEnvDelete _ _ | OEnvDeletes _ _ _ | OEnvCursor _ _ _ => Some KEnv
  | OTransAbort _ | OTransCommit _ | OTransEnter _ | OTransExit _ _ | OTransCursor _ _
  | OTransDelete _ _ | OTransDrop _ _ _ | OTransGet _ _ | OTransPut _ _ => Some KTrans
  | OCursorCount _ | OCursorDelete _ | OCursorFirst _ | OCursorGet _ _ _ | OCursorItem _
  | OCursorIterNext _ _ _ | OCursorIterPrev _ _ _ | OCursorKey _ | OCursorLast _
  | OCursorNext _ | OCursorPrev _ | OCursorPut _ _ | OCursorSetKey _ _ | OCursorSetRange _ _
  | OCursorValue _ | OCursorIterFrom _ _ _ | OCursorIter _ => Some KCursor
  | OTransNew _ | OCursorNew _ _ | OIterNext _ => None
  end.

(** Methods of a handle that refuse an invalid handle: all of them except
    [Environment.close] (a no-op then) and [Environment.open_db] (which
    passes 1 as the validity to [parse_args]). *)
Definition guarded (o : op) : bool :=
  match o with
  | OEnvClose _ | OEnvOpenDb _ _ | OTransNew _ | OCursorNew _ _ | OIterNext _ => false
  | _ => true
  end.

(** [Transaction.get], [put] and [delete] read [self->env->main_db] first. *)
Definition reads_env (o : op) : bool :=
  match o with OTransDelete _ _ | OTransGet _ _ | OTransPut _ _ => true | _ => false end.

(** The handle has the type the method belongs to, and for the three methods
    above its environment reference is set. *)
Definition op_ready (w : world) (o : op) : Prop :=
  kind_at w (op_target o) = op_kind o /\
  (reads_env o = true -> exists t e, trans_at w (op_target o) = Some t /\ env_at w (trans_env t) = Some e).

(** ** Engine calls made by a computation *)

(** Every engine call [m] makes satisfies [P]. *)
Definition Logs (P : ecall -> Prop) {A} (m : M A) : Prop :=
  forall w, exists new, trace (m w).1 = new ++ trace w /\ Forall P new.

(** A put whose flags leave MDB_NOOVERWRITE (bit 4) clear and set
    MDB_NODUPDATA (bit 5). *)
Definition default_put_flags (c : ecall) : Prop :=
  match c with
  | EPut _ _ _ _ f | ECursorPut _ _ _ f => Z.testbit f 4 = false /\ Z.testbit f 5 = true
  | _ => True
  end.

(** A call of [mdb_put]. *)
Definition is_put (c : ecall) : Prop :=
  match c with EPut _ _ _ _ _ => True | _ => False end.

(** A call of [mdb_del], if any, without a value. *)
Definition del_without_value (c : ecall) : Prop :=
  match c with EDel _ _ _ v => v = None | _ => True end.

(** A put whose MDB_APPEND bit (bit 17) is [b]. *)
Definition append_flag (b : bool) (c : ecall) : Prop :=
  match c with
  | EPut _ _ _ _ f | ECursorPut _ _ _ f => Z.testbit f 17 = b
  | _ => True
  end.

(** ** A small concrete setting

    An engine whose data primitives all answer [rc] while transactions,
    databases and cursors open and commit successfully, and a world with
    one environment (1), its main database (2), a write transaction (3) and
    an unpositioned cursor (4) in that transaction. *)

Definition eng_rc (rc : Z) : engine := {|
  mdb_txn_begin := fun tr _ _ _ => (0, 60%nat);
  mdb_txn_commit := fun _ _ => 0;
  mdb_dbi_open := fun _ _ _ _ => (0, 1%nat);
  mdb_get := fun _ _ _ _ => (rc, []);
  mdb_put := fun _ _ _ _ _ _ => rc;
  mdb_del := fun _ _ _ _ _ => rc;
  mdb_drop := fun _ _ _ _ => rc;
  mdb_cursor_open := fun _ _ _ => (0, 70%nat);
  mdb_cursor_get := fun _ _ _ _ => (rc, ([], []));
  mdb_cursor_put := fun _ _ _ _ _ => rc;
  mdb_cursor_del := fun _ _ _ => rc;
  mdb_cursor_count := fun _ _ => (rc, 0%nat);
  mdb_env_info := fun _ _ => (0, []);
  mdb_env_stat := fun _ _ => (0, []);
  mdb_env_sync := fun _ _ _ => 0;
  mdb_env_get_path := fun _ _ => (0, "db"%string)
|}.

(** Reads miss, puts find the key, deletes find nothing. *)
Definition eng_miss : engine := {|
  mdb_txn_begin := mdb_txn_begin (eng_rc 0);
  mdb_txn_commit := mdb_txn_commit (eng_rc 0);
  mdb_dbi_open := mdb_dbi_open (eng_rc 0);
  mdb_get := fun _ _ _ _ => (MDB_NOTFOUND, []);
  mdb_put := fun _ _ _ _ _ _ => MDB_KEYEXIST;
  mdb_del := fun _ _ _ _ _ => MDB_NOTFOUND;
  mdb_drop := mdb_drop (eng_rc 0);
  mdb_cursor_open := mdb_cursor_open (eng_rc 0);
  mdb_cursor_get := mdb_cursor_get (eng_rc 0);
  mdb_cursor_put := mdb_cursor_put (eng_rc 0);
  mdb_cursor_del := mdb_cursor_del (eng_rc 0);
  mdb_cursor_count := mdb_cursor_count (eng_rc 0);
  mdb_env_info := mdb_env_info (eng_rc 0);
  mdb_env_stat := mdb_env_stat (eng_rc 0);
  mdb_env_sync := mdb_env_sync (eng_rc 0);
  mdb_env_get_path := mdb_env_get_path (eng_rc 0)
|}.

Definition ex_env (readonly : bool) : env_fields := mkEnvFields 50%nat 2%nat readonly.
Definition ex_trans : trans_fields := mkTransFields 1%nat 60%nat false.
Definition ex_curs (pos : bool) : cursor_fields := mkCursorFields 3%nat pos 70%nat [] [].

Definition ex_world (readonly env_valid pos : bool) : world := {|
  heap := <[1%nat := mkObject [3%nat; 2%nat] env_valid (EnvObject (ex_env readonly))]>
          (<[2%nat := mkObject [] true (DbObject (mkDbFields 1%nat 0%nat))]>
          (<[3%nat := mkObject [4%nat] true (TransObject ex_trans)]>
          (<[4%nat := mkObject [] true (CursorObject (ex_curs pos))]> ∅)));
  iters := ∅;
  next_ptr := 5%nat;
  trace := []
|}.

Definition ex_w : world := ex_world false true false.

(** The same world with the cursor positioned and an iterator (5) over it
    that has already yielded once. *)
Definition ex_iter_world : world := {|
  heap := heap (ex_world false true true);
  iters := <[5%nat := mkIter 4%nat true MDB_NEXT VItem]> ∅;
  next_ptr := 6%nat;
  trace := []
|}.

(** ** Argument parsing (parse_ulong, parse_arg, parse_args) *)

Module ArgParse.

(** The value of a float or Fraction: [RFinite n d] is n/d; a float may
    also be an infinity or NaN. *)
Inductive realval :=
| RFinite (n : Z) (d : positive)
| RInf (neg : bool)
| RNaN.

(** A Python argument as [parse_arg] sees it.  [AInt] is an int, [ATrue]
    and [AFalse] the two bools (an int subclass), [ABytes] an exact bytes
    object, [AUnicode] an exact str given by its UTF-8 encoding, [ABuffer]
    any other object exposing a readable buffer, [AReal] a float or a
    fractions.Fraction (not an int, but ordered against ints by value), and
    [AOther] any other object, whose comparison with an int raises
    TypeError. *)
Inductive argval :=
| ANone
| ATrue
| AFalse
| AInt (z : Z)
| ABytes (b : bytes)
| AUnicode (utf8 : bytes)
| ABuffer (b : bytes)
| ADatabase (p : ptr)         (* ob_type == &PyDatabase_Type *)
| ATransaction (p : ptr)      (* ob_type == &PyTransaction_Type *)
| AReal (r : realval)
| AOther (n : nat).

Inductive arg_type :=
| ARG_OBJ | ARG_DB | ARG_TRANS | ARG_BOOL | ARG_BUF | ARG_STR | ARG_INT | ARG_SIZE.

(** [struct argspec]: the field offset is the index of the spec entry. *)
Record argspec := mkArgspec {
  spec_type : arg_type;
  spec_name : string          (* string_tbl[string_id] *)
}.

(** The fields of the [out] struct: an object or char * that may be NULL,
    an int flag, an MDB_val, an integer. *)
Inductive slot :=
| SNull
| SObj (v : argval)
| SBool (b : bool)
| SVal (b : bytes)
| SInt (z : Z).

Global Instance slot_inhabited : Inhabited slot := populate SNull.

Definition INT_MAX : Z := 2147483647.
Definition SIZE_MAX : Z := 18446744073709551615.

(** The integer value used by [PyObject_RichCompareBool(obj, n, op)];
    [None]: the comparison raises. *)
Definition as_long (v : argval) : option Z :=
  match v with
  | ATrue => Some 1
  | AFalse => Some 0
  | AInt z => Some z
  | _ => None
  end.

(** CPython's TypeError for an unsupported [>=] comparison. *)
Definition compare_error : error := TypeError "'>=' not supported between instances".

(** [r >= 0] and [r <= n] for an int [n], compared exactly as Python
    compares a float or Fraction with an int (NaN compares false). *)
Definition real_ge_0 (r : realval) : bool :=
  match r with
  | RFinite n _ => n >=? 0
  | RInf neg => negb neg
  | RNaN => false
  end.

Definition real_le (r : realval) (m : Z) : bool :=
  match r with
  | RFinite n d => n <=? m * Z.pos d
  | RInf neg => neg
  | RNaN => false
  end.

(** Both comparisons go through [PyObject_RichCompareBool]; then
    [PyLong_AsUnsignedLongLongMask] converts.  On an int it keeps the low
    64 bits.  On a float or Fraction (Python 3.10 and later, which require
    [__index__]) it sets TypeError and returns [(unsigned long long)-1];
    [parse_ulong] does not test for that, so it reports success with
    2^64-1 and the exception left pending. *)
Definition parse_ulong (v : argval) (max : Z) : error + Z :=
  match v with
  | AReal r =>
      if negb (real_ge_0 r) then inl (TypeError "Integer argument must be >= 0")
      else if negb (real_le r max) then inl (TypeError "Integer argument exceeds limit.")
      else inr (Z.ones 64)
  | _ =>
    match as_long v with
    | None => inl compare_error
    | Some z =>
        if negb (z >=? 0) then inl (TypeError "Integer argument must be >= 0")
        else if negb (z <=? max) then inl (TypeError "Integer argument exceeds limit.")
        else inr (Z.land z (Z.ones 64))
    end
  end.

(** The conversion [(int) l] of a uint64_t. *)
Definition to_int (l : Z) : Z :=
  let m := Z.land l (Z.ones 32) in
  if m >=? 2 ^ 31 then m - 2 ^ 32 else m.

Definition val_from_buffer (v : argval) : error + bytes :=
  match v with
  | ABytes b | AUnicode b | ABuffer b => inr b
  | _ => inl (TypeError "expected a readable buffer object")
  end.

Definition is_py_true (v : argval) : bool :=
  match v with ATrue => true | _ => false end.

Definition is_database (v : argval) : bool :=
  match v with ADatabase _ => true | _ => false end.

Definition is_transaction (v : argval) : bool :=
  match v with ATransaction _ => true | _ => false end.

(** [parse_arg] writes field [i] of [out]. *)
Definition parse_arg (s : argspec) (v : argval) (i : nat) (out : list slot) : error + list slot :=
  match v with
  | ANone => inr out
  | _ =>
    match spec_type s with
    | ARG_OBJ => inr (<[i := SObj v]> out)
    | ARG_DB =>
        if is_database v then inr (<[i := SObj v]> out) else inl (TypeError "invalid type")
    | ARG_TRANS =>
        if is_transaction v then inr (<[i := SObj v]> out) else inl (TypeError "invalid type")
    | ARG_BOOL => inr (<[i := SBool (is_py_true v)]> out)
    | ARG_BUF | ARG_STR =>
        match val_from_buffer v with
        | inl e => inl e
        | inr b => inr (<[i := SVal b]> out)
        end
    | ARG_INT =>
        match parse_ulong v INT_MAX with
        | inl e => inl e
        | inr l => inr (<[i := SInt (to_int l)]> out)
        end
    | ARG_SIZE =>
        match parse_ulong v SIZE_MAX with
        | inl e => inl e
        | inr l => inr (<[i := SInt l]> out)
        end
    end
  end.

(** The positional loop: argument [i] goes to spec entry [i], and bit [i]
    of [set] is raised. *)
Fixpoint pos_loop (spec : list argspec) (args : list argval) (i : nat) (set : Z)
    (out : list slot) : error + (Z * list slot) :=
  match spec, args with
  | s :: spec', a :: args' =>
      match parse_arg s a i out with
      | inl e => inl e
      | inr out' => pos_loop spec' args' (S i) (Z.lor set (Z.shiftl 1 (Z.of_nat i))) out'
      end
  | _, _ => inr (set, out)
  end.

(** The keyword loop [for(i = 0; i < specsize && c != size; i++)]. *)
Fixpoint kw_loop (spec : list argspec) (kwds : gmap string argval) (set : Z)
    (size : nat) (i c : nat) (out : list slot) : error + (nat * list slot) :=
  match spec with
  | [] => inr (c, out)
  | s :: spec' =>
      if Nat.eqb c size then inr (c, out) else
      match kwds !! spec_name s with
      | Some v =>
          if Z.testbit set (Z.of_nat i)
          then inl (TypeError "duplicate argument")   (* "%s" formatted from the str key *)
          else match parse_arg s v i out with
               | inl e => inl e
               | inr out' => kw_loop spec' kwds set size (S i) (S c) out'
               end
      | None => kw_loop spec' kwds set size (S i) c out
      end
  end.

(** [args] is the positional tuple, [kwds] the keyword dict or NULL. *)
Definition parse_args (valid : bool) (spec : list argspec) (args : list argval)
    (kwds : option (gmap string argval)) (out : list slot) : error + list slot :=
  if negb valid then inl InvalidHandle else
  if Nat.ltb (length spec) (length args) then inl (TypeError "too many positional arguments.") else
  match pos_loop spec args 0 0 out with
  | inl e => inl e
  | inr (set, out1) =>
      match kwds with
      | None => inr out1
      | Some kw =>
          match kw_loop spec kw set (size kw) 0 0 out1 with
          | inl e => inl e
          | inr (c, out2) =>
              if Nat.eqb c (size kw) then inr out2
              else inl (TypeError "unrecognized keyword argument")
          end
      end
  end.

(** Reading a field back as the method does. *)
Definition slot_bool (s : slot) : bool :=
  match s with SBool b => b | _ => false end.
Definition slot_int (s : slot) : Z :=
  match s with SInt z => z | _ => 0 end.
Definition slot_trans (s : slot) : ptr :=
  match s with SObj (ATransaction p) => p | _ => NULL end.

(** *** Environment.begin *)

Definition env_begin_spec : list argspec :=
  [mkArgspec ARG_BOOL "buffers"; mkArgspec ARG_BOOL "write"; mkArgspec ARG_TRANS "parent"].
Definition env_begin_defaults : list slot := [SBool false; SBool false; SNull].

Definition env_begin (eng : engine) (self : ptr) (args : list argval)
    (kwds : option (gmap string argval)) : M pyobj :=
  v ← get_valid self;
  match parse_args v env_begin_spec args kwds env_begin_defaults with
  | inl e => throw e
  | inr out =>
      t ← make_trans eng self (slot_trans (out !!! 2%nat)) (slot_bool (out !!! 1%nat))
                     (slot_bool (out !!! 0%nat));
      mret (PyHandle t)
  end.

(** *** Environment() : the argument handling of [env_new] *)

Definition env_new_spec : list argspec :=
  [mkArgspec ARG_STR "path"; mkArgspec ARG_SIZE "map_size"; mkArgspec ARG_BOOL "subdir";
   mkArgspec ARG_BOOL "readonly"; mkArgspec ARG_BOOL "metasync"; mkArgspec ARG_BOOL "sync";
   mkArgspec ARG_BOOL "map_async"; mkArgspec ARG_INT "mode"; mkArgspec ARG_BOOL "create";
   mkArgspec ARG_BOOL "writemap"; mkArgspec ARG_INT "max_readers"; mkArgspec ARG_INT "max_dbs"].

(** [{NULL, 10485760, 1, 0, 1, 1, 0, 0644, 1, 0, 126, 0}] *)
Definition env_new_defaults : list slot :=
  [SNull; SInt 10485760; SBool true; SBool false; SBool true; SBool true; SBool false;
   SInt 420; SBool true; SBool false; SInt 126; SInt 0].

Definition MDB_NOSUBDIR : Z := 16384.      (* 0x4000 *)
Definition MDB_NOSYNC : Z := 65536.        (* 0x10000 *)
Definition MDB_NOMETASYNC : Z := 262144.   (* 0x40000 *)
Definition MDB_WRITEMAP : Z := 524288.     (* 0x80000 *)
Definition MDB_MAPASYNC : Z := 1048576.    (* 0x100000 *)
Definition MDB_NOTLS : Z := 2097152.       (* 0x200000 *)

(** What [env_new] hands to LMDB once its arguments are parsed. *)
Record env_config := mkEnvConfig {
  cfg_path : bytes;            (* mdb_env_open path *)
  cfg_map_size : Z;            (* mdb_env_set_mapsize *)
  cfg_max_readers : Z;         (* mdb_env_set_maxreaders *)
  cfg_max_dbs : Z;             (* mdb_env_set_maxdbs *)
  cfg_mkdir : bool;            (* stat and mkdir(path, 0700) first *)
  cfg_flags : Z;               (* mdb_env_open flags *)
  cfg_mode : Z;                (* mdb_env_open mode *)
  cfg_readonly : bool          (* self->readonly *)
}.

Definition env_new_flags (subdir readonly metasync sync map_async writemap : bool) : Z :=
  let flags := MDB_NOTLS in
  let flags := if negb subdir then Z.lor flags MDB_NOSUBDIR else flags in
  let flags := if readonly then Z.lor flags MDB_RDONLY else flags in
  let flags := if negb metasync then Z.lor flags MDB_NOMETASYNC else flags in
  let flags := if negb sync then Z.lor flags MDB_NOSYNC else flags in
  let flags := if map_async then Z.lor flags MDB_MAPASYNC else flags in
  if writemap then Z.lor flags MDB_WRITEMAP else flags.

Definition env_new_config (args : list argval) (kwds : option (gmap string argval))
    : error + env_config :=
  match parse_args true env_new_spec args kwds env_new_defaults with
  | inl e => inl e
  | inr out =>
      match out !!! 0%nat with
      | SVal path =>
          let subdir := slot_bool (out !!! 2%nat) in
          let readonly := slot_bool (out !!! 3%nat) in
          let create := slot_bool (out !!! 8%nat) in
          inr (mkEnvConfig path (slot_int (out !!! 1%nat)) (slot_int (out !!! 10%nat))
                 (slot_int (out !!! 11%nat)) (create && subdir)
                 (env_new_flags subdir readonly (slot_bool (out !!! 4%nat))
                    (slot_bool (out !!! 5%nat)) (slot_bool (out !!! 6%nat))
                    (slot_bool (out !!! 9%nat)))
                 (slot_int (out !!! 7%nat)) readonly)
      | _ => inl (TypeError "'path' argument required")
      end
  end.

End ArgParse.

(** ** Predicates used by the statements below *)

(** The engine calls that only read: a read-only transaction begin, a
    lookup and a transaction abort. *)
Definition read_call (c : ecall) : Prop :=
  match c with
  | ETxnBegin _ _ f => f = MDB_RDONLY
  | EGet _ _ _ | ETxnAbort _ => True
  | _ => False
  end.

(** A Python bool. *)
Definition is_pybool (x : pyobj) : Prop := exists b, x = PyBool b.

(** Positioning past the last key: [MDB_SET_RANGE] finds nothing, every
    other cursor move lands on the record z -> 1. *)
Definition eng_past_end : engine := {|
  mdb_txn_begin := mdb_txn_begin (eng_rc 0);
  mdb_txn_commit := mdb_txn_commit (eng_rc 0);
  mdb_dbi_open := mdb_dbi_open (eng_rc 0);
  mdb_get := mdb_get (eng_rc 0);
  mdb_put := mdb_put (eng_rc 0);
  mdb_del := mdb_del (eng_rc 0);
  mdb_drop := mdb_drop (eng_rc 0);
  mdb_cursor_open := mdb_cursor_open (eng_rc 0);
  mdb_cursor_get := fun _ _ _ op =>
    match op with
    | MDB_SET_RANGE => (MDB_NOTFOUND, ([], []))
    | _ => (0, ([Byte.x7a], [Byte.x31]))
    end;
  mdb_cursor_put := mdb_cursor_put (eng_rc 0);
  mdb_cursor_del := mdb_cursor_del (eng_rc 0);
  mdb_cursor_count := mdb_cursor_count (eng_rc 0);
  mdb_env_info := mdb_env_info (eng_rc 0);
  mdb_env_stat := mdb_env_stat (eng_rc 0);
  mdb_env_sync := mdb_env_sync (eng_rc 0);
  mdb_env_get_path := mdb_env_get_path (eng_rc 0)
|}.

(** * Proofs *)

(** ** Heap updates *)

Lemma heap_upd_obj p f w q :
  heap (upd_obj p f w) !! q = if decide (p = q) then f <$> heap w !! q else heap w !! q.
Proof.
  unfold upd_obj. destruct (heap w !! p) as [o|] eqn:E; simpl.
  - rewrite lookup_insert. case_decide; subst; [rewrite E|]; reflexivity.
  - case_decide; subst; [rewrite E|]; reflexivity.
Qed.

Lemma upd_obj_next p f w : next_ptr (upd_obj p f w) = next_ptr w.
Proof. unfold upd_obj. destruct (heap w !! p); reflexivity. Qed.

Lemma upd_obj_iters p f w : iters (upd_obj p f w) = iters w.
Proof. unfold upd_obj. destruct (heap w !! p); reflexivity. Qed.

Lemma upd_obj_trace p f w : trace (upd_obj p f w) = trace w.
Proof. unfold upd_obj. destruct (heap w !! p); reflexivity. Qed.

(** ** Validity only decreases, and addresses are not reused *)

Definition persists (w w' : world) : Prop :=
  forall p, heap w !! p <> None ->
    heap w' !! p <> None /\ (valid_at w' p = true -> valid_at w p = true) /\
    kind_at w' p = kind_at w p.

Definition mono_w (f : world -> world) : Prop :=
  forall w, fresh w -> fresh (f w) /\ persists w (f w).

Definition Mono {A} (m : M A) : Prop := mono_w (fun w => (m w).1).

Lemma persists_refl w : persists w w.
Proof. intros p Hp. auto. Qed.

Lemma persists_trans w1 w2 w3 : persists w1 w2 -> persists w2 w3 -> persists w1 w3.
Proof.
  intros H12 H23 p Hp. destruct (H12 p Hp) as (Hp2 & Hv2 & Hk2).
  destruct (H23 p Hp2) as (Hp3 & Hv3 & Hk3). rewrite Hk3. auto.
Qed.

Lemma mono_w_id : mono_w (fun w => w).
Proof. intros w Hw. split; [exact Hw | apply persists_refl]. Qed.

Lemma mono_w_comp f g : mono_w f -> mono_w g -> mono_w (fun w => g (f w)).
Proof.
  intros Hf Hg w Hw. destruct (Hf w Hw) as [Hw1 P1]. destruct (Hg _ Hw1) as [Hw2 P2].
  split; [exact Hw2 | eapply persists_trans; eauto].
Qed.

Lemma mono_w_upd_obj p f : (forall o, valid (f o) = true -> valid o = true) ->
  (forall o, body_kind (obj_body (f o)) = body_kind (obj_body o)) -> mono_w (upd_obj p f).
Proof.
  intros Hf Hfk w Hw. split.
  - intros q Hq. rewrite upd_obj_next in Hq. rewrite upd_obj_iters, heap_upd_obj.
    destruct (Hw q Hq) as [H1 H2]. rewrite H1, H2. case_decide; auto.
  - intros q Hq. unfold valid_at, kind_at. rewrite heap_upd_obj.
    case_decide; [subst|auto]. destruct (heap w !! q) as [o|]; [|congruence].
    simpl. split; [congruence | split; [apply Hf | rewrite Hfk; reflexivity]].
Qed.

Lemma persists_same_heap w w' : heap w' = heap w -> persists w w'.
Proof. intros E p Hp. unfold valid_at, kind_at. rewrite E. auto. Qed.

Lemma mono_w_log c : mono_w (log c).
Proof. intros w Hw. split; [apply Hw | apply persists_same_heap; reflexivity]. Qed.

Lemma mono_w_upd_children p f : mono_w (upd_children p f).
Proof. apply mono_w_upd_obj; [auto | reflexivity]. Qed.

Lemma mono_w_upd_body p f : (forall b, body_kind (f b) = body_kind b) -> mono_w (upd_body p f).
Proof. intros Hf. apply mono_w_upd_obj; auto. intros o. apply Hf. Qed.

Lemma mono_w_set_invalid p : mono_w (set_invalid p).
Proof. apply mono_w_upd_obj; [discriminate | reflexivity]. Qed.

Lemma mono_w_unlink_child t x : mono_w (unlink_child t x).
Proof.
  intros w Hw. unfold unlink_child. destruct (Nat.eqb t NULL).
  - apply mono_w_id; auto.
  - apply mono_w_upd_children; auto.
Qed.

Lemma mono_w_link_child t x : mono_w (link_child t x).
Proof. apply mono_w_upd_children. Qed.

Create HintDb mono.
#[export] Hint Resolve mono_w_log mono_w_upd_children mono_w_upd_body mono_w_set_invalid
  mono_w_unlink_child mono_w_link_child mono_w_id : mono.

(** Case analysis on a world-dependent value, for functions on worlds. *)
Lemma mono_w_case {A} (sel : world -> A) (k : A -> world -> world) :
  (forall a, mono_w (k a)) -> mono_w (fun w => k (sel w) w).
Proof. intros Hk w Hw. apply (Hk (sel w) w Hw). Qed.

Lemma mono_w_fold {A} (l : list A) (f : A -> world -> world) :
  (forall a, mono_w (f a)) -> mono_w (fun w => fold_left (fun w a => f a w) l w).
Proof.
  intros Hf. induction l as [|a l IH]; simpl.
  - apply mono_w_id.
  - intros w Hw. destruct (Hf a w Hw) as [H1 P1]. destruct (IH _ H1) as [H2 P2].
    split; [exact H2 | eapply persists_trans; eauto].
Qed.

Lemma mono_w_invalidate_with clr p : (forall c, mono_w (clr c)) -> mono_w (invalidate_with clr p).
Proof.
  intros Hc w Hw. unfold invalidate_with. destruct (heap w !! p) as [o|].
  - apply (mono_w_fold (children o) clr Hc w Hw).
  - apply mono_w_id; auto.
Qed.

Lemma mono_w_apply f w w0 : mono_w f -> fresh w0 /\ persists w w0 -> fresh (f w0) /\ persists w (f w0).
Proof.
  intros Hf [H0 P0]. destruct (Hf w0 H0) as [H1 P1]. split; [exact H1 | eapply persists_trans; eauto].
Qed.

Ltac mw_step :=
  match goal with
  | |- fresh ?w /\ persists ?w ?w => split; [assumption | apply persists_refl]
  | |- fresh (match ?x with _ => _ end) /\ _ => destruct x eqn:?
  | |- fresh (if ?b then _ else _) /\ _ => destruct b eqn:?
  | |- _ => eapply mono_w_apply; [solve [eauto with mono] | ]
  end.

Ltac mw := intros ?w ?Hw; cbv zeta; repeat mw_step.

Lemma mono_w_set_env_env p v : mono_w (set_env_env p v). Proof. apply mono_w_upd_body. intros []; reflexivity. Qed.
Lemma mono_w_set_env_main_db p v : mono_w (set_env_main_db p v). Proof. apply mono_w_upd_body. intros []; reflexivity. Qed.
Lemma mono_w_set_db_env p v : mono_w (set_db_env p v). Proof. apply mono_w_upd_body. intros []; reflexivity. Qed.
Lemma mono_w_set_trans_env p v : mono_w (set_trans_env p v). Proof. apply mono_w_upd_body. intros []; reflexivity. Qed.
Lemma mono_w_set_trans_txn p v : mono_w (set_trans_txn p v). Proof. apply mono_w_upd_body. intros []; reflexivity. Qed.
Lemma mono_w_set_curs_trans p v : mono_w (set_curs_trans p v). Proof. apply mono_w_upd_body. intros []; reflexivity. Qed.
Lemma mono_w_set_curs_key p k : mono_w (set_curs_key p k). Proof. apply mono_w_upd_body. intros []; reflexivity. Qed.
Lemma mono_w_set_curs_pos p b k v : mono_w (set_curs_pos p b k v). Proof. apply mono_w_upd_body. intros []; reflexivity. Qed.

#[export] Hint Resolve mono_w_set_env_env mono_w_set_env_main_db mono_w_set_db_env
  mono_w_set_trans_env mono_w_set_trans_txn mono_w_set_curs_trans mono_w_set_curs_key
  mono_w_set_curs_pos mono_w_invalidate_with : mono.

Lemma mono_w_db_clear self : mono_w (db_clear self).
Proof. unfold db_clear. mw. Qed.

#[export] Hint Resolve mono_w_db_clear : mono.

Section ClearMono.
Variable inv : ptr -> world -> world.
Hypothesis Hinv : forall p, mono_w (inv p).

Lemma mono_w_env_clear self : mono_w (env_clear inv self).
Proof. unfold env_clear. mw. Qed.

Lemma mono_w_trans_clear self : mono_w (trans_clear inv self).
Proof. unfold trans_clear. mw. Qed.

Lemma mono_w_cursor_clear self : mono_w (cursor_clear inv self).
Proof. unfold cursor_clear. mw. Qed.

End ClearMono.

#[export] Hint Resolve mono_w_env_clear mono_w_trans_clear mono_w_cursor_clear : mono.

Lemma mono_w_tp_clear n : forall self, mono_w (tp_clear n self).
Proof.
  induction n as [|n IH]; intros self; simpl.
  - apply mono_w_id.
  - mw.
Qed.

#[export] Hint Resolve mono_w_tp_clear : mono.

Lemma mono_w_invalidate p : mono_w (invalidate p).
Proof. unfold invalidate. eauto with mono. Qed.

#[export] Hint Resolve mono_w_invalidate : mono.

(** ** The same for every monadic step *)

Lemma Mono_ret {A} (a : A) : Mono (mret a).
Proof. apply mono_w_id. Qed.

Lemma Mono_throw {A} e : Mono (@throw A e).
Proof. apply mono_w_id. Qed.

Lemma Mono_bind {A B} (m : M A) (k : A -> M B) :
  Mono m -> (forall a, Mono (k a)) -> Mono (mbind k m).
Proof.
  intros Hm Hk w Hw. destruct (Hm w Hw) as [H1 P1].
  change (mbind k m w) with (match m w with (w', inl e) => (w', inl e) | (w', inr a) => k a w' end).
  destruct (m w) as [w1 [e|a]]; simpl in *.
  - auto.
  - destruct (Hk a w1 H1) as [H2 P2]. split; [exact H2 | eapply persists_trans; eauto].
Qed.

Lemma Mono_lift f : mono_w f -> Mono (lift f).
Proof. intros Hf w Hw. apply (Hf w Hw). Qed.

Lemma Mono_call {A} c (f : list ecall -> A) : Mono (call c f).
Proof. intros w Hw. apply (mono_w_log c w Hw). Qed.

Lemma Mono_get_obj p : Mono (get_obj p).
Proof. intros w Hw. unfold get_obj. destruct (heap w !! p); apply mono_w_id; auto. Qed.
Lemma Mono_get_env p : Mono (get_env p).
Proof. intros w Hw. unfold get_env. destruct (env_at w p); apply mono_w_id; auto. Qed.
Lemma Mono_get_db p : Mono (get_db p).
Proof. intros w Hw. unfold get_db. destruct (db_at w p); apply mono_w_id; auto. Qed.
Lemma Mono_get_trans p : Mono (get_trans p).
Proof. intros w Hw. unfold get_trans. destruct (trans_at w p); apply mono_w_id; auto. Qed.
Lemma Mono_get_cursor p : Mono (get_cursor p).
Proof. intros w Hw. unfold get_cursor. destruct (cursor_at w p); apply mono_w_id; auto. Qed.
Lemma Mono_get_iter p : Mono (get_iter p).
Proof. intros w Hw. unfold get_iter. destruct (iters w !! p); apply mono_w_id; auto. Qed.

Lemma Mono_attempt {A} (m : M A) : Mono m -> Mono (attempt m).
Proof. intros Hm w Hw. unfold attempt. destruct (m w) eqn:E. apply (f_equal fst) in E. simpl in E.
  rewrite <- E. apply Hm; auto. Qed.

Lemma Mono_of_result {A} (r : error + A) : Mono (of_result r).
Proof. destruct r; apply mono_w_id. Qed.

Lemma Mono_alloc b : Mono (alloc b).
Proof.
  intros w Hw. simpl. split.
  - intros q Hq. simpl in Hq. simpl. rewrite lookup_insert.
    case_decide; [lia|]. apply Hw. lia.
  - intros q Hq. unfold valid_at, kind_at. simpl. rewrite lookup_insert. case_decide; [subst|auto].
    exfalso. apply Hq. apply Hw. lia.
Qed.

Lemma Mono_alloc_iter i : Mono (alloc_iter i).
Proof.
  intros w Hw. simpl. split.
  - intros q Hq. simpl in Hq. simpl. rewrite lookup_insert.
    case_decide; [lia|]. apply Hw. lia.
  - apply persists_same_heap. reflexivity.
Qed.

Lemma Mono_set_iter_started p : Mono (set_iter_started p).
Proof.
  intros w Hw. unfold set_iter_started. destruct (iters w !! p) eqn:E; simpl.
  - split; [|apply persists_same_heap; reflexivity].
    intros q Hq. simpl in Hq. simpl. rewrite lookup_insert. case_decide; [subst|apply Hw; lia].
    destruct (Hw q Hq) as [_ H]. congruence.
  - apply mono_w_id; auto.
Qed.

#[export] Hint Resolve Mono_ret Mono_throw Mono_call Mono_get_obj Mono_get_env Mono_get_db
  Mono_get_trans Mono_get_cursor Mono_get_iter Mono_of_result Mono_alloc Mono_alloc_iter
  Mono_set_iter_started : mono.

Ltac mono_step :=
  match goal with
  | |- Mono (mbind _ _) => apply Mono_bind; [ | intros ?; cbv beta]
  | |- Mono (lift _) => apply Mono_lift
  | |- Mono (attempt _) => apply Mono_attempt
  | |- Mono (match ?x with _ => _ end) => destruct x
  | |- Mono (if ?b then _ else _) => destruct b
  | |- _ => solve [eauto with mono]
  end.

Ltac mono := intros; cbv zeta; repeat mono_step.

Lemma Mono_get_valid p : Mono (get_valid p).
Proof. unfold get_valid. mono. Qed.
Lemma Mono_check_valid p : Mono (check_valid p).
Proof. unfold check_valid. mono. Qed.
Lemma Mono_parse_args v : Mono (parse_args v).
Proof. unfold parse_args. mono. Qed.
Lemma Mono_err_set {A} w r : Mono (@err_set A w r).
Proof. apply Mono_throw. Qed.
Lemma Mono_val_from_buffer x : Mono (val_from_buffer x).
Proof. unfold val_from_buffer. mono. Qed.

#[export] Hint Resolve Mono_get_valid Mono_check_valid Mono_parse_args Mono_err_set
  Mono_val_from_buffer : mono.

(** Every method keeps addresses fresh and never revalidates a handle. *)

Lemma Mono_generic_get eng v txn db buffers a : Mono (generic_get eng v txn db buffers a).
Proof. unfold generic_get. mono. Qed.
#[export] Hint Resolve Mono_generic_get : mono.

Lemma Mono_generic_put eng v txn db a : Mono (generic_put eng v txn db a).
Proof. unfold generic_put. mono. Qed.
#[export] Hint Resolve Mono_generic_put : mono.

Lemma Mono_generic_delete eng v txn db a : Mono (generic_delete eng v txn db a).
Proof. unfold generic_delete. mono. Qed.
#[export] Hint Resolve Mono_generic_delete : mono.

Lemma Mono_make_trans eng env parent write buffers : Mono (make_trans eng env parent write buffers).
Proof. unfold make_trans. mono. Qed.
#[export] Hint Resolve Mono_make_trans : mono.

Lemma Mono_make_cursor eng db trans : Mono (make_cursor eng db trans).
Proof. unfold make_cursor. mono. Qed.
#[export] Hint Resolve Mono_make_cursor : mono.

Lemma Mono_db_from_name eng env txn name flags : Mono (db_from_name eng env txn name flags).
Proof. unfold db_from_name. mono. Qed.
#[export] Hint Resolve Mono_db_from_name : mono.

Lemma Mono_txn_db_from_name eng env name flags : Mono (txn_db_from_name eng env name flags).
Proof. unfold txn_db_from_name. mono. Qed.
#[export] Hint Resolve Mono_txn_db_from_name : mono.

Lemma Mono_env_begin eng self a : Mono (env_begin eng self a).
Proof. unfold env_begin. mono. Qed.
#[export] Hint Resolve Mono_env_begin : mono.

Lemma Mono_env_close self : Mono (env_close self).
Proof. unfold env_close. mono. Qed.
#[export] Hint Resolve Mono_env_close : mono.

Lemma Mono_env_copy self : Mono (env_copy self).
Proof. unfold env_copy. mono. Qed.
#[export] Hint Resolve Mono_env_copy : mono.

Lemma Mono_env_info eng self : Mono (env_info eng self).
Proof. unfold env_info. mono. Qed.
#[export] Hint Resolve Mono_env_info : mono.

Lemma Mono_env_open_db eng self a : Mono (env_open_db eng self a).
Proof. unfold env_open_db. mono. Qed.
#[export] Hint Resolve Mono_env_open_db : mono.

Lemma Mono_env_path eng self : Mono (env_path eng self).
Proof. unfold env_path. mono. Qed.
#[export] Hint Resolve Mono_env_path : mono.

Lemma Mono_env_stat eng self : Mono (env_stat eng self).
Proof. unfold env_stat. mono. Qed.
#[export] Hint Resolve Mono_env_stat : mono.

Lemma Mono_env_sync eng self force : Mono (env_sync eng self force).
Proof. unfold env_sync. mono. Qed.
#[export] Hint Resolve Mono_env_sync : mono.

Lemma Mono_env_get eng self a : Mono (env_get eng self a).
Proof. unfold env_get. mono. Qed.
#[export] Hint Resolve Mono_env_get : mono.

Lemma Mono_gets_loop eng txn dbi keys : forall dict, Mono (gets_loop eng txn dbi keys dict).
Proof. induction keys as [|[k|n] keys IH]; simpl; mono. Qed.
#[export] Hint Resolve Mono_gets_loop : mono.

Lemma Mono_env_gets eng self keys db : Mono (env_gets eng self keys db).
Proof. unfold env_gets. mono. Qed.
#[export] Hint Resolve Mono_env_gets : mono.

Lemma Mono_env_put eng self a : Mono (env_put eng self a).
Proof. unfold env_put. mono. Qed.
#[export] Hint Resolve Mono_env_put : mono.

Lemma Mono_puts_loop eng txn db flags items : forall lst, Mono (puts_loop eng txn db flags items lst).
Proof. induction items as [|[k v| |n] items IH]; simpl; mono. Qed.
#[export] Hint Resolve Mono_puts_loop : mono.

Lemma Mono_env_puts eng self items dupdata overwrite append db : Mono (env_puts eng self items dupdata overwrite append db).
Proof. unfold env_puts. mono. Qed.
#[export] Hint Resolve Mono_env_puts : mono.

Lemma Mono_env_delete eng self a : Mono (env_delete eng self a).
Proof. unfold env_delete. mono. Qed.
#[export] Hint Resolve Mono_env_delete : mono.

Lemma Mono_deletes_loop eng txn db keys : forall lst, Mono (deletes_loop eng txn db keys lst).
Proof. induction keys as [|[k|n] keys IH]; simpl; mono. Qed.
#[export] Hint Resolve Mono_deletes_loop : mono.

Lemma Mono_env_deletes eng self keys db : Mono (env_deletes eng self keys db).
Proof. unfold env_deletes. mono. Qed.
#[export] Hint Resolve Mono_env_deletes : mono.

Lemma Mono_env_cursor eng self buffers db : Mono (env_cursor eng self buffers db).
Proof. unfold env_cursor. mono. Qed.
#[export] Hint Resolve Mono_env_cursor : mono.

Lemma Mono_trans_abort self : Mono (trans_abort self).
Proof. unfold trans_abort. mono. Qed.
#[export] Hint Resolve Mono_trans_abort : mono.

Lemma Mono_trans_commit eng self : Mono (trans_commit eng self).
Proof. unfold trans_commit. mono. Qed.
#[export] Hint Resolve Mono_trans_commit : mono.

Lemma Mono_trans_enter self : Mono (trans_enter self).
Proof. unfold trans_enter. mono. Qed.
#[export] Hint Resolve Mono_trans_enter : mono.

Lemma Mono_trans_exit eng self exc_none : Mono (trans_exit eng self exc_none).
Proof. unfold trans_exit. mono. Qed.
#[export] Hint Resolve Mono_trans_exit : mono.

Lemma Mono_trans_cursor eng self db : Mono (trans_cursor eng self db).
Proof. unfold trans_cursor. mono. Qed.
#[export] Hint Resolve Mono_trans_cursor : mono.

Lemma Mono_trans_delete eng self a : Mono (trans_delete eng self a).
Proof. unfold trans_delete. mono. Qed.
#[export] Hint Resolve Mono_trans_delete : mono.

Lemma Mono_trans_drop eng self db delete : Mono (trans_drop eng self db delete).
Proof. unfold trans_drop. mono. Qed.
#[export] Hint Resolve Mono_trans_drop : mono.

Lemma Mono_trans_get eng self a : Mono (trans_get eng self a).
Proof. unfold trans_get. mono. Qed.
#[export] Hint Resolve Mono_trans_get : mono.

Lemma Mono_trans_put eng self a : Mono (trans_put eng self a).
Proof. unfold trans_put. mono. Qed.
#[export] Hint Resolve Mono_trans_put : mono.

Lemma Mono_trans_new eng a : Mono (trans_new eng a).
Proof. unfold trans_new. mono. Qed.
#[export] Hint Resolve Mono_trans_new : mono.

Lemma Mono_u_cursor_get_c eng self op : Mono (_cursor_get_c eng self op).
Proof. unfold _cursor_get_c. mono. Qed.
#[export] Hint Resolve Mono_u_cursor_get_c : mono.

Lemma Mono_u_cursor_get eng self op : Mono (_cursor_get eng self op).
Proof. unfold _cursor_get. mono. Qed.
#[export] Hint Resolve Mono_u_cursor_get : mono.

Lemma Mono_cursor_count eng self : Mono (cursor_count eng self).
Proof. unfold cursor_count. mono. Qed.
#[export] Hint Resolve Mono_cursor_count : mono.

Lemma Mono_cursor_delete eng self : Mono (cursor_delete eng self).
Proof. unfold cursor_delete. mono. Qed.
#[export] Hint Resolve Mono_cursor_delete : mono.

Lemma Mono_cursor_first eng self : Mono (cursor_first eng self).
Proof. unfold cursor_first. mono. Qed.
#[export] Hint Resolve Mono_cursor_first : mono.

Lemma Mono_cursor_last eng self : Mono (cursor_last eng self).
Proof. unfold cursor_last. mono. Qed.
#[export] Hint Resolve Mono_cursor_last : mono.

Lemma Mono_cursor_next eng self : Mono (cursor_next eng self).
Proof. unfold cursor_next. mono. Qed.
#[export] Hint Resolve Mono_cursor_next : mono.

Lemma Mono_cursor_prev eng self : Mono (cursor_prev eng self).
Proof. unfold cursor_prev. mono. Qed.
#[export] Hint Resolve Mono_cursor_prev : mono.

Lemma Mono_cursor_key self : Mono (cursor_key self).
Proof. unfold cursor_key. mono. Qed.
#[export] Hint Resolve Mono_cursor_key : mono.

Lemma Mono_cursor_value self : Mono (cursor_value self).
Proof. unfold cursor_value. mono. Qed.
#[export] Hint Resolve Mono_cursor_value : mono.

Lemma Mono_cursor_item self : Mono (cursor_item self).
Proof. unfold cursor_item. mono. Qed.
#[export] Hint Resolve Mono_cursor_item : mono.

Lemma Mono_cursor_get eng self key default_ : Mono (cursor_get eng self key default_).
Proof. unfold cursor_get. mono. Qed.
#[export] Hint Resolve Mono_cursor_get : mono.

Lemma Mono_cursor_put eng self a : Mono (cursor_put eng self a).
Proof. unfold cursor_put. mono. Qed.
#[export] Hint Resolve Mono_cursor_put : mono.

Lemma Mono_cursor_set_key eng self arg : Mono (cursor_set_key eng self arg).
Proof. unfold cursor_set_key. mono. Qed.
#[export] Hint Resolve Mono_cursor_set_key : mono.

Lemma Mono_cursor_set_range eng self arg : Mono (cursor_set_range eng self arg).
Proof. unfold cursor_set_range. mono. Qed.
#[export] Hint Resolve Mono_cursor_set_range : mono.

Lemma Mono_iter_from_args eng self keys values pos_op op : Mono (iter_from_args eng self keys values pos_op op).
Proof. unfold iter_from_args. mono. Qed.
#[export] Hint Resolve Mono_iter_from_args : mono.

Lemma Mono_cursor_iter eng self : Mono (cursor_iter eng self).
Proof. unfold cursor_iter. mono. Qed.
#[export] Hint Resolve Mono_cursor_iter : mono.

Lemma Mono_cursor_iternext eng self keys values : Mono (cursor_iternext eng self keys values).
Proof. unfold cursor_iternext. mono. Qed.
#[export] Hint Resolve Mono_cursor_iternext : mono.

Lemma Mono_cursor_iterprev eng self keys values : Mono (cursor_iterprev eng self keys values).
Proof. unfold cursor_iterprev. mono. Qed.
#[export] Hint Resolve Mono_cursor_iterprev : mono.

Lemma Mono_cursor_iter_from eng self key reverse : Mono (cursor_iter_from eng self key reverse).
Proof. unfold cursor_iter_from. mono. Qed.
#[export] Hint Resolve Mono_cursor_iter_from : mono.

Lemma Mono_cursor_new eng db trans : Mono (cursor_new eng db trans).
Proof. unfold cursor_new. mono. Qed.
#[export] Hint Resolve Mono_cursor_new : mono.

Lemma Mono_call_val_func f curs : Mono (call_val_func f curs).
Proof. unfold call_val_func. mono. Qed.
#[export] Hint Resolve Mono_call_val_func : mono.

Lemma Mono_iter_yield self it : Mono (iter_yield self it).
Proof. unfold iter_yield. mono. Qed.
#[export] Hint Resolve Mono_iter_yield : mono.

Lemma Mono_iter_next eng self : Mono (iter_next eng self).
Proof. unfold iter_next. mono. Qed.
#[export] Hint Resolve Mono_iter_next : mono.

Lemma Mono_returning m : Mono m -> Mono (returning m).
Proof. intros. unfold returning. mono. Qed.
#[export] Hint Resolve Mono_returning : mono.

Lemma Mono_run_op eng o : Mono (run_op eng o).
Proof. unfold run_op. destruct o; eauto with mono. Qed.

#[export] Hint Resolve Mono_run_op : mono.

Lemma mono_w_run_ops eng os : mono_w (run_ops eng os).
Proof.
  induction os as [|o os IH]; simpl; [apply mono_w_id|].
  intros w Hw. destruct (Mono_run_op eng o w Hw) as [H1 P1]. destruct (IH _ H1) as [H2 P2].
  split; [exact H2 | eapply persists_trans; eauto].
Qed.

(** ** What [tp_clear] does to the tree

    [Rel w w']: handles keep their type, validity only decreases, child
    lists only shrink and lose only invalid handles, and a handle that goes
    from valid to invalid leaves all its children (as listed before) invalid. *)

Record Rel (w w' : world) : Prop := {
  rel_kind : forall p, kind_at w' p = kind_at w p;
  rel_valid : forall p, valid_at w' p = true -> valid_at w p = true;
  rel_sub : forall p c, c ∈ ch w' p -> c ∈ ch w p;
  rel_kept : forall p c, c ∈ ch w p -> c ∈ ch w' p \/ valid_at w' c = false;
  rel_dead : forall p c, valid_at w p = true -> valid_at w' p = false -> c ∈ ch w p ->
             valid_at w' c = false
}.

Lemma rel_invalid w w' p : Rel w w' -> valid_at w p = false -> valid_at w' p = false.
Proof. intros HR Hp. destruct (valid_at w' p) eqn:E; auto. apply (rel_valid _ _ HR) in E. congruence. Qed.

Lemma Rel_refl w : Rel w w.
Proof. split; auto. intros p c Hp Hp'. congruence. Qed.

Lemma Rel_trans w1 w2 w3 : Rel w1 w2 -> Rel w2 w3 -> Rel w1 w3.
Proof.
  intros A B. split.
  - intros p. rewrite (rel_kind _ _ B), (rel_kind _ _ A). reflexivity.
  - intros p H. apply (rel_valid _ _ A), (rel_valid _ _ B), H.
  - intros p c H. apply (rel_sub _ _ A), (rel_sub _ _ B), H.
  - intros p c H. destruct (rel_kept _ _ A p c H) as [H2|H2].
    + apply (rel_kept _ _ B p c H2).
    + right. eapply rel_invalid; eauto.
  - intros p c H1 H3 Hc. destruct (valid_at w2 p) eqn:E2.
    + destruct (rel_kept _ _ A p c Hc) as [H2|H2].
      * apply (rel_dead _ _ B p c E2 H3 H2).
      * eapply rel_invalid; eauto.
    + eapply rel_invalid; [exact B|]. apply (rel_dead _ _ A p c H1 E2 Hc).
Qed.

Lemma Rel_same_heap w w' : heap w' = heap w -> Rel w w'.
Proof.
  intros E. split; unfold kind_at, valid_at, ch; rewrite ?E; auto.
  intros p c Hp Hp'. congruence.
Qed.

Lemma Rel_log c w : Rel w (log c w).
Proof. apply Rel_same_heap. reflexivity. Qed.

Lemma Rel_upd_obj p f w :
  (forall o, body_kind (obj_body (f o)) = body_kind (obj_body o)) ->
  (forall o, valid (f o) = true -> valid o = true) ->
  (forall o c, c ∈ children (f o) -> c ∈ children o) ->
  (forall o c, heap w !! p = Some o -> c ∈ children o ->
     c ∈ children (f o) \/ valid_at (upd_obj p f w) c = false) ->
  (forall o c, heap w !! p = Some o -> valid o = true -> valid (f o) = false ->
     c ∈ children o -> valid_at (upd_obj p f w) c = false) ->
  Rel w (upd_obj p f w).
Proof.
  intros Hk Hv Hs Hkept Hdead. split.
  - intros q. unfold kind_at. rewrite heap_upd_obj. case_decide; [subst|reflexivity].
    destruct (heap w !! q); simpl; [rewrite Hk|]; reflexivity.
  - intros q. unfold valid_at. rewrite heap_upd_obj. case_decide; [subst|auto].
    destruct (heap w !! q); simpl; auto.
  - intros q c. unfold ch. rewrite heap_upd_obj. case_decide; [subst|auto].
    destruct (heap w !! q); simpl; auto.
  - intros q c. unfold ch at 1. destruct (heap w !! q) as [o|] eqn:E; [|intros Hc; inversion Hc].
    intros Hc. unfold ch. rewrite heap_upd_obj. case_decide; [subst|rewrite E; auto].
    rewrite E. simpl. apply (Hkept o c E Hc).
  - intros q c. unfold valid_at at 1 2, ch. rewrite heap_upd_obj.
    case_decide; [subst|intros; congruence].
    destruct (heap w !! q) as [o|] eqn:E; simpl; [|discriminate].
    intros H1 H2 Hc. eapply Hdead; eauto.
Qed.

Lemma Rel_upd_body p F w : (forall b, body_kind (F b) = body_kind b) -> Rel w (upd_body p F w).
Proof.
  intros HF. apply Rel_upd_obj; simpl.
  - intros o. apply HF.
  - auto.
  - auto.
  - auto.
  - congruence.
Qed.

Lemma Rel_set_invalid x w :
  (forall c, c ∈ ch w x -> valid_at w c = false) -> Rel w (set_invalid x w).
Proof.
  intros Hc. apply Rel_upd_obj; simpl.
  - auto.
  - discriminate.
  - auto.
  - auto.
  - intros o c E _ _ Hin. unfold valid_at. rewrite heap_upd_obj.
    case_decide; [subst; rewrite E; reflexivity|].
    specialize (Hc c). unfold ch in Hc. rewrite E in Hc. apply Hc, Hin.
Qed.

Lemma remove_first_sub x y l : x ∈ remove_first y l -> x ∈ l.
Proof.
  induction l as [|z l IH]; simpl; [auto|].
  destruct (Nat.eqb y z); [intros; right; auto|].
  intros H. inversion H; subst; [left|right; auto].
Qed.

Lemma remove_first_kept x y l : x ∈ l -> x ∈ remove_first y l \/ x = y.
Proof.
  induction l as [|z l IH]; simpl; intros H; [inversion H|].
  destruct (Nat.eqb y z) eqn:E.
  - apply Nat.eqb_eq in E. subst. inversion H; subst; auto.
  - inversion H; subst; [left; left|].
    destruct (IH ltac:(assumption)); [left; right|right]; auto.
Qed.

Lemma Rel_unlink_child t x w : valid_at w x = false -> Rel w (unlink_child t x w).
Proof.
  intros Hx. unfold unlink_child. destruct (Nat.eqb t NULL); [apply Rel_refl|].
  apply Rel_upd_obj; simpl.
  - auto.
  - auto.
  - intros o c. apply remove_first_sub.
  - intros o c _ Hin. destruct (remove_first_kept c x _ Hin) as [H|H]; [left; exact H|right; subst].
    unfold valid_at. rewrite heap_upd_obj. unfold valid_at in Hx.
    case_decide; [subst|exact Hx].
    match goal with |- context [heap w !! ?k] => destruct (heap w !! k) end; simpl; auto.
  - congruence.
Qed.

Lemma world_ext w1 w2 :
  heap w1 = heap w2 -> iters w1 = iters w2 -> next_ptr w1 = next_ptr w2 -> trace w1 = trace w2 ->
  w1 = w2.
Proof. destruct w1, w2; simpl; intros; subst; reflexivity. Qed.

Lemma upd_obj_comm p q f g w :
  (forall o, f (g o) = g (f o)) -> upd_obj p f (upd_obj q g w) = upd_obj q g (upd_obj p f w).
Proof.
  intros Hfg. apply world_ext; rewrite ?upd_obj_iters, ?upd_obj_next, ?upd_obj_trace; try reflexivity.
  apply map_eq. intros r. rewrite !heap_upd_obj.
  repeat case_decide; subst; try congruence; destruct (heap w !! r); simpl; rewrite ?Hfg; reflexivity.
Qed.

Lemma upd_obj_log p f c w : upd_obj p f (log c w) = log c (upd_obj p f w).
Proof. unfold upd_obj, log, set_heap. simpl. destruct (heap w !! p); reflexivity. Qed.

Lemma set_invalid_unlink x t y w :
  set_invalid x (unlink_child t y w) = unlink_child t y (set_invalid x w).
Proof.
  unfold unlink_child. destruct (Nat.eqb t NULL); [reflexivity|].
  apply upd_obj_comm. reflexivity.
Qed.

Lemma set_invalid_db_env x y v w : set_invalid x (set_db_env y v w) = set_db_env y v (set_invalid x w).
Proof. apply upd_obj_comm. reflexivity. Qed.

Lemma valid_at_set_invalid x w : valid_at (set_invalid x w) x = false.
Proof.
  unfold valid_at, set_invalid. rewrite heap_upd_obj. rewrite decide_True by reflexivity.
  destruct (heap w !! x); reflexivity.
Qed.

Lemma kind_env_at w p : kind_at w p = Some KEnv -> exists e, env_at w p = Some e.
Proof. unfold kind_at, env_at. destruct (heap w !! p) as [[? ? []]|]; simpl; intros H; inversion H; eauto. Qed.
Lemma kind_db_at w p : kind_at w p = Some KDb -> exists d, db_at w p = Some d.
Proof. unfold kind_at, db_at. destruct (heap w !! p) as [[? ? []]|]; simpl; intros H; inversion H; eauto. Qed.
Lemma kind_trans_at w p : kind_at w p = Some KTrans -> exists t, trans_at w p = Some t.
Proof. unfold kind_at, trans_at. destruct (heap w !! p) as [[? ? []]|]; simpl; intros H; inversion H; eauto. Qed.
Lemma kind_cursor_at w p : kind_at w p = Some KCursor -> exists c, cursor_at w p = Some c.
Proof. unfold kind_at, cursor_at. destruct (heap w !! p) as [[? ? []]|]; simpl; intros H; inversion H; eauto. Qed.

Lemma Rel_well_ranked w w' : Rel w w' -> well_ranked w -> well_ranked w'.
Proof.
  intros R Hw p c Hc. rewrite !(rel_kind _ _ R). apply Hw. apply (rel_sub _ _ R _ _ Hc).
Qed.

Lemma rank_not_env k n : (rank k < n)%nat -> (n <= 2)%nat -> k <> KEnv.
Proof. intros H1 H2 ->. simpl in H1. lia. Qed.

Section FoldClear.
Variable m : nat.
Hypothesis IH : forall x w, well_ranked w -> (forall k, kind_at w x = Some k -> (rank k < m)%nat) ->
  Rel w (tp_clear m x w) /\ (kind_at w x <> Some KEnv -> valid_at (tp_clear m x w) x = false).

Lemma fold_clear_rel L : forall w, well_ranked w ->
  (forall c k, c ∈ L -> kind_at w c = Some k -> (rank k < m)%nat) ->
  Rel w (fold_left (fun w c => tp_clear m c w) L w) /\
  (forall c, c ∈ L -> kind_at w c <> Some KEnv ->
     valid_at (fold_left (fun w c => tp_clear m c w) L w) c = false).
Proof.
  induction L as [|c L IHL]; simpl; intros w Hw Hr.
  - split; [apply Rel_refl| intros c Hc; inversion Hc].
  - destruct (IH c w Hw) as [R1 V1]. { intros k Hk. apply (Hr c k); [left|exact Hk]. }
    assert (Hw1 : well_ranked (tp_clear m c w)) by (eapply Rel_well_ranked; eauto).
    destruct (IHL _ Hw1) as [R2 V2].
    { intros c' k Hc' Hk. rewrite (rel_kind _ _ R1) in Hk. apply (Hr c' k); [right; exact Hc'|exact Hk]. }
    split; [eapply Rel_trans; eauto|].
    intros c' Hc' Hk. apply elem_of_cons in Hc' as [->|Hc'].
    + eapply rel_invalid; [exact R2| apply V1; exact Hk].
    + apply V2; [exact Hc'|]. rewrite (rel_kind _ _ R1). exact Hk.
Qed.

(** [invalidate_with (tp_clear m) x] leaves every listed child of [x] that
    is not an environment invalid. *)
Lemma invalidate_rel x w kx : well_ranked w -> kind_at w x = Some kx -> (rank kx <= m)%nat ->
  (rank kx <= 2)%nat ->
  Rel w (invalidate_with (tp_clear m) x w) /\
  (forall c, c ∈ ch w x -> valid_at (invalidate_with (tp_clear m) x w) c = false).
Proof.
  intros Hw Hx Hm H2. unfold invalidate_with. unfold ch.
  destruct (heap w !! x) as [o|] eqn:E.
  - destruct (fold_clear_rel (children o) w Hw) as [R V].
    + intros c k Hc Hk. destruct (Hw x c) as (kp & kc & Hp & Hc' & Hlt).
      { unfold ch. rewrite E. exact Hc. }
      rewrite Hx in Hp. injection Hp as <-. rewrite Hk in Hc'. injection Hc' as <-. lia.
    + split; [exact R|]. intros c Hc. apply V; [exact Hc|].
      destruct (Hw x c) as (kp & kc & Hp & Hc' & Hlt). { unfold ch. rewrite E. exact Hc. }
      rewrite Hc'. rewrite Hx in Hp. injection Hp as <-. intros [=]. subst. simpl in Hlt. lia.
  - split; [apply Rel_refl|]. intros c Hc. inversion Hc.
Qed.

End FoldClear.

Lemma set_invalid_log x c w : set_invalid x (log c w) = log c (set_invalid x w).
Proof. apply upd_obj_log. Qed.

Lemma Rel_apply f w X : Rel w X -> Rel X (f X) -> Rel w (f X).
Proof. apply Rel_trans. Qed.

Lemma Rel_set_env_env p v w : Rel w (set_env_env p v w).
Proof. apply Rel_upd_body. intros []; reflexivity. Qed.
Lemma Rel_set_env_main_db p v w : Rel w (set_env_main_db p v w).
Proof. apply Rel_upd_body. intros []; reflexivity. Qed.
Lemma Rel_set_db_env p v w : Rel w (set_db_env p v w).
Proof. apply Rel_upd_body. intros []; reflexivity. Qed.
Lemma Rel_set_trans_env p v w : Rel w (set_trans_env p v w).
Proof. apply Rel_upd_body. intros []; reflexivity. Qed.
Lemma Rel_set_trans_txn p v w : Rel w (set_trans_txn p v w).
Proof. apply Rel_upd_body. intros []; reflexivity. Qed.
Lemma Rel_set_curs_trans p v w : Rel w (set_curs_trans p v w).
Proof. apply Rel_upd_body. intros []; reflexivity. Qed.
Lemma Rel_set_curs_key p k w : Rel w (set_curs_key p k w).
Proof. apply Rel_upd_body. intros []; reflexivity. Qed.
Lemma Rel_set_curs_pos p b k v w : Rel w (set_curs_pos p b k v w).
Proof. apply Rel_upd_body. intros []; reflexivity. Qed.

Create HintDb rel.
#[export] Hint Resolve Rel_log Rel_set_env_env Rel_set_env_main_db Rel_set_db_env Rel_set_trans_env
  Rel_set_trans_txn Rel_set_curs_trans Rel_set_curs_key Rel_set_curs_pos : rel.

Ltac rel_step :=
  match goal with
  | |- Rel ?w ?w => apply Rel_refl
  | |- Rel _ (match ?x with _ => _ end) => destruct x eqn:?
  | |- Rel _ (if ?b then _ else _) => destruct b eqn:?
  | |- _ => eapply Rel_apply; [ | solve [eauto with rel] ]
  end.

Lemma set_invalid_after w W x :
  Rel w W -> (forall c, c ∈ ch w x -> valid_at W c = false) -> Rel w (set_invalid x W).
Proof.
  intros R H. eapply Rel_apply; [exact R|]. apply Rel_set_invalid.
  intros c Hc. apply H. eapply rel_sub; eauto.
Qed.

Lemma leaf_no_children w x k c :
  well_ranked w -> kind_at w x = Some k -> rank k = 0%nat -> c ∈ ch w x -> False.
Proof.
  intros Hw Hx Hr Hc. destruct (Hw x c Hc) as (kp & kc & Hp & _ & Hlt). congruence || (rewrite Hx in Hp;
  injection Hp as <-; lia).
Qed.

Lemma valid_at_false_of w x o : heap w !! x = Some o -> valid o = false -> valid_at w x = false.
Proof. intros E Hv. unfold valid_at. rewrite E. exact Hv. Qed.

(** [tp_clear n x] keeps [Rel] and invalidates [x], given enough fuel for
    the level of [x]. *)
Lemma tp_clear_rel n : forall x w, well_ranked w ->
  (forall k, kind_at w x = Some k -> (rank k < n)%nat) ->
  Rel w (tp_clear n x w) /\ (kind_at w x <> Some KEnv -> valid_at (tp_clear n x w) x = false).
Proof.
  induction n as [|m IH]; intros x w Hw Hr.
  - simpl. split; [apply Rel_refl|]. intros _. unfold valid_at.
    destruct (heap w !! x) as [o|] eqn:E; [|reflexivity].
    assert (Hk : kind_at w x = Some (body_kind (obj_body o))) by (unfold kind_at; rewrite E; reflexivity).
    specialize (Hr _ Hk). lia.
  - cbn [tp_clear]. destruct (heap w !! x) as [o|] eqn:Hx;
      [|split; [apply Rel_refl| intros; unfold valid_at; rewrite Hx; reflexivity]].
    assert (Hk : kind_at w x = Some (body_kind (obj_body o))) by (unfold kind_at; rewrite Hx; reflexivity).
    pose proof (Hr _ Hk) as Hrk.
    destruct (invalidate_rel m IH x w _ Hw Hk ltac:(lia) ltac:(destruct (obj_body o); simpl; lia))
      as [Rinv Vinv].
    set (W1 := invalidate_with (tp_clear m) x w) in *.
    destruct o as [chl v b]. destruct b as [e|d|t|c]; simpl in Hk, Hrk |- *.
    + (* environment *)
      split; [|congruence].
      unfold env_clear. assert (E : env_at w x = Some e) by (unfold env_at; rewrite Hx; reflexivity).
      rewrite E. repeat rel_step.
    + (* database *)
      split.
      * unfold db_clear. assert (E : db_at w x = Some d) by (unfold db_at; rewrite Hx; reflexivity).
        rewrite E. destruct (Nat.eqb (db_env d) NULL).
        -- apply set_invalid_after; [apply Rel_refl|]. intros c Hc. exfalso.
           eapply leaf_no_children; eauto; reflexivity.
        -- rewrite set_invalid_db_env, set_invalid_unlink.
           eapply Rel_apply; [|apply Rel_set_db_env].
           eapply Rel_apply; [|apply Rel_unlink_child; apply valid_at_set_invalid].
           apply set_invalid_after; [apply Rel_refl|]. intros c Hc. exfalso.
           eapply leaf_no_children; eauto; reflexivity.
      * intros _. unfold db_clear. assert (E : db_at w x = Some d) by (unfold db_at; rewrite Hx; reflexivity).
        rewrite E. destruct (Nat.eqb (db_env d) NULL); apply valid_at_set_invalid.
    + (* transaction *)
      unfold trans_clear. rewrite Hx. cbn [valid].
      change (invalidate_with (tp_clear m) x w) with W1.
      destruct v.
      * match goal with |- context [set_invalid x ?W] =>
          assert (R12 : Rel W1 W) by (repeat rel_step); set (W2 := W) in * end.
        assert (R2 : Rel w (set_invalid x W2)).
        { apply set_invalid_after; [eapply Rel_trans; eauto|].
          intros c Hc. eapply rel_invalid; [exact R12|]. apply Vinv. exact Hc. }
        pose proof (valid_at_set_invalid x W2) as V2.
        set (W3 := set_invalid x W2) in *.
        destruct (trans_at W3 x) as [tt'|].
        -- assert (R4 : Rel W3 (set_trans_env x NULL (unlink_child (trans_env tt') x W3))).
           { eapply Rel_apply; [apply Rel_unlink_child; exact V2|apply Rel_set_trans_env]. }
           split; [eapply Rel_trans; eauto|]. intros _. eapply rel_invalid; eauto.
        -- split; [exact R2|]. intros _. exact V2.
      * assert (V : valid_at w x = false) by (eapply valid_at_false_of; eauto; reflexivity).
        destruct (trans_at w x) as [tt'|].
        -- assert (R4 : Rel w (set_trans_env x NULL (unlink_child (trans_env tt') x w))).
           { eapply Rel_apply; [apply Rel_unlink_child; exact V|apply Rel_set_trans_env]. }
           split; [exact R4|]. intros _. eapply rel_invalid; eauto.
        -- split; [apply Rel_refl|]. intros _. exact V.
    + (* cursor *)
      unfold cursor_clear. rewrite Hx. cbn [valid].
      change (invalidate_with (tp_clear m) x w) with W1.
      destruct v.
      * destruct (cursor_at W1 x) as [cc|] eqn:Ec.
        -- rewrite set_invalid_log, set_invalid_unlink.
           assert (R2 : Rel w (set_invalid x W1)).
           { apply set_invalid_after; [exact Rinv|]. intros c' Hc'. exfalso.
             eapply leaf_no_children; eauto; reflexivity. }
           pose proof (valid_at_set_invalid x W1) as V2.
           assert (R3 : Rel (set_invalid x W1)
             (set_curs_trans x NULL (log (ECursorClose (curs_curs cc))
               (unlink_child (curs_trans cc) x (set_invalid x W1))))).
           { eapply Rel_apply; [|apply Rel_set_curs_trans].
             eapply Rel_apply; [|apply Rel_log]. apply Rel_unlink_child. exact V2. }
           split; [eapply Rel_trans; eauto|]. intros _. eapply rel_invalid; eauto.
        -- exfalso. destruct (kind_cursor_at W1 x) as [cc Hcc]; [|congruence].
           rewrite (rel_kind _ _ Rinv). exact Hk.
      * assert (V : valid_at w x = false) by (eapply valid_at_false_of; eauto; reflexivity).
        split; [apply Rel_set_curs_trans|]. intros _. eapply rel_invalid; [apply Rel_set_curs_trans|exact V].
Qed.

Lemma invalidate_rel_top x w kx : well_ranked w -> kind_at w x = Some kx -> (rank kx <= 2)%nat ->
  Rel w (invalidate x w) /\ (forall c, c ∈ ch w x -> valid_at (invalidate x w) c = false).
Proof.
  intros Hw Hx H2. unfold invalidate. apply (invalidate_rel tree_depth (tp_clear_rel tree_depth) x w kx);
  unfold tree_depth; auto; lia.
Qed.

Lemma kind_obj w p k : kind_at w p = Some k -> exists o, heap w !! p = Some o /\ body_kind (obj_body o) = k.
Proof. unfold kind_at. destruct (heap w !! p) as [o|]; simpl; intros H; inversion H; eauto. Qed.

Lemma valid_at_obj w p o : heap w !! p = Some o -> valid_at w p = valid o.
Proof. intros E. unfold valid_at. rewrite E. reflexivity. Qed.

Lemma env_close_rel w H : well_ranked w -> kind_at w H = Some KEnv -> valid_at w H = true ->
  Rel w (env_close H w).1 /\ valid_at (env_close H w).1 H = false.
Proof.
  intros Hw Hk Hv. destruct (kind_obj _ _ _ Hk) as (o & Ho & Hb).
  rewrite (valid_at_obj _ _ _ Ho) in Hv.
  destruct (invalidate_rel_top H w KEnv Hw Hk ltac:(simpl; lia)) as [Rinv Vinv].
  assert (R2 : Rel w (set_invalid H (invalidate H w))).
  { apply set_invalid_after; auto. }
  pose proof (valid_at_set_invalid H (invalidate H w)) as V2.
  unfold env_close, get_obj. unfold mbind, M_bind; cbn beta. rewrite Ho. cbn iota beta. rewrite Hv.
  cbn -[invalidate set_invalid env_at set_env_env log].
  unfold get_env. destruct (env_at (set_invalid H (invalidate H w)) H) as [e|] eqn:E; cbn.
  - assert (R3 : Rel (set_invalid H (invalidate H w))
      (set_env_env H NULL (log (EEnvClose (env_env e)) (set_invalid H (invalidate H w))))).
    { eapply Rel_apply; [apply Rel_log|apply Rel_set_env_env]. }
    split; [eapply Rel_trans; eauto|]. eapply rel_invalid; eauto.
  - auto.
Qed.

Lemma trans_end_rel w H (W : world) : well_ranked w -> kind_at w H = Some KTrans ->
  Rel (invalidate H w) W ->
  Rel w (set_invalid H W) /\ valid_at (set_invalid H W) H = false.
Proof.
  intros Hw Hk R.
  destruct (invalidate_rel_top H w KTrans Hw Hk ltac:(simpl; lia)) as [Rinv Vinv].
  split; [|apply valid_at_set_invalid].
  apply set_invalid_after; [eapply Rel_trans; eauto|].
  intros c Hc. eapply rel_invalid; [exact R|]. apply Vinv, Hc.
Qed.

Lemma trans_abort_rel w H : well_ranked w -> kind_at w H = Some KTrans -> valid_at w H = true ->
  Rel w (trans_abort H w).1 /\ valid_at (trans_abort H w).1 H = false.
Proof.
  intros Hw Hk Hv. destruct (kind_obj _ _ _ Hk) as (o & Ho & Hb).
  rewrite (valid_at_obj _ _ _ Ho) in Hv.
  destruct (invalidate_rel_top H w KTrans Hw Hk ltac:(simpl; lia)) as [Rinv Vinv].
  unfold trans_abort, check_valid, get_obj. unfold mbind, M_bind; cbn beta. rewrite Ho. cbn iota beta. rewrite Hv.
  cbn -[invalidate set_invalid trans_at set_trans_txn log].
  unfold get_trans. destruct (trans_at (invalidate H w) H) as [t|] eqn:E; cbn -[invalidate set_invalid trans_at set_trans_txn log].
  - apply trans_end_rel; auto. eapply Rel_apply; [apply Rel_log|apply Rel_set_trans_txn].
  - exfalso. destruct (kind_trans_at (invalidate H w) H) as [t' Ht']; [|congruence].
    rewrite (rel_kind _ _ Rinv). exact Hk.
Qed.

Lemma trans_commit_rel eng w H : well_ranked w -> kind_at w H = Some KTrans -> valid_at w H = true ->
  Rel w (trans_commit eng H w).1 /\ valid_at (trans_commit eng H w).1 H = false.
Proof.
  intros Hw Hk Hv. destruct (kind_obj _ _ _ Hk) as (o & Ho & Hb).
  rewrite (valid_at_obj _ _ _ Ho) in Hv.
  destruct (invalidate_rel_top H w KTrans Hw Hk ltac:(simpl; lia)) as [Rinv Vinv].
  unfold trans_commit, check_valid, get_obj. unfold mbind, M_bind; cbn beta. rewrite Ho. cbn iota beta. rewrite Hv.
  cbn -[invalidate set_invalid trans_at set_trans_txn log].
  unfold get_trans. destruct (trans_at (invalidate H w) H) as [t|] eqn:E; cbn -[invalidate set_invalid trans_at set_trans_txn log].
  - match goal with |- context [negb ?b] => destruct (negb b) end; cbn -[invalidate set_invalid trans_at set_trans_txn log];
    (apply trans_end_rel; auto; eapply Rel_apply; [apply Rel_log|apply Rel_set_trans_txn]).
  - exfalso. destruct (kind_trans_at (invalidate H w) H) as [t' Ht']; [|congruence].
    rewrite (rel_kind _ _ Rinv). exact Hk.
Qed.

(** Invalidation reaches everything below a handle that goes from valid to
    invalid. *)
Lemma cascade w w' H : Rel w w' -> well_ranked w -> dead_children w ->
  valid_at w H = true -> valid_at w' H = false -> forall q, desc w H q -> valid_at w' q = false.
Proof.
  intros R Hw Hd HH HH' q Hq.
  assert (Step : forall p c, c ∈ ch w p -> valid_at w' p = false ->
            (valid_at w p = false -> kind_at w p <> Some KEnv) ->
            valid_at w' c = false /\ (valid_at w c = false -> kind_at w c <> Some KEnv)).
  { intros p c Hc Hp' Hp. split.
    - destruct (valid_at w p) eqn:E.
      + eapply rel_dead; eauto.
      + eapply rel_invalid; [exact R|]. eapply Hd; eauto.
    - intros _. destruct (Hw p c Hc) as (kp & kc & Hkp & Hkc & Hlt). rewrite Hkc.
      intros [= ->]. destruct kp; simpl in Hlt; lia. }
  assert (Gen : forall p q, desc w p q -> valid_at w' p = false ->
            (valid_at w p = false -> kind_at w p <> Some KEnv) -> valid_at w' q = false).
  { induction 1 as [p c Hc|p c q' Hc Hd' IHd]; intros Hp' Hp.
    - apply (Step p c Hc Hp' Hp).
    - destruct (Step p c Hc Hp' Hp) as [Hc' Hcn]. apply IHd; auto. }
  apply (Gen H q Hq HH'). congruence.
Qed.

Lemma env_at_of w p chl v e : heap w !! p = Some (mkObject chl v (EnvObject e)) -> env_at w p = Some e.
Proof. intros E. unfold env_at. rewrite E. reflexivity. Qed.
Lemma trans_at_of w p chl v t : heap w !! p = Some (mkObject chl v (TransObject t)) -> trans_at w p = Some t.
Proof. intros E. unfold trans_at. rewrite E. reflexivity. Qed.
Lemma cursor_at_of w p chl v c : heap w !! p = Some (mkObject chl v (CursorObject c)) -> cursor_at w p = Some c.
Proof. intros E. unfold cursor_at. rewrite E. reflexivity. Qed.

Ltac crunch :=
  repeat (match goal with
          | H : heap ?w !! ?p = Some _ |- context [heap ?w !! ?p] => rewrite H
          | H : env_at ?w ?p = Some _ |- context [env_at ?w ?p] => rewrite H
          | H : trans_at ?w ?p = Some _ |- context [trans_at ?w ?p] => rewrite H
          | H : db_at ?w ?p = Some _ |- context [db_at ?w ?p] => rewrite H
          | H : cursor_at ?w ?p = Some _ |- context [cursor_at ?w ?p] => rewrite H
          | |- _ => progress cbn beta iota zeta
          end).

(** A method of an invalid handle raises InvalidHandle and changes nothing. *)
Lemma guarded_invalid eng o w :
  guarded o = true -> op_ready w o -> valid_at w (op_target o) = false ->
  run_op eng o w = (w, inl InvalidHandle).
Proof.
  intros Hg [Hk He] Hv.
  destruct (op_kind o) as [k|] eqn:Ek; [|destruct o; discriminate].
  destruct (kind_obj _ _ _ Hk) as (obj & Ho & Hb).
  rewrite (valid_at_obj _ _ _ Ho) in Hv.
  destruct obj as [chl v b]; simpl in Hv, Hb; subst v.
  destruct b as [e|d|t|c]; simpl in Hb; subst k;
    [pose proof (env_at_of _ _ _ _ _ Ho) as Hx | pose proof I as Hx |
     pose proof (trans_at_of _ _ _ _ _ Ho) as Hx | pose proof (cursor_at_of _ _ _ _ _ Ho) as Hx];
    destruct o; simpl in Ek, Hg, Ho, He, Hx; try discriminate;
    unfold run_op, returning;
    unfold env_begin, env_copy, env_info, env_path, env_stat, env_sync, env_get, env_gets, env_put,
      env_puts, env_delete, env_deletes, env_cursor, trans_abort, trans_commit, trans_enter,
      trans_exit, trans_cursor, trans_delete, trans_drop, trans_get, trans_put, generic_get,
      generic_put, generic_delete, cursor_count, cursor_delete, cursor_first, cursor_last,
      cursor_next, cursor_prev, cursor_get, cursor_item, cursor_key, cursor_value, cursor_put,
      cursor_set_key, cursor_set_range, cursor_iter_from, cursor_iter, cursor_iternext,
      cursor_iterprev, iter_from_args, check_valid, get_valid, get_obj, get_env, get_trans,
      parse_args, throw, mret, M_ret;
    unfold mbind, M_bind; crunch; try reflexivity.
  all: destruct (He eq_refl) as (t' & e' & Ht & He'); rewrite Hx in Ht; injection Ht as <-; crunch; reflexivity.
Qed.

(** ** The concrete setting *)

Lemma ex_world_none rd ev pos p : (5 <= p)%nat -> heap (ex_world rd ev pos) !! p = None.
Proof. intros Hp. unfold ex_world; simpl. rewrite !lookup_insert_ne by lia. apply lookup_empty. Qed.

Lemma ex_world_wf rd ev pos : wf (ex_world rd ev pos).
Proof.
  split; [|split].
  - intros p Hp. split; [apply ex_world_none; exact Hp|]. reflexivity.
  - intros p c Hc. unfold ch in Hc.
    destruct p as [|[|[|[|[|p]]]]];
      [vm_compute in Hc; inversion Hc| | | | |rewrite ex_world_none in Hc by lia; inversion Hc];
      vm_compute in Hc; repeat (apply elem_of_cons in Hc; destruct Hc as [->|Hc]); try (inversion Hc; fail);
      eexists _, _; vm_compute; eauto.
  - intros p c Hp Hk Hc. unfold ch in Hc.
    destruct p as [|[|[|[|[|p]]]]];
      [vm_compute in Hc; inversion Hc| | | | |rewrite ex_world_none in Hc by lia; inversion Hc];
      vm_compute in Hp, Hk, Hc; try congruence; inversion Hc.
Qed.

(** ** Invalidation *)

Lemma returning_fst m w : (returning m w).1 = (m w).1.
Proof. unfold returning, mbind, M_bind. destruct (m w) as [w' [e|a]]; reflexivity. Qed.

Lemma kind_at_present w p k : kind_at w p = Some k -> heap w !! p <> None.
Proof. unfold kind_at. destruct (heap w !! p); simpl; congruence. Qed.

Lemma desc_kind w p q : well_ranked w -> desc w p q -> exists k, kind_at w q = Some k.
Proof.
  intros Hw. induction 1 as [p c Hc|p c q Hc _ IH]; [|exact IH].
  destruct (Hw p c Hc) as (kp & kc & _ & Hkc & _). eauto.
Qed.

Lemma terminal_rel eng w o H : well_ranked w ->
  (o = OEnvClose H \/ o = OTransAbort H \/ o = OTransCommit H) ->
  kind_at w H = op_kind o -> valid_at w H = true ->
  Rel w (run_op eng o w).1 /\ valid_at (run_op eng o w).1 H = false.
Proof.
  intros Hw [ -> | [ -> | -> ] ] Hk Hv; simpl in Hk |- *; rewrite returning_fst.
  - apply env_close_rel; auto.
  - apply trans_abort_rel; auto.
  - apply trans_commit_rel; auto.
Qed.

Lemma after_terminal eng w o H ops :
  wf w -> (o = OEnvClose H \/ o = OTransAbort H \/ o = OTransCommit H) ->
  kind_at w H = op_kind o -> valid_at w H = true ->
  persists (run_op eng o w).1 (run_ops eng ops (run_op eng o w).1) /\
  forall q, (q = H \/ desc w H q) ->
    valid_at (run_op eng o w).1 q = false /\
    valid_at (run_ops eng ops (run_op eng o w).1) q = false /\
    kind_at (run_ops eng ops (run_op eng o w).1) q = kind_at w q.
Proof.
  intros (Hf & Hw & Hd) Ho Hk Hv.
  set (w1 := (run_op eng o w).1). set (w2 := run_ops eng ops w1).
  destruct (terminal_rel eng w o H Hw Ho Hk Hv) as [R V1].
  destruct (Mono_run_op eng o w Hf) as [Hf1 P1].
  destruct (mono_w_run_ops eng ops w1 Hf1) as [Hf2 P2].
  split; [exact P2|]. intros q Hq.
  assert (Hq1 : valid_at w1 q = false).
  { destruct Hq as [->|Hq]; [exact V1|]. eapply cascade; eauto. }
  assert (Hpres : heap w !! q <> None).
  { destruct Hq as [->|Hq].
    - destruct o; destruct Ho as [E|[E|E]]; try discriminate; eapply kind_at_present; exact Hk.
    - destruct (desc_kind w H q Hw Hq) as [k Hk']. eapply kind_at_present; exact Hk'. }
  destruct (P1 q Hpres) as (Hpres1 & _ & Hk1). destruct (P2 q Hpres1) as (_ & Hv2 & Hk2).
  split; [exact Hq1|]. split.
  - destruct (valid_at w2 q) eqn:E; [|reflexivity]. rewrite (Hv2 E) in Hq1. discriminate.
  - etransitivity; [exact Hk2 | exact Hk1].
Qed.

(** C1 (code bug). Closing environment 1 of the example world, which has
    the open transaction 3, invalidates both, yet two kinds of call on them
    get past the validity test.  [Environment.open_db] passes the constant 1
    to [parse_args] instead of [self->valid], so on the closed environment
    it begins a transaction on the NULL [MDB_env] pointer, opens the main
    database in it, commits, and returns a new, valid Database.
    [Transaction.get], [put] and [delete] read [self->env->main_db] before
    the validity test, and [trans_clear] has set [self->env] to NULL, so
    they dereference a NULL pointer instead of raising InvalidHandle. *)
Lemma closed_env_not_refused :
  let w1 := (run_op (eng_rc 0) (OEnvClose 1%nat) ex_w).1 in
  let r := run_op (eng_rc 0) (OEnvOpenDb 1%nat (mkOpenDbArgs None None None None None)) w1 in
  valid_at w1 1%nat = false /\ valid_at w1 3%nat = false /\
  r.2 = inr (Some (PyHandle 5%nat)) /\ valid_at r.1 5%nat = true /\
  trace r.1 = ETxnCommit 60%nat :: EDbiOpen 60%nat None MDB_CREATE :: ETxnBegin NULL NULL MDB_RDONLY
                :: trace w1 /\
  (run_op (eng_rc 0) (OTransGet 3%nat (mkGetArgs (Some [Byte.x61]) None None)) w1).2 = inl NullDeref /\
  (run_op (eng_rc 0) (OTransPut 3%nat (mkPutArgs (Some [Byte.x61]) (Some [Byte.x62]) None None None None))
     w1).2 = inl NullDeref /\
  (run_op (eng_rc 0) (OTransDelete 3%nat (mkDeleteArgs (Some [Byte.x61]) None None)) w1).2 = inl NullDeref.
Proof. repeat split; vm_compute; reflexivity. Qed.

(** X21. Take a well-formed world and a valid handle [H] on which
    [Environment.close], [Transaction.abort] or [Transaction.commit] is
    called.  Afterwards [H] and every handle reached from [H] through the
    child lists at the time of the call (transactions, cursors, databases)
    are invalid, and they stay invalid whatever operations follow: no
    operation turns an existing handle from invalid back to valid.  After
    any later operations, a method of such a handle raises InvalidHandle
    and leaves the state unchanged when it is one of the methods that test
    validity before touching anything else: every method except
    [Environment.close], [Environment.open_db] and [Transaction.get], [put]
    and [delete].  (The Transaction and Cursor constructors and the
    iterator's next step do not take such a handle as their target.) *)
Theorem invalidation_sticks eng w o H ops :
  wf w -> (o = OEnvClose H \/ o = OTransAbort H \/ o = OTransCommit H) ->
  kind_at w H = op_kind o -> valid_at w H = true ->
  let w1 := (run_op eng o w).1 in
  let w2 := run_ops eng ops w1 in
  persists w1 w2 /\
  forall q, (q = H \/ desc w H q) ->
    valid_at w1 q = false /\ valid_at w2 q = false /\
    (forall o', guarded o' = true -> reads_env o' = false -> op_target o' = q ->
       kind_at w2 q = op_kind o' -> run_op eng o' w2 = (w2, inl InvalidHandle)).
Proof.
  intros Hwf Ho Hk Hv w1 w2.
  destruct (after_terminal eng w o H ops Hwf Ho Hk Hv) as [P2 Hafter].
  split; [exact P2|]. intros q Hq.
  destruct (Hafter q Hq) as (Hq1 & Hq2 & _).
  split; [exact Hq1|]. split; [exact Hq2|].
  intros o' Hg Hr Ht Hk'. apply guarded_invalid; auto.
  - split; [rewrite Ht; exact Hk'|]. rewrite Hr. discriminate.
  - rewrite Ht. exact Hq2.
Qed.

Lemma invalidation_sticks_witness :
  let w2 := run_ops (eng_rc 0) [OCursorFirst 4%nat] (run_op (eng_rc 0) (OTransAbort 3%nat) ex_w).1 in
  run_op (eng_rc 0) (OCursorCount 4%nat) w2 = (w2, inl InvalidHandle).
Proof.
  intros w2.
  destruct (invalidation_sticks (eng_rc 0) ex_w (OTransAbort 3%nat) 3%nat [OCursorFirst 4%nat]
     (ex_world_wf _ _ _) (or_intror (or_introl eq_refl)) eq_refl eq_refl) as [_ Hq].
  destruct (Hq 4%nat (or_intror (desc_child ex_w 3%nat 4%nat ltac:(vm_compute; left)))) as (_ & _ & Hg).
  apply Hg; [reflexivity|reflexivity|reflexivity|vm_compute; reflexivity].
Defined.

(** ** Engine calls made by a method *)

Section LogsLemmas.
Variable P : ecall -> Prop.

Lemma Logs_same {A} (m : M A) : (forall w, trace (m w).1 = trace w) -> Logs P m.
Proof. intros E w. exists []. rewrite E. split; [reflexivity|constructor]. Qed.

Lemma Logs_ret {A} (a : A) : Logs P (mret a).
Proof. apply Logs_same. reflexivity. Qed.
Lemma Logs_throw {A} e : Logs P (@throw A e).
Proof. apply Logs_same. reflexivity. Qed.
Lemma Logs_bind {A B} (m : M A) (k : A -> M B) :
  Logs P m -> (forall a, Logs P (k a)) -> Logs P (mbind k m).
Proof.
  intros Hm Hk w. destruct (Hm w) as (n1 & E1 & F1).
  change (mbind k m w) with (match m w with (w', inl e) => (w', inl e) | (w', inr a) => k a w' end).
  destruct (m w) as [w1 [e|a]]; simpl in *.
  - eauto.
  - destruct (Hk a w1) as (n2 & E2 & F2). exists (n2 ++ n1). rewrite E2, E1, app_assoc.
    split; [reflexivity|apply Forall_app; auto].
Qed.
Lemma Logs_call {A} c (f : list ecall -> A) : P c -> Logs P (call c f).
Proof. intros Hc w. exists [c]. split; [reflexivity|constructor; auto]. Qed.
Lemma Logs_get_obj p : Logs P (get_obj p).
Proof. apply Logs_same. intros w. unfold get_obj. destruct (heap w !! p); reflexivity. Qed.
Lemma Logs_get_env p : Logs P (get_env p).
Proof. apply Logs_same. intros w. unfold get_env. destruct (env_at w p); reflexivity. Qed.
Lemma Logs_get_db p : Logs P (get_db p).
Proof. apply Logs_same. intros w. unfold get_db. destruct (db_at w p); reflexivity. Qed.
Lemma Logs_get_trans p : Logs P (get_trans p).
Proof. apply Logs_same. intros w. unfold get_trans. destruct (trans_at w p); reflexivity. Qed.
Lemma Logs_get_cursor p : Logs P (get_cursor p).
Proof. apply Logs_same. intros w. unfold get_cursor. destruct (cursor_at w p); reflexivity. Qed.
Lemma Logs_attempt {A} (m : M A) : Logs P m -> Logs P (attempt m).
Proof. intros Hm w. unfold attempt. destruct (Hm w) as (n & E & F). destruct (m w). eauto. Qed.
Lemma Logs_of_result {A} (r : error + A) : Logs P (of_result r).
Proof. destruct r; [apply Logs_throw|apply Logs_ret]. Qed.
Lemma Logs_returning m : Logs P m -> Logs P (returning m).
Proof. intros Hm. unfold returning. apply Logs_bind; [exact Hm|intros; apply Logs_ret]. Qed.

End LogsLemmas.

Create HintDb logs.
#[export] Hint Resolve Logs_ret Logs_throw Logs_get_obj Logs_get_env Logs_get_db Logs_get_trans
  Logs_get_cursor Logs_of_result : logs.

Ltac logs_step :=
  match goal with
  | |- Logs _ (mbind _ _) => apply Logs_bind; [ | intros ?; cbv beta]
  | |- Logs _ (attempt _) => apply Logs_attempt
  | |- Logs _ (returning _) => apply Logs_returning
  | |- Logs _ (call _ _) => apply Logs_call
  | |- Logs _ (get_valid _) => unfold get_valid
  | |- Logs _ (check_valid _) => unfold check_valid
  | |- Logs _ (parse_args _) => unfold parse_args
  | |- Logs _ (err_set _ _) => unfold err_set
  | |- Logs _ (val_from_buffer _) => unfold val_from_buffer
  | |- Logs _ (match ?x with _ => _ end) => destruct x
  | |- Logs _ (if ?b then _ else _) => destruct b
  | |- Logs _ _ => solve [eauto with logs]
  end.
Ltac logs := intros; cbv zeta; repeat logs_step.

(** Bits of a flag word built from constants. *)
Ltac flag_bits :=
  cbn; repeat match goal with
              | |- context [match ?o with Some _ => _ | None => _ end] => destruct o
              | |- context [if ?b then _ else _] => destruct b
              end;
  try split; reflexivity.

Lemma Logs_generic_put eng v txn db key value append db' :
  Logs default_put_flags (generic_put eng v txn db (mkPutArgs key value None None append db')).
Proof. unfold generic_put. logs; flag_bits. Qed.

Lemma Logs_puts_loop eng txn db flags items :
  Z.testbit flags 4 = false -> Z.testbit flags 5 = true ->
  forall lst, Logs default_put_flags (puts_loop eng txn db flags items lst).
Proof.
  intros H4 H5. induction items as [|[k v| |n] items IH]; intros lst; simpl; logs; split; assumption.
Qed.

(** C2 (counterexample). [Transaction.put(key, value)] with the default
    arguments passes flags 32 = MDB_NODUPDATA to [mdb_put]. *)
Lemma put_default_sets_nodupdata :
  trace (run_op (eng_rc 0) (OTransPut 3%nat (mkPutArgs None None None None None None)) ex_w).1
    = [EPut 60%nat 0%nat [] [] 32] /\ Z.testbit 32 5 = true.
Proof. split; vm_compute; reflexivity. Qed.

(** C2 (amended). A put through [Transaction.put], [Environment.put],
    [Environment.puts] or [Cursor.put] called without [dupdata] and
    [overwrite] passes to the engine only put flags in which
    MDB_NOOVERWRITE is clear (an existing key is overwritten) and
    MDB_NODUPDATA is set (a key/value pair already present is not stored a
    second time). *)
Theorem put_default_flags eng self key value append db :
  Logs default_put_flags (run_op eng (OTransPut self (mkPutArgs key value None None append db))) /\
  Logs default_put_flags (run_op eng (OEnvPut self (mkPutArgs key value None None append db))) /\
  (forall items, Logs default_put_flags (run_op eng (OEnvPuts self items None None append db))) /\
  Logs default_put_flags (run_op eng (OCursorPut self (mkCursorPutArgs key value None None append))).
Proof.
  split; [|split; [|split]]; simpl.
  - unfold trans_put. logs. apply Logs_generic_put.
  - unfold env_put. logs; try exact I. apply Logs_generic_put.
  - intros items. unfold env_puts. logs; try exact I. apply Logs_puts_loop; flag_bits.
  - unfold cursor_put. logs. flag_bits.
Qed.

(** C3. [Transaction.put] sets MDB_APPEND exactly when [append] is true,
    but [Cursor.put] sets it exactly when [append] is false (its default),
    so a plain [cursor.put(key, value)] asks for an append. *)
Theorem cursor_put_append_inverted eng self key value dupdata overwrite append db :
  Logs (append_flag (default false append))
    (run_op eng (OTransPut self (mkPutArgs key value dupdata overwrite append db))) /\
  Logs (append_flag (negb (default false append)))
    (run_op eng (OCursorPut self (mkCursorPutArgs key value dupdata overwrite append))).
Proof.
  split; simpl.
  - unfold trans_put, generic_put. logs. flag_bits.
  - unfold cursor_put. logs. flag_bits.
Qed.

(** ** Not-found answers of [get], [put] and [delete] *)

Ltac crunch_full :=
  repeat (match goal with
          | H : heap ?w !! ?p = Some _ |- context [heap ?w !! ?p] => rewrite H
          | H : iters ?w !! ?p = Some _ |- context [iters ?w !! ?p] => rewrite H
          | H : env_at ?w ?p = Some _ |- context [env_at ?w ?p] => rewrite H
          | H : trans_at ?w ?p = Some _ |- context [trans_at ?w ?p] => rewrite H
          | H : db_at ?w ?p = Some _ |- context [db_at ?w ?p] => rewrite H
          | H : cursor_at ?w ?p = Some _ |- context [cursor_at ?w ?p] => rewrite H
          | |- _ => progress cbn
          end).

(** C4. In a valid transaction whose environment and database are there:
    [get] of a key the engine does not find returns the caller's default
    (None when none is given); [put] with [overwrite=False] of a key the
    engine reports as existing returns False; [delete] of a key (or
    key/value pair) the engine does not find returns False.  None of them
    raises. *)
Theorem not_found_is_a_value eng w self chl t e d key dflt value dupdata append dval db :
  heap w !! self = Some (mkObject chl true (TransObject t)) ->
  env_at w (trans_env t) = Some e ->
  db_at w (default (env_main_db e) db) = Some d ->
  (mdb_get eng (trace w) (trans_txn t) (db_dbi d) key).1 = MDB_NOTFOUND ->
  (forall flags, Z.testbit flags 4 = true ->
     mdb_put eng (trace w) (trans_txn t) (db_dbi d) key value flags = MDB_KEYEXIST) ->
  (forall v, mdb_del eng (trace w) (trans_txn t) (db_dbi d) key v = MDB_NOTFOUND) ->
  (run_op eng (OTransGet self (mkGetArgs (Some key) dflt db)) w).2 = inr (Some (default PyNone dflt)) /\
  (run_op eng (OTransPut self (mkPutArgs (Some key) (Some value) dupdata (Some false) append db)) w).2
    = inr (Some (PyBool false)) /\
  (run_op eng (OTransDelete self (mkDeleteArgs (Some key) dval db)) w).2 = inr (Some (PyBool false)).
Proof.
  intros Hs He Hd Hget Hput Hdel.
  pose proof (trans_at_of _ _ _ _ _ Hs) as Ht.
  split; [|split]; simpl;
    unfold returning, trans_get, trans_put, trans_delete, generic_get, generic_put, generic_delete,
      get_obj, get_trans, get_env, get_db, parse_args, call, err_set, throw, mret, M_ret;
    unfold mbind, M_bind; crunch_full.
  - destruct (mdb_get eng (trace w) (trans_txn t) (db_dbi d) key) as [rc v] eqn:E.
    simpl in Hget. subst rc. reflexivity.
  - rewrite Hput; [reflexivity|].
    destruct dupdata as [[]|]; destruct append as [[]|]; reflexivity.
  - rewrite Hdel. reflexivity.
Qed.

Lemma not_found_is_a_value_witness :
  (run_op eng_miss (OTransGet 3%nat (mkGetArgs (Some [Byte.x61]) (Some (PyOther 7)) None)) ex_w).2
    = inr (Some (PyOther 7)) /\
  (run_op eng_miss (OTransPut 3%nat (mkPutArgs (Some [Byte.x61]) (Some [Byte.x31]) None (Some false) None None)) ex_w).2
    = inr (Some (PyBool false)) /\
  (run_op eng_miss (OTransDelete 3%nat (mkDeleteArgs (Some [Byte.x61]) None None)) ex_w).2
    = inr (Some (PyBool false)).
Proof.
  apply (not_found_is_a_value eng_miss ex_w 3%nat [4%nat] ex_trans (ex_env false) (mkDbFields 1%nat 0%nat)
           [Byte.x61] (Some (PyOther 7)) [Byte.x31] None None None None);
    [vm_compute; reflexivity | vm_compute; reflexivity | vm_compute; reflexivity
    | vm_compute; reflexivity | intros; reflexivity | intros; reflexivity].
Defined.

(** ** A second terminal call *)

(** C5. After [Environment.close], [Transaction.abort] or
    [Transaction.commit] on a valid handle, and any operations after it, a
    second [close] of the environment returns None and a second [abort] or
    [commit] of the transaction raises InvalidHandle; either way the state,
    and so the record of engine calls, is unchanged: the engine's release
    primitive is not called again. *)
Theorem second_terminal_call_safe eng w o o2 H ops :
  wf w -> (o = OEnvClose H \/ o = OTransAbort H \/ o = OTransCommit H) ->
  (o2 = OEnvClose H \/ o2 = OTransAbort H \/ o2 = OTransCommit H) ->
  kind_at w H = op_kind o -> op_kind o2 = op_kind o -> valid_at w H = true ->
  let w2 := run_ops eng ops (run_op eng o w).1 in
  run_op eng o2 w2 = (w2, match o2 with OEnvClose _ => inr (Some PyNone) | _ => inl InvalidHandle end).
Proof.
  intros Hwf Ho Ho2 Hk Hk2 Hv w2.
  destruct (after_terminal eng w o H ops Hwf Ho Hk Hv) as [_ Hafter].
  destruct (Hafter H (or_introl eq_refl)) as (_ & Hv2 & Hkw2).
  fold w2 in Hv2, Hkw2. rewrite Hk, <- Hk2 in Hkw2.
  destruct Ho2 as [ -> | [ -> | -> ] ].
  - destruct (kind_obj _ _ _ Hkw2) as (ob & Hob & _).
    rewrite (valid_at_obj _ _ _ Hob) in Hv2.
    simpl. unfold returning, env_close, get_obj, mret, M_ret. unfold mbind, M_bind.
    rewrite Hob. rewrite Hv2. reflexivity.
  - apply guarded_invalid; [reflexivity | split; [exact Hkw2 | intros Hr; discriminate Hr] | exact Hv2].
  - apply guarded_invalid; [reflexivity | split; [exact Hkw2 | intros Hr; discriminate Hr] | exact Hv2].
Qed.

Lemma second_terminal_call_safe_witness :
  let w2 := run_ops (eng_rc 0) [OCursorFirst 4%nat] (run_op (eng_rc 0) (OTransCommit 3%nat) ex_w).1 in
  run_op (eng_rc 0) (OTransAbort 3%nat) w2 = (w2, inl InvalidHandle).
Proof.
  exact (second_terminal_call_safe (eng_rc 0) ex_w (OTransCommit 3%nat) (OTransAbort 3%nat) 3%nat
           [OCursorFirst 4%nat] (ex_world_wf _ _ _) (or_intror (or_intror eq_refl))
           (or_intror (or_introl eq_refl)) eq_refl eq_refl eq_refl).
Defined.

(** ** [Environment.puts] *)

Lemma Logs_puts_loop_put eng txn db flags items :
  forall lst, Logs is_put (puts_loop eng txn db flags items lst).
Proof. induction items as [|[k v| |n] items IH]; intros lst; simpl; logs; exact I. Qed.

(** C6. When [Environment.puts] has begun its write transaction and the
    loop over the items fails (an element that is not a 2-tuple or not a
    buffer, an exception from the iterator, or a put error other than
    MDB_KEYEXIST), the call raises that error and returns no list; between
    the transaction's begin and its abort the engine saw only puts, and the
    transaction is aborted, never committed. *)
Theorem puts_failure_aborts eng w self chl e items dupdata overwrite append db txn err :
  heap w !! self = Some (mkObject chl true (EnvObject e)) ->
  mdb_txn_begin eng (trace w) (env_env e) NULL 0 = (0, txn) ->
  let flags := 0 in
  let flags := if negb (default false dupdata) then Z.lor flags MDB_NODUPDATA else flags in
  let flags := if negb (default true overwrite) then Z.lor flags MDB_NOOVERWRITE else flags in
  let flags := if default false append then Z.lor flags MDB_APPEND else flags in
  (puts_loop eng txn (default (env_main_db e) db) flags items []
     (log (ETxnBegin (env_env e) NULL 0) w)).2 = inl err ->
  (run_op eng (OEnvPuts self (Some items) dupdata overwrite append db) w).2 = inl err /\
  exists new, Forall is_put new /\
    trace (run_op eng (OEnvPuts self (Some items) dupdata overwrite append db) w).1
      = ETxnAbort txn :: new ++ ETxnBegin (env_env e) NULL 0 :: trace w.
Proof.
  intros Hs Hb flags0 flags1 flags2 flags3 Hfail.
  pose proof (env_at_of _ _ _ _ _ Hs) as He.
  destruct (Logs_puts_loop_put eng txn (default (env_main_db e) db) flags3 items []
              (log (ETxnBegin (env_env e) NULL 0) w)) as (new & Et & Fn).
  simpl. unfold returning, env_puts, get_env, get_valid, get_obj, parse_args, call, err_set, throw,
    attempt, mret, M_ret. unfold mbind, M_bind. crunch_full.
  rewrite Hb. cbn.
  destruct (puts_loop _ _ _ _ items [] _) as [w3 r] eqn:E.
  simpl in Hfail, Et. subst r. cbn. split; [reflexivity|].
  exists new. split; [exact Fn|]. rewrite Et. reflexivity.
Qed.

(** -30792 is MDB_MAP_FULL. *)
Lemma puts_failure_aborts_witness :
  (run_op (eng_rc (-30792)) (OEnvPuts 1%nat (Some [PutsPair (Buf [Byte.x61]) (Buf [Byte.x31])])
     None None None None) ex_w).2 = inl (EngineError "mdb_put" (-30792)) /\
  exists new, Forall is_put new /\
    trace (run_op (eng_rc (-30792)) (OEnvPuts 1%nat (Some [PutsPair (Buf [Byte.x61]) (Buf [Byte.x31])])
      None None None None) ex_w).1
    = ETxnAbort 60%nat :: new ++ ETxnBegin 50%nat NULL 0 :: trace ex_w.
Proof.
  apply (puts_failure_aborts (eng_rc (-30792)) ex_w 1%nat [3%nat; 2%nat] (ex_env false)
           [PutsPair (Buf [Byte.x61]) (Buf [Byte.x31])] None None None None 60%nat
           (EngineError "mdb_put" (-30792)));
    vm_compute; reflexivity.
Defined.

(** ** [Cursor.count] *)

(** C7 (counterexample). On an unpositioned cursor, [count()] asks the
    engine all the same; an engine that refuses an uninitialised cursor
    with EINVAL makes it raise instead of returning 0. *)
Lemma count_unpositioned_raises :
  cursor_at ex_w 4%nat = Some (ex_curs false) /\
  (run_op (eng_rc EINVAL) (OCursorCount 4%nat) ex_w).2 = inl (EngineError "mdb_cursor_count" 22).
Proof. split; vm_compute; reflexivity. Qed.

(** C7 (amended). On a valid cursor, positioned or not, [count()] makes
    exactly one engine call, [mdb_cursor_count], and returns its count, or
    raises EngineError with its code; the wrapper never looks at whether the
    cursor is positioned. *)
Theorem cursor_count_asks_engine eng w self chl c :
  heap w !! self = Some (mkObject chl true (CursorObject c)) ->
  run_op eng (OCursorCount self) w =
    (log (ECursorCount (curs_curs c)) w,
     let '(rc, n) := mdb_cursor_count eng (trace w) (curs_curs c) in
     if rc =? 0 then inr (Some (PyLong (Z.of_nat n))) else inl (EngineError "mdb_cursor_count" rc)).
Proof.
  intros Hs. pose proof (cursor_at_of _ _ _ _ _ Hs) as Hc.
  simpl. unfold returning, cursor_count, check_valid, get_obj, get_cursor, call, err_set, throw,
    mret, M_ret. unfold mbind, M_bind. crunch_full.
  destruct (mdb_cursor_count eng (trace w) (curs_curs c)) as [rc n].
  destruct (rc =? 0); reflexivity.
Qed.

Lemma cursor_count_asks_engine_witness :
  run_op (eng_rc EINVAL) (OCursorCount 4%nat) ex_w =
    (log (ECursorCount 70%nat) ex_w, inl (EngineError "mdb_cursor_count" 22)).
Proof.
  exact (cursor_count_asks_engine (eng_rc EINVAL) ex_w 4%nat [] (ex_curs false) eq_refl).
Defined.

(** ** Iteration *)

Lemma cursor_at_set_curs_pos w p b k v c : cursor_at w p = Some c ->
  cursor_at (set_curs_pos p b k v w) p = Some (mkCursorFields (curs_trans c) b (curs_curs c) k v).
Proof.
  unfold cursor_at, set_curs_pos, upd_body. rewrite heap_upd_obj. rewrite decide_True by reflexivity.
  destruct (heap w !! p) as [[chl vl []]|]; simpl; congruence.
Qed.

Lemma Logs_set_iter_started P p : Logs P (set_iter_started p).
Proof. apply Logs_same. intros w. unfold set_iter_started. destruct (iters w !! p); reflexivity. Qed.

Lemma Logs_iter_yield P self it : Logs P (iter_yield self it).
Proof.
  unfold iter_yield, call_val_func. destruct (iter_val_func it);
    unfold cursor_key, cursor_value, cursor_item; logs; apply Logs_set_iter_started.
Qed.

(** C8 (counterexample). A started iterator whose next move fails with an
    error other than MDB_NOTFOUND raises EngineError, leaving the cursor
    unpositioned, instead of ending the iteration. *)
Lemma iter_next_move_error_raises :
  let r := run_op (eng_rc EINVAL) (OIterNext 5%nat) ex_iter_world in
  r.2 = inl (EngineError "mdb_cursor_get" 22) /\ cursor_at r.1 4%nat = Some (ex_curs false).
Proof. split; vm_compute; reflexivity. Qed.

(** C8 (amended). Take an iterator over a valid cursor, moving with
    MDB_NEXT or MDB_PREV.  If the cursor is unpositioned the iteration ends
    at once.  Its first step does not call the engine: it yields the
    current key, value or item.  Each later step makes exactly one engine
    call, [mdb_cursor_get] with the iterator's operator, before yielding:
    on success the cursor takes the new position and that item is yielded;
    on MDB_NOTFOUND the cursor becomes unpositioned and the iteration ends
    without error; on any other error code the cursor becomes unpositioned
    and the step raises EngineError. *)
Theorem iter_next_steps eng w self it chl c :
  iters w !! self = Some it ->
  heap w !! iter_curs it = Some (mkObject chl true (CursorObject c)) ->
  is_get_current (iter_op it) = false ->
  (curs_positioned c = false -> iter_next eng self w = (w, inr None)) /\
  (curs_positioned c = true -> iter_started it = false ->
     iter_next eng self w = iter_yield self it w /\ Logs (fun _ => False) (iter_yield self it)) /\
  (curs_positioned c = true -> iter_started it = true ->
     let r := mdb_cursor_get eng (trace w) (curs_curs c) (curs_key c) (iter_op it) in
     let w1 := log (ECursorGet (curs_curs c) (curs_key c) (iter_op it)) w in
     (r.1 = 0 ->
        iter_next eng self w = iter_yield self it (set_curs_pos (iter_curs it) true r.2.1 r.2.2 w1)) /\
     (r.1 <> 0 ->
        iter_next eng self w = (set_curs_pos (iter_curs it) false [] [] w1,
          if r.1 =? MDB_NOTFOUND then inr None else inl (EngineError "mdb_cursor_get" r.1)))).
Proof.
  intros Hi Ho Hop. pose proof (cursor_at_of _ _ _ _ _ Ho) as Hc.
  split; [|split].
  - intros Hp. unfold iter_next, get_iter, get_obj, get_cursor, mret, M_ret. unfold mbind, M_bind.
    crunch_full. rewrite Hp. reflexivity.
  - intros Hp Hs. split; [|apply Logs_iter_yield].
    unfold iter_next, get_iter, get_obj, get_cursor, mret, M_ret. unfold mbind, M_bind.
    crunch_full. rewrite Hp, Hs. reflexivity.
  - intros Hp Hs. cbv zeta.
    unfold iter_next, _cursor_get_c, get_iter, get_obj, get_cursor, call, lift, err_set, throw,
      mret, M_ret. unfold mbind, M_bind.
    crunch_full. rewrite Hp, Hs. crunch_full.
    destruct (mdb_cursor_get eng (trace w) (curs_curs c) (curs_key c) (iter_op it)) as [rc [k v]] eqn:Er.
    cbn. split; intros Hrc.
    + subst rc. cbn. erewrite cursor_at_set_curs_pos; [|exact Hc]. cbn. reflexivity.
    + destruct (rc =? 0) eqn:E0; [apply Z.eqb_eq in E0; contradiction|]. cbn.
      destruct (rc =? MDB_NOTFOUND); cbn.
      * erewrite cursor_at_set_curs_pos; [|exact Hc]. cbn. reflexivity.
      * rewrite Hop, andb_false_r. cbn. reflexivity.
Qed.

Lemma iter_next_steps_witness :
  iter_next (eng_rc EINVAL) 5%nat ex_iter_world =
    (set_curs_pos 4%nat false [] [] (log (ECursorGet 70%nat [] MDB_NEXT) ex_iter_world),
     inl (EngineError "mdb_cursor_get" 22)).
Proof.
  destruct (iter_next_steps (eng_rc EINVAL) ex_iter_world 5%nat (mkIter 4%nat true MDB_NEXT VItem) []
              (ex_curs true) eq_refl eq_refl eq_refl) as (_ & _ & H3).
  destruct (H3 eq_refl eq_refl) as [_ H4].
  exact (H4 ltac:(vm_compute; discriminate)).
Defined.

(** ** Deleting with an empty value *)

(** C9. [Transaction.delete] and [Environment.delete] given a zero-length
    value behave exactly as when no value is given, and the engine's delete
    is then called without a value, which removes every duplicate stored
    under the key. *)
Theorem delete_empty_value_is_no_value eng self key db w :
  run_op eng (OTransDelete self (mkDeleteArgs key (Some []) db)) w
    = run_op eng (OTransDelete self (mkDeleteArgs key None db)) w /\
  run_op eng (OEnvDelete self (mkDeleteArgs key (Some []) db)) w
    = run_op eng (OEnvDelete self (mkDeleteArgs key None db)) w /\
  Logs del_without_value (run_op eng (OTransDelete self (mkDeleteArgs key (Some []) db))) /\
  Logs del_without_value (run_op eng (OEnvDelete self (mkDeleteArgs key (Some []) db))).
Proof.
  split; [|split; [|split]]; simpl.
  - reflexivity.
  - reflexivity.
  - unfold trans_delete, generic_delete. logs; reflexivity.
  - unfold env_delete, generic_delete. logs; try exact I; reflexivity.
Qed.

(** ** Write transactions on a read-only environment *)





(** * Argument parsing *)

Module ArgParseFacts.
Import ArgParse.

Lemma parse_arg_shape s v i out out' :
  parse_arg s v i out = inr out' ->
  out' = out \/ (v <> ANone /\ exists sl, out' = <[i := sl]> out).
Proof.
  unfold parse_arg. destruct v; [intros H; injection H; auto|..];
  destruct (spec_type s); cbn -[parse_ulong]; intros H;
  repeat match goal with
  | H : (if ?b then _ else _) = _ |- _ => destruct b
  | H : match ?m with inl _ => _ | inr _ => _ end = _ |- _ => destruct m
  end; try discriminate; injection H as <-; right; split; eauto; discriminate.
Qed.

Lemma parse_arg_length s v i out out' :
  parse_arg s v i out = inr out' -> length out' = length out.
Proof.
  intros H. destruct (parse_arg_shape _ _ _ _ _ H) as [-> | [_ [sl ->]]];
    [done | apply length_insert].
Qed.

Lemma pos_loop_length sp args i set out set' out' :
  pos_loop sp args i set out = inr (set', out') -> length out' = length out.
Proof.
  revert args i set out. induction sp as [|s sp IH]; intros [|a args] i set out H;
    cbn in H; try (injection H as <- <-; done).
  destruct (parse_arg s a i out) as [e|o] eqn:E; [discriminate|].
  rewrite (IH _ _ _ _ H). eapply parse_arg_length; eauto.
Qed.

Lemma kw_loop_length sp kw set size i c out c' out' :
  kw_loop sp kw set size i c out = inr (c', out') -> length out' = length out.
Proof.
  revert i c out. induction sp as [|s sp IH]; intros i c out H; cbn in H;
    [injection H as <- <-; done|].
  destruct (Nat.eqb c size); [injection H as <- <-; done|].
  destruct (kw !! spec_name s) as [v|]; [|eauto].
  destruct (Z.testbit set (Z.of_nat i)); [discriminate|].
  destruct (parse_arg s v i out) as [e|o] eqn:E; [discriminate|].
  rewrite (IH _ _ _ H). eapply parse_arg_length; eauto.
Qed.

Lemma pos_loop_trace sp args i set out set' out' :
  pos_loop sp args i set out = inr (set', out') ->
  forall j, out' !! j = out !! j \/
    exists k s x o o', j = (i + k)%nat /\ sp !! k = Some s /\ args !! k = Some x /\
      x <> ANone /\ length o = length out /\ parse_arg s x j o = inr o' /\ out' !! j = o' !! j.
Proof.
  revert args i set out. induction sp as [|s sp IH]; intros [|a args] i set out H j;
    cbn in H; try (injection H as <- <-; auto).
  destruct (parse_arg s a i out) as [e|o] eqn:E; [discriminate|].
  pose proof (parse_arg_length _ _ _ _ _ E) as Hl.
  destruct (IH _ _ _ _ H j) as [Hj | (k & s' & x & o0 & o' & -> & Hs & Hx & Hn & Hlo & Hp & Ho)].
  - destruct (parse_arg_shape _ _ _ _ _ E) as [-> | [Hn [sl ->]]]; [by left|].
    destruct (decide (j = i)) as [->|Hne].
    + right. exists 0%nat, s, a, out, (<[i:=sl]> out). rewrite Nat.add_0_r. auto 7.
    + left. rewrite Hj. by apply list_lookup_insert_ne.
  - right. exists (S k), s', x, o0, o'. rewrite Hlo, Hl. repeat split; auto; lia.
Qed.

Lemma kw_loop_trace sp kw set size i c out c' out' :
  kw_loop sp kw set size i c out = inr (c', out') ->
  forall j, out' !! j = out !! j \/
    exists k s x o o', j = (i + k)%nat /\ sp !! k = Some s /\ kw !! spec_name s = Some x /\
      x <> ANone /\ length o = length out /\ parse_arg s x j o = inr o' /\ out' !! j = o' !! j.
Proof.
  revert i c out. induction sp as [|s sp IH]; intros i c out H j; cbn in H;
    [injection H as <- <-; auto|].
  destruct (Nat.eqb c size); [injection H as <- <-; auto|].
  destruct (kw !! spec_name s) as [v|] eqn:Ek.
  2:{ destruct (IH _ _ _ H j) as [Hj | (k & s' & x & o0 & o' & -> & Hs & Hx & Hn & Hlo & Hp & Ho)];
      [by left|]. right. exists (S k), s', x, o0, o'. repeat split; auto; lia. }
  destruct (Z.testbit set (Z.of_nat i)); [discriminate|].
  destruct (parse_arg s v i out) as [e|o] eqn:E; [discriminate|].
  pose proof (parse_arg_length _ _ _ _ _ E) as Hl.
  destruct (IH _ _ _ H j) as [Hj | (k & s' & x & o0 & o' & -> & Hs & Hx & Hn & Hlo & Hp & Ho)].
  - destruct (parse_arg_shape _ _ _ _ _ E) as [-> | [Hn [sl ->]]]; [by left|].
    destruct (decide (j = i)) as [->|Hne].
    + right. exists 0%nat, s, v, out, (<[i:=sl]> out). rewrite Nat.add_0_r. auto 7.
    + left. rewrite Hj. by apply list_lookup_insert_ne.
  - right. exists (S k), s', x, o0, o'. rewrite Hlo, Hl. repeat split; auto; lia.
Qed.

Lemma parse_args_trace v spec args kwds out out' :
  parse_args v spec args kwds out = inr out' ->
  forall j, out' !! j = out !! j \/
    exists s x o o', spec !! j = Some s /\ x <> ANone /\
      (args !! j = Some x \/ exists m, kwds = Some m /\ m !! spec_name s = Some x) /\
      length o = length out /\ parse_arg s x j o = inr o' /\ out' !! j = o' !! j.
Proof.
  unfold parse_args. intros H j.
  destruct v; [|discriminate]. destruct (Nat.ltb _ _); [discriminate|].
  destruct (pos_loop spec args 0 0 out) as [e|[set out1]] eqn:Ep; [discriminate|].
  pose proof (pos_loop_trace _ _ _ _ _ _ _ Ep j) as Tp.
  pose proof (pos_loop_length _ _ _ _ _ _ _ Ep) as Lp.
  assert (Hp : out1 !! j = out !! j \/
    exists s x o o', spec !! j = Some s /\ x <> ANone /\
      (args !! j = Some x \/ exists m, kwds = Some m /\ m !! spec_name s = Some x) /\
      length o = length out /\ parse_arg s x j o = inr o' /\ out1 !! j = o' !! j).
  { destruct Tp as [?|(k & s & x & o & o' & -> & Hs & Hx & Hn & Hlo & Hpa & Ho)]; [by left|].
    right. exists s, x, o, o'. auto 8. }
  destruct kwds as [kw|]; [|injection H as <-; exact Hp].
  destruct (kw_loop spec kw set (size kw) 0 0 out1) as [e|[c out2]] eqn:Ek; [discriminate|].
  destruct (Nat.eqb c (size kw)); [|discriminate]. injection H as <-.
  destruct (kw_loop_trace _ _ _ _ _ _ _ _ _ Ek j) as [Hj|(k & s & x & o & o' & -> & Hs & Hx & Hn & Hlo & Hpa & Ho)].
  - rewrite Hj. exact Hp.
  - right. exists s, x, o, o'. rewrite Hlo, Lp. eauto 10.
Qed.

(** X3. When parse_args succeeds, an output slot whose argument was given neither positionally nor by keyword, or only as None, keeps the default value it had before the call. *)
Theorem parse_args_keeps_default v spec args kwds out out' j :
  parse_args v spec args kwds out = inr out' ->
  (forall x, args !! j = Some x -> x = ANone) ->
  (forall m s x, kwds = Some m -> spec !! j = Some s -> m !! spec_name s = Some x -> x = ANone) ->
  out' !! j = out !! j.
Proof.
  intros H Ha Hk.
  destruct (parse_args_trace _ _ _ _ _ _ H j) as [?|(s & x & o & o' & Hs & Hn & Hx & _)]; [done|].
  destruct Hx as [Hx|(m & -> & Hx)]; exfalso; apply Hn; eauto.
Qed.

Lemma parse_args_keeps_default_witness :
  parse_args true env_begin_spec [AFalse] (Some {["parent" := ANone]}) env_begin_defaults
    = inr [SBool false; SBool false; SNull] /\
  [SBool false; SBool false; SNull] !! 2%nat = env_begin_defaults !! 2%nat.
Proof.
  assert (H : parse_args true env_begin_spec [AFalse] (Some {["parent" := ANone]}) env_begin_defaults
    = inr [SBool false; SBool false; SNull]) by (vm_compute; reflexivity).
  split; [exact H|].
  apply (parse_args_keeps_default true env_begin_spec [AFalse] (Some {["parent" := ANone]}) _ _ 2%nat H).
  - intros x Hx. discriminate Hx.
  - intros m s x Hm Hs Hx. injection Hm as <-. injection Hs as <-. vm_compute in Hx. congruence.
Defined.

Lemma kw_loop_positional sp kw args set0 i c size out :
  (length args <= length sp)%nat ->
  (forall j s, sp !! j = Some s -> kw !! spec_name s = args !! j) ->
  size = (c + length args)%nat ->
  kw_loop sp kw 0 size i c out =
  match pos_loop sp args i set0 out with
  | inl e => inl e
  | inr (_, o) => inr (size, o)
  end.
Proof.
  revert args set0 i c out. induction sp as [|s sp IH]; intros args set0 i c out Hlen Hk Hs.
  - destruct args; [|cbn in Hlen; lia]. cbn in *. subst. f_equal. f_equal. lia.
  - destruct args as [|a args]; cbn.
    + rewrite Hs, Nat.add_0_r, Nat.eqb_refl. done.
    + assert (Hc : Nat.eqb c size = false) by (apply Nat.eqb_neq; cbn in Hs; lia).
      rewrite Hc, (Hk 0%nat s eq_refl). cbn. rewrite Z.testbit_0_l.
      destruct (parse_arg s a i out) as [e|o]; [done|].
      apply IH; cbn in *; [lia| |lia]. intros j s' Hj. exact (Hk (S j) s' Hj).
Qed.

Lemma lookup_zip_names_notin (names : list string) (args : list argval) k :
  k ∉ names -> (list_to_map (zip names args) : gmap string argval) !! k = None.
Proof.
  revert args. induction names as [|n names IH]; intros [|a args] Hk; cbn; try done.
  rewrite lookup_insert_ne; [|set_solver]. apply IH. set_solver.
Qed.

Lemma lookup_zip_names (names : list string) (args : list argval) j n :
  NoDup names -> names !! j = Some n ->
  (list_to_map (zip names args) : gmap string argval) !! n = args !! j.
Proof.
  revert args j. induction names as [|n' names IH]; intros [|a args] j Hnd Hj;
    [done|done| |].
  - destruct j; cbn; [|done]. done.
  - apply NoDup_cons in Hnd as [Hn Hnd]. destruct j as [|j]; cbn in *.
    + injection Hj as <-. by rewrite lookup_insert_eq.
    + rewrite lookup_insert_ne; [by apply IH|].
      intros ->. apply Hn. by eapply list_elem_of_lookup_2.
Qed.

Lemma map_size_zip_names (names : list string) (args : list argval) :
  NoDup names -> (length args <= length names)%nat ->
  size (list_to_map (zip names args) : gmap string argval) = length args.
Proof.
  revert args. induction names as [|n names IH]; intros [|a args] Hnd Hl; cbn in *;
    try (done || lia).
  apply NoDup_cons in Hnd as [Hn Hnd].
  rewrite map_size_insert_None; [rewrite IH; [done|done|lia]|].
  by apply lookup_zip_names_notin.
Qed.

(** X1. When the argument names of a spec are distinct and no more values are given than the spec has arguments, parse_args gives the same result, error or filled output slots, whether the values are passed positionally or as keywords named after the first arguments. *)
Theorem parse_args_keywords_as_positional v spec args out :
  NoDup (map spec_name spec) -> (length args <= length spec)%nat ->
  parse_args v spec [] (Some (list_to_map (zip (map spec_name spec) args))) out =
  parse_args v spec args None out.
Proof.
  intros Hnd Hl. unfold parse_args. destruct v; [|done]. cbn [negb].
  replace (Nat.ltb (length spec) (length args)) with false by (symmetry; apply Nat.ltb_ge; lia).
  replace (Nat.ltb (length spec) (length (@nil argval))) with false by done.
  assert (Hnil : pos_loop spec [] 0 0 out = inr (0, out)) by (destruct spec; done).
  rewrite Hnil. cbn iota beta.
  set (kw := list_to_map _ : gmap string argval).
  rewrite (kw_loop_positional _ kw args 0 0 0 (size kw) out Hl).
  - destruct (pos_loop _ args 0 0 out) as [e|[set o]]; [done|]. by rewrite Nat.eqb_refl.
  - intros j s Hj. apply lookup_zip_names; [done|]. by rewrite list_lookup_fmap, Hj.
  - cbn. subst kw. rewrite map_size_zip_names; [done|done|]. rewrite length_map. done.
Qed.

Lemma parse_args_keywords_as_positional_witness :
  parse_args true env_begin_spec []
    (Some (list_to_map (zip (map spec_name env_begin_spec) [AFalse; ATrue]))) env_begin_defaults =
  parse_args true env_begin_spec [AFalse; ATrue] None env_begin_defaults.
Proof.
  apply parse_args_keywords_as_positional; [apply (bool_decide_unpack _); vm_compute; reflexivity| cbn; lia].
Defined.

Lemma pos_loop_bits sp args i set out set' out' n :
  pos_loop sp args i set out = inr (set', out') -> (length args <= length sp)%nat -> 0 <= n ->
  Z.testbit set' n = Z.testbit set n || ((Z.of_nat i <=? n) && (n <? Z.of_nat (i + length args))).
Proof.
  revert args i set out. induction sp as [|s sp IH]; intros [|a args] i set out H Hl Hn;
    cbn in H, Hl; try lia; try (injection H as <- <-; rewrite Nat.add_0_r;
      destruct (Z.of_nat i <=? n) eqn:E1, (n <? Z.of_nat i) eqn:E2; cbn;
      rewrite ?orb_false_r; try reflexivity; lia).
  destruct (parse_arg s a i out) as [e|o]; [discriminate|].
  rewrite (IH _ _ _ _ H ltac:(lia) Hn), Z.lor_spec, Z.shiftl_1_l, Z.pow2_bits_eqb by lia.
  cbn [length].
  destruct (Z.of_nat i =? n) eqn:E0, (Z.of_nat (S i) <=? n) eqn:E1, (Z.of_nat i <=? n) eqn:E2,
    (n <? Z.of_nat (S i + length args)) eqn:E3, (n <? Z.of_nat (i + S (length args))) eqn:E4;
    rewrite ?orb_true_r, ?orb_false_r; cbn; rewrite ?orb_true_r, ?orb_false_r; try reflexivity;
    rewrite ?Z.eqb_eq, ?Z.eqb_neq, ?Z.leb_le, ?Z.leb_gt, ?Z.ltb_lt, ?Z.ltb_ge in *; lia.
Qed.

Lemma kw_loop_count sp kw set size i c out c' out' :
  kw_loop sp kw set size i c out = inr (c', out') ->
  exists L, c' = (c + length L)%nat /\ L `sublist_of` map spec_name sp /\
    forall x, x ∈ L -> is_Some (kw !! x) /\
      exists k s, sp !! k = Some s /\ spec_name s = x /\ Z.testbit set (Z.of_nat (i + k)) = false.
Proof.
  revert i c out. induction sp as [|s sp IH]; intros i c out H; cbn in H.
  - injection H as <- <-. exists []. rewrite Nat.add_0_r. split; [done|].
    split; [constructor|]. intros x Hx. apply elem_of_nil in Hx. done.
  - destruct (Nat.eqb c size).
    { injection H as <- <-. exists []. rewrite Nat.add_0_r. split; [done|].
      split; [apply sublist_nil_l|]. intros x Hx. apply elem_of_nil in Hx. done. }
    destruct (kw !! spec_name s) as [v|] eqn:Ek.
    + destruct (Z.testbit set (Z.of_nat i)) eqn:Eb; [discriminate|].
      destruct (parse_arg s v i out) as [e|o]; [discriminate|].
      destruct (IH _ _ _ H) as (L & -> & Hsub & HL).
      exists (spec_name s :: L). split; [cbn; lia|]. split; [by apply sublist_skip|].
      intros x Hx. apply elem_of_cons in Hx as [->|Hx].
      * split; [by eexists|]. exists 0%nat, s. rewrite Nat.add_0_r. done.
      * destruct (HL x Hx) as (Hs & k & s' & Hk & Hn & Hb). split; [done|].
        exists (S k), s'. rewrite <- Nat.add_succ_comm. done.
    + destruct (IH _ _ _ H) as (L & -> & Hsub & HL).
      exists L. split; [done|]. split; [by apply sublist_cons|].
      intros x Hx. destruct (HL x Hx) as (Hs & k & s' & Hk & Hn & Hb). split; [done|].
      exists (S k), s'. rewrite <- Nat.add_succ_comm. done.
Qed.

(** X2. When the argument names of a spec are distinct and parse_args succeeds, every keyword it was given is the name of an argument of the spec, and that argument comes after the positional values given. *)
Theorem parse_args_keywords_known v spec args kw out out' k x :
  NoDup (map spec_name spec) ->
  parse_args v spec args (Some kw) out = inr out' ->
  kw !! k = Some x ->
  exists j s, spec !! j = Some s /\ spec_name s = k /\ (length args <= j)%nat.
Proof.
  intros Hnd H Hk. unfold parse_args in H.
  destruct v; [|discriminate]. destruct (Nat.ltb _ _) eqn:Elt; [discriminate|].
  apply Nat.ltb_ge in Elt.
  destruct (pos_loop spec args 0 0 out) as [e|[set out1]] eqn:Ep; [discriminate|].
  destruct (kw_loop spec kw set (size kw) 0 0 out1) as [e|[c out2]] eqn:Ek; [discriminate|].
  destruct (Nat.eqb c (size kw)) eqn:Ec; [|discriminate]. apply Nat.eqb_eq in Ec.
  destruct (kw_loop_count _ _ _ _ _ _ _ _ _ Ek) as (L & Hc & Hsub & HL).
  assert (HndL : NoDup L) by (eapply sublist_NoDup; eauto).
  assert (Hset : (list_to_set L : gset string) = dom kw).
  { apply set_subseteq_size_eq.
    - intros y Hy. apply elem_of_list_to_set in Hy. apply elem_of_dom. by apply HL.
    - rewrite size_list_to_set, size_dom by done. lia. }
  assert (HkL : k ∈ L).
  { apply (elem_of_list_to_set (C := gset string)). rewrite Hset. apply elem_of_dom. by eexists. }
  destruct (HL k HkL) as (_ & j & s & Hj & Hn & Hb).
  exists j, s. split; [done|]. split; [done|].
  rewrite (pos_loop_bits _ _ _ _ _ _ _ (Z.of_nat (0 + j)) Ep Elt ltac:(lia)) in Hb.
  rewrite Z.testbit_0_l in Hb. cbn in Hb.
  destruct (Z.of_nat j <? Z.of_nat (length args)) eqn:E; [|apply Z.ltb_ge in E; lia].
  rewrite andb_true_r in Hb. apply Z.leb_gt in Hb. lia.
Qed.

Lemma parse_args_keywords_known_witness :
  exists j s, env_begin_spec !! j = Some s /\ spec_name s = "write"%string /\ (length [AFalse] <= j)%nat.
Proof.
  apply (parse_args_keywords_known true env_begin_spec [AFalse] {["write" := ATrue]} env_begin_defaults
           [SBool false; SBool true; SNull] "write"%string ATrue); [apply (bool_decide_unpack _); vm_compute; reflexivity | vm_compute; reflexivity
           | vm_compute; reflexivity].
Defined.

Lemma parse_ulong_int z max :
  parse_ulong (AInt z) max =
  if negb (z >=? 0) then inl (TypeError "Integer argument must be >= 0")
  else if negb (z <=? max) then inl (TypeError "Integer argument exceeds limit.")
  else inr (Z.land z (Z.ones 64)).
Proof. reflexivity. Qed.

(** X5. For an integer argument (ARG_INT with limit INT_MAX, or ARG_SIZE with limit SIZE_MAX) given as an int z, parse_arg raises TypeError 'Integer argument must be >= 0' when z is negative, raises TypeError 'Integer argument exceeds limit.' when z is above the limit, and otherwise stores z unchanged in the argument's slot. *)
Theorem parse_arg_integer_bounds s z i out lim :
  (spec_type s = ARG_INT /\ lim = INT_MAX \/ spec_type s = ARG_SIZE /\ lim = SIZE_MAX) ->
  (z < 0 -> parse_arg s (AInt z) i out = inl (TypeError "Integer argument must be >= 0")) /\
  (lim < z -> parse_arg s (AInt z) i out = inl (TypeError "Integer argument exceeds limit.")) /\
  (0 <= z <= lim -> parse_arg s (AInt z) i out = inr (<[i := SInt z]> out)).
Proof.
  intros Ht. unfold parse_arg, to_int. rewrite !parse_ulong_int.
  destruct Ht as [[-> ->] | [-> ->]]; unfold INT_MAX, SIZE_MAX; rewrite Z.geb_leb;
    repeat split; intros Hz;
    repeat match goal with |- context [?a <=? ?b] => destruct (Z.leb_spec a b) end;
    cbn; try lia; try reflexivity.
  all: assert (E64 : Z.land z (Z.ones 64) = z)
         by (rewrite Z.land_ones by lia; apply Z.mod_small; cbn; lia); rewrite E64; try reflexivity.
  assert (E32 : Z.land z (Z.ones 32) = z)
    by (rewrite Z.land_ones by lia; apply Z.mod_small; cbn; lia); rewrite E32.
  destruct (z >=? 2 ^ 31) eqn:E; [apply Z.geb_le in E; cbn in E; lia|done].
Qed.

Lemma parse_arg_integer_bounds_witness :
  parse_arg (mkArgspec ARG_INT "mode") (AInt 420) 7%nat env_new_defaults =
    inr (<[7%nat := SInt 420]> env_new_defaults).
Proof.
  destruct (parse_arg_integer_bounds (mkArgspec ARG_INT "mode") 420 7%nat env_new_defaults INT_MAX
              (or_introl (conj eq_refl eq_refl))) as (_ & _ & H).
  apply H. unfold INT_MAX. lia.
Defined.

Lemma parse_ulong_cases v max l :
  parse_ulong v max = inr l ->
  (exists r, v = AReal r /\ l = Z.ones 64) \/
  (exists z, as_long v = Some z /\ 0 <= z <= max /\ l = Z.land z (Z.ones 64)).
Proof.
  destruct v as [| | | z| | | | | |r|]; cbn; intros H; try discriminate H;
    repeat match type of H with context [if ?b then _ else _] =>
      let E := fresh "E" in destruct b eqn:E end;
    try discriminate H; injection H as <-;
    (first [left; eexists; split; reflexivity
           |right; eexists; (split; [reflexivity|]); split; [|reflexivity];
            rewrite ?negb_false_iff, ?Z.geb_le, ?Z.leb_le in *; lia]).
Qed.

Lemma parse_ulong_range v max l :
  parse_ulong v max = inr l -> 0 <= max < 2 ^ 64 -> 0 <= l <= max \/ l = Z.ones 64.
Proof.
  intros H Hm. destruct (parse_ulong_cases _ _ _ H) as [(r & _ & ->)|(z & _ & Hz & ->)]; [by right|].
  left. rewrite Z.land_ones, Z.mod_small by lia. lia.
Qed.

Lemma to_int_ones : to_int (Z.ones 64) = -1.
Proof. reflexivity. Qed.

Lemma to_int_small l : 0 <= l <= INT_MAX -> to_int l = l.
Proof.
  unfold to_int, INT_MAX. intros Hl.
  rewrite Z.land_ones, Z.mod_small by (cbn; lia).
  destruct (l >=? 2 ^ 31) eqn:E; [apply Z.geb_le in E; cbn in E; lia|done].
Qed.

Lemma parse_arg_int_slot s x j o o' lim wrap :
  (spec_type s = ARG_INT /\ lim = INT_MAX /\ wrap = -1 \/
   spec_type s = ARG_SIZE /\ lim = SIZE_MAX /\ wrap = SIZE_MAX) ->
  (j < length o)%nat -> x <> ANone -> parse_arg s x j o = inr o' ->
  exists z, o' !! j = Some (SInt z) /\ (0 <= z <= lim \/ z = wrap).
Proof.
  intros Ht Hj Hx. unfold parse_arg.
  destruct Ht as [(-> & -> & ->)|(-> & -> & ->)]; destruct x; try congruence;
    destruct (parse_ulong _ _) as [e|l] eqn:E; try discriminate;
    intros [= <-];
    destruct (parse_ulong_range _ _ _ E ltac:(unfold INT_MAX, SIZE_MAX; cbn; lia)) as [R| ->];
    rewrite list_lookup_insert_eq by done; eexists; (split; [reflexivity|]);
    (match goal with
     | R : 0 <= _ <= _ |- _ =>
         left; try (rewrite to_int_small; unfold INT_MAX); unfold INT_MAX, SIZE_MAX in *; lia
     | _ => right; reflexivity
     end).
Qed.

Lemma parse_args_int_field v spec args kwds out out' j s lim wrap :
  parse_args v spec args kwds out = inr out' -> spec !! j = Some s ->
  (spec_type s = ARG_INT /\ lim = INT_MAX /\ wrap = -1 \/
   spec_type s = ARG_SIZE /\ lim = SIZE_MAX /\ wrap = SIZE_MAX) ->
  (exists z, out !! j = Some (SInt z) /\ (0 <= z <= lim \/ z = wrap)) ->
  exists z, out' !! j = Some (SInt z) /\ (0 <= z <= lim \/ z = wrap).
Proof.
  intros H Hs Ht Hd.
  destruct (parse_args_trace _ _ _ _ _ _ H j) as [->|(s' & x & o & o' & Hs' & Hn & _ & Hl & Hp & ->)];
    [done|].
  rewrite Hs in Hs'. injection Hs' as <-.
  eapply parse_arg_int_slot; eauto. rewrite Hl. destruct Hd as [z [Hz _]].
  by eapply lookup_lt_Some.
Qed.

Lemma slot_int_of (out : list slot) (j : nat) z : out !! j = Some (SInt z) -> slot_int (out !!! j) = z.
Proof. intros H. by rewrite (list_lookup_total_correct _ _ _ H). Qed.

(** X9. Whenever env_new's arguments parse, the map size it configures lies in 0..SIZE_MAX, and each of the mode, max_readers and max_dbs lies in 0..INT_MAX or is -1; -1 is what parse_ulong's unchecked PyLong_AsUnsignedLongLongMask result becomes when the argument is a float or Fraction inside the range. *)
Theorem env_new_sizes_in_range args kwds c :
  env_new_config args kwds = inr c ->
  0 <= cfg_map_size c <= SIZE_MAX /\ (0 <= cfg_mode c <= INT_MAX \/ cfg_mode c = -1) /\
  (0 <= cfg_max_readers c <= INT_MAX \/ cfg_max_readers c = -1) /\
  (0 <= cfg_max_dbs c <= INT_MAX \/ cfg_max_dbs c = -1).
Proof.
  unfold env_new_config.
  destruct (parse_args true env_new_spec args kwds env_new_defaults) as [e|out] eqn:E; [discriminate|].
  destruct (out !!! 0%nat); try discriminate. intros [= <-]. cbn.
  destruct (parse_args_int_field _ _ _ _ _ _ 1%nat _ SIZE_MAX SIZE_MAX E eq_refl ltac:(auto)
    ltac:(eexists; split; [reflexivity|unfold SIZE_MAX; lia])) as (z1 & H1 & R1).
  destruct (parse_args_int_field _ _ _ _ _ _ 7%nat _ INT_MAX (-1) E eq_refl ltac:(auto)
    ltac:(eexists; split; [reflexivity|unfold INT_MAX; lia])) as (z7 & H7 & R7).
  destruct (parse_args_int_field _ _ _ _ _ _ 10%nat _ INT_MAX (-1) E eq_refl ltac:(auto)
    ltac:(eexists; split; [reflexivity|unfold INT_MAX; lia])) as (z10 & H10 & R10).
  destruct (parse_args_int_field _ _ _ _ _ _ 11%nat _ INT_MAX (-1) E eq_refl ltac:(auto)
    ltac:(eexists; split; [reflexivity|unfold INT_MAX; lia])) as (z11 & H11 & R11).
  rewrite (slot_int_of _ _ _ H1), (slot_int_of _ _ _ H7), (slot_int_of _ _ _ H10),
    (slot_int_of _ _ _ H11). unfold SIZE_MAX in *. intuition (subst; lia).
Qed.

Lemma env_new_sizes_in_range_witness :
  let c := mkEnvConfig [Byte.x61] 4096 126 0 false 2244608 420 true in
  0 <= cfg_map_size c <= SIZE_MAX /\ (0 <= cfg_mode c <= INT_MAX \/ cfg_mode c = -1) /\
  (0 <= cfg_max_readers c <= INT_MAX \/ cfg_max_readers c = -1) /\
  (0 <= cfg_max_dbs c <= INT_MAX \/ cfg_max_dbs c = -1).
Proof.
  intros c.
  assert (H : env_new_config [ABytes [Byte.x61]; AInt 4096] (Some (<["readonly" := ATrue]> {["subdir" := AFalse]}))
    = inr c) by (vm_compute; reflexivity).
  exact (env_new_sizes_in_range _ _ c H).
Defined.

(** X20. Environment(path, mode=r) with a float or Fraction r that compares as >= 0 and <= INT_MAX parses without error, and the mode it configures is -1 rather than r: parse_ulong accepts the comparisons and keeps PyLong_AsUnsignedLongLongMask's error result 2^64-1, which the ARG_INT conversion turns into -1. *)
Theorem env_new_real_mode_wraps v b r :
  ArgParse.val_from_buffer v = inr b ->
  real_ge_0 r = true -> real_le r INT_MAX = true ->
  env_new_config [v] (Some {["mode" := AReal r]}) =
  inr (mkEnvConfig b 10485760 126 0 true MDB_NOTLS (-1) false).
Proof.
  intros Hv Hge Hle. unfold env_new_config, parse_args. rewrite !map_size_singleton.
  destruct v; cbn in Hv; try discriminate; injection Hv as <-; cbn;
    repeat (rewrite lookup_singleton_ne by done; cbn).
  all: rewrite lookup_singleton_eq; cbn; rewrite Hge; cbn; rewrite Hle; reflexivity.
Qed.

Lemma env_new_real_mode_wraps_witness :
  env_new_config [ABytes [Byte.x61]] (Some {["mode" := AReal (RFinite 420 1)]}) =
  inr (mkEnvConfig [Byte.x61] 10485760 126 0 true MDB_NOTLS (-1) false).
Proof.
  apply (env_new_real_mode_wraps (ABytes [Byte.x61]) [Byte.x61] (RFinite 420 1));
    reflexivity.
Defined.

(** X6. Environment() fails in its argument phase when no path is given: with no positional value and no keyword path, or with both None, env_new raises an error before creating any environment. *)
Theorem env_new_requires_path args kwds :
  (forall x, args !! 0%nat = Some x -> x = ANone) ->
  (forall m x, kwds = Some m -> m !! "path"%string = Some x -> x = ANone) ->
  exists e, env_new_config args kwds = inl e.
Proof.
  intros Ha Hk. unfold env_new_config.
  destruct (parse_args true env_new_spec args kwds env_new_defaults) as [e|out] eqn:E; [by eexists|].
  destruct (parse_args_trace _ _ _ _ _ _ E 0%nat) as [H0|(s & x & o & o' & Hs & Hn & Hx & _)].
  - rewrite (list_lookup_total_correct _ _ _ H0). by eexists.
  - injection Hs as <-. exfalso. apply Hn.
    destruct Hx as [Hx|(m & -> & Hx)]; eauto.
Qed.

Lemma env_new_requires_path_witness :
  exists e, env_new_config [ANone] (Some {["map_size" := AInt 4096]}) = inl e.
Proof.
  apply env_new_requires_path.
  - intros x Hx. injection Hx as <-. reflexivity.
  - intros m x Hm Hx. injection Hm as <-. vm_compute in Hx. discriminate Hx.
Defined.

(** X7. Environment(path) with only a buffer path opens with the documented defaults: map size 10485760, 126 readers, 0 named databases, directory creation on, mode 0644, not read-only, and only the MDB_NOTLS flag. *)
Theorem env_new_default_config v b :
  ArgParse.val_from_buffer v = inr b ->
  env_new_config [v] None =
  inr (mkEnvConfig b 10485760 126 0 true MDB_NOTLS 420 false).
Proof. destruct v; cbn; try discriminate; intros [= ->]; reflexivity. Qed.

(** X8. Whenever env_new's arguments parse, the flags passed to mdb_env_open always include MDB_NOTLS, include MDB_RDONLY exactly when readonly is set, and never include MDB_NOSUBDIR when the directory is to be created. *)
Theorem env_new_flag_bits args kwds c :
  env_new_config args kwds = inr c ->
  Z.testbit (cfg_flags c) 21 = true /\
  Z.testbit (cfg_flags c) 17 = cfg_readonly c /\
  (cfg_mkdir c = true -> Z.testbit (cfg_flags c) 14 = false).
Proof.
  unfold env_new_config.
  destruct (parse_args true env_new_spec args kwds env_new_defaults) as [e|out]; [discriminate|].
  destruct (out !!! 0%nat); try discriminate. intros [= <-]. cbn [cfg_flags cfg_readonly cfg_mkdir].
  unfold env_new_flags.
  repeat match goal with |- context [slot_bool ?x] => destruct (slot_bool x) end;
    cbn; intuition discriminate.
Qed.

Lemma env_new_flag_bits_witness :
  let c := mkEnvConfig [Byte.x61] 4096 126 0 false 2244608 420 true in
  Z.testbit (cfg_flags c) 21 = true /\ Z.testbit (cfg_flags c) 17 = cfg_readonly c /\
  (cfg_mkdir c = true -> Z.testbit (cfg_flags c) 14 = false).
Proof.
  intros c.
  assert (H : env_new_config [ABytes [Byte.x61]; AInt 4096] (Some (<["readonly" := ATrue]> {["subdir" := AFalse]}))
    = inr c) by (vm_compute; reflexivity).
  exact (env_new_flag_bits _ _ c H).
Defined.

Lemma env_new_default_config_witness :
  env_new_config [ABytes [Byte.x61]] None = inr (mkEnvConfig [Byte.x61] 10485760 126 0 true MDB_NOTLS 420 false).
Proof. exact (env_new_default_config (ABytes [Byte.x61]) [Byte.x61] eq_refl). Defined.

End ArgParseFacts.

(** X4. Environment.begin called with only the keyword write=x, parsed by parse_args, behaves as begin with buffers false, no parent, and write set exactly when x is the object True; any other value of x gives a read-only transaction. *)
Theorem env_begin_write_only_true eng self x w :
  ArgParse.env_begin eng self [] (Some {["write" := x]}) w =
  env_begin eng self (mkBeginArgs None (Some (ArgParse.is_py_true x)) None) w.
Proof.
  unfold ArgParse.env_begin, env_begin.
  unfold mbind, M_bind. destruct (get_valid self w) as [w1 [e|v]]; [done|].
  destruct v; [|done]. cbn.
  destruct x; reflexivity.
Qed.

(** * Wrapper methods *)

(** X10. For a non-NULL parent, unlink_child undoes link_child: linking a child to a parent and then unlinking it gives back the original state. *)
Theorem unlink_after_link p c w : p <> NULL -> unlink_child p c (link_child p c w) = w.
Proof.
  intros Hp. unfold unlink_child. destruct (Nat.eqb_spec p NULL); [contradiction|].
  unfold link_child, upd_children, upd_obj.
  destruct (heap w !! p) as [o|] eqn:E; cbn.
  - rewrite lookup_insert_eq. cbn. rewrite Nat.eqb_refl. cbn.
    rewrite insert_insert_eq. destruct o as [chl v b]; cbn.
    rewrite insert_id by exact E. destruct w; reflexivity.
  - rewrite E. reflexivity.
Qed.

Lemma unlink_after_link_witness : unlink_child 3%nat 9%nat (link_child 3%nat 9%nat ex_w) = ex_w.
Proof. apply unlink_after_link. unfold NULL. lia. Defined.

Lemma Logs_gets_loop eng txn dbi keys :
  forall dict, Logs read_call (gets_loop eng txn dbi keys dict).
Proof. induction keys as [|[k|n] keys IH]; intros dict; simpl; logs; exact I. Qed.

(** X11. Environment.get and Environment.gets never write: the only engine calls they make are a read-only transaction begin, lookups and a transaction abort. *)
Theorem env_get_read_only eng self a keys db :
  Logs read_call (run_op eng (OEnvGet self a)) /\
  Logs read_call (run_op eng (OEnvGets self keys db)).
Proof.
  split; simpl.
  - unfold env_get, generic_get. logs; try exact I; reflexivity.
  - unfold env_gets. logs; try exact I; try reflexivity. apply Logs_gets_loop.
Qed.

(** X13. On a valid cursor, first, last, next and prev make one engine call, mdb_cursor_get with their operator. On success the cursor is positioned at the returned item and True is returned; otherwise the cursor becomes unpositioned and the call returns False on MDB_NOTFOUND or raises EngineError for any other code. *)
Theorem cursor_move_result eng w self chl c mk op :
  heap w !! self = Some (mkObject chl true (CursorObject c)) ->
  (mk, op) ∈ [(OCursorFirst, MDB_FIRST); (OCursorLast, MDB_LAST);
              (OCursorNext, MDB_NEXT); (OCursorPrev, MDB_PREV)] ->
  let r := mdb_cursor_get eng (trace w) (curs_curs c) (curs_key c) op in
  let w1 := log (ECursorGet (curs_curs c) (curs_key c) op) w in
  run_op eng (mk self) w =
    if r.1 =? 0 then (set_curs_pos self true r.2.1 r.2.2 w1, inr (Some (PyBool true)))
    else (set_curs_pos self false [] [] w1,
          if r.1 =? MDB_NOTFOUND then inr (Some (PyBool false))
          else inl (EngineError "mdb_cursor_get" r.1)).
Proof.
  intros Hs Hin. pose proof (cursor_at_of _ _ _ _ _ Hs) as Hc. cbv zeta.
  assert (Hop : is_get_current op = false /\
    run_op eng (mk self) = returning (check_valid self ;; _cursor_get eng self op)).
  { rewrite !elem_of_cons, elem_of_nil in Hin.
    destruct Hin as [Hin|[Hin|[Hin|[Hin|[]]]]]; injection Hin as -> ->; split; reflexivity. }
  destruct Hop as [Hop ->].
  unfold returning, _cursor_get, _cursor_get_c, check_valid, get_obj, get_cursor, call, lift,
    err_set, throw, mret, M_ret. unfold mbind, M_bind. crunch_full.
  destruct (mdb_cursor_get eng (trace w) (curs_curs c) (curs_key c) op) as [rc [k v]]. cbn.
  destruct (rc =? 0); cbn.
  - erewrite cursor_at_set_curs_pos; [|exact Hc]. reflexivity.
  - destruct (rc =? MDB_NOTFOUND); cbn.
    + erewrite cursor_at_set_curs_pos; [|exact Hc]. reflexivity.
    + rewrite Hop, andb_false_r. reflexivity.
Qed.

Lemma cursor_move_result_witness :
  run_op (eng_rc MDB_NOTFOUND) (OCursorLast 4%nat) ex_w =
    (set_curs_pos 4%nat false [] [] (log (ECursorGet 70%nat [] MDB_LAST) ex_w), inr (Some (PyBool false))).
Proof.
  exact (cursor_move_result (eng_rc MDB_NOTFOUND) ex_w 4%nat [] (ex_curs false) OCursorLast MDB_LAST eq_refl
           ltac:(right; left)).
Defined.

(** X14. Cursor.delete on a valid but unpositioned cursor returns False and changes nothing: no engine call is made. *)
Theorem cursor_delete_unpositioned eng w self chl c :
  heap w !! self = Some (mkObject chl true (CursorObject c)) -> curs_positioned c = false ->
  run_op eng (OCursorDelete self) w = (w, inr (Some (PyBool false))).
Proof.
  intros Hs Hp. pose proof (cursor_at_of _ _ _ _ _ Hs) as Hc.
  simpl. unfold returning, cursor_delete, check_valid, get_obj, get_cursor, mret, M_ret.
  unfold mbind, M_bind. crunch_full. rewrite Hp. reflexivity.
Qed.

Lemma cursor_delete_unpositioned_witness :
  run_op (eng_rc 0) (OCursorDelete 4%nat) ex_w = (ex_w, inr (Some (PyBool false))).
Proof. exact (cursor_delete_unpositioned (eng_rc 0) ex_w 4%nat [] (ex_curs false) eq_refl eq_refl). Defined.

(** X15. Cursor.delete on a positioned cursor calls mdb_cursor_del. If that fails it raises EngineError mdb_cursor_del; if it succeeds the cursor is refreshed with MDB_GET_CURRENT and delete returns True when that answer is success, MDB_NOTFOUND or EINVAL. *)
Theorem cursor_delete_positioned eng w self chl c :
  heap w !! self = Some (mkObject chl true (CursorObject c)) -> curs_positioned c = true ->
  let rd := mdb_cursor_del eng (trace w) (curs_curs c) 0 in
  let rg := (mdb_cursor_get eng (ECursorDel (curs_curs c) 0 :: trace w) (curs_curs c)
               (curs_key c) MDB_GET_CURRENT).1 in
  (rd <> 0 -> (run_op eng (OCursorDelete self) w).2 = inl (EngineError "mdb_cursor_del" rd)) /\
  (rd = 0 -> (run_op eng (OCursorDelete self) w).2 =
     if (rg =? 0) || (rg =? MDB_NOTFOUND) || (rg =? EINVAL) then inr (Some (PyBool true))
     else inl SystemError).
Proof.
  intros Hs Hp. pose proof (cursor_at_of _ _ _ _ _ Hs) as Hc. cbv zeta.
  simpl. unfold returning, cursor_delete, _cursor_get_c, attempt, check_valid, get_obj, get_cursor,
    call, lift, err_set, throw, mret, M_ret. unfold mbind, M_bind. crunch_full. rewrite Hp.
  destruct (mdb_cursor_del eng (trace w) (curs_curs c) 0) as [|pd|nd] eqn:Ed; split; intros Hrd;
    try congruence; cbn; try reflexivity.
  change (cursor_at (log (ECursorDel (curs_curs c) 0) w) self) with (cursor_at w self).
  rewrite Hc. cbn.
  destruct (mdb_cursor_get eng _ (curs_curs c) (curs_key c) MDB_GET_CURRENT) as [rc [k v]]. cbn.
  destruct (rc =? 0) eqn:E0; cbn; [reflexivity|].
  destruct (rc =? MDB_NOTFOUND); cbn; [reflexivity|].
  destruct (rc =? EINVAL); reflexivity.
Qed.

Lemma cursor_delete_positioned_witness :
  (run_op (eng_rc 0) (OCursorDelete 4%nat) (ex_world false true true)).2 = inr (Some (PyBool true)).
Proof.
  destruct (cursor_delete_positioned (eng_rc 0) (ex_world false true true) 4%nat [] (ex_curs true)
              eq_refl eq_refl) as [_ H].
  exact (H eq_refl).
Defined.

Lemma trans_at_upd_obj_ne w p q f : p <> q -> trans_at (upd_obj p f w) q = trans_at w q.
Proof. intros Hne. unfold trans_at. rewrite heap_upd_obj, decide_False by exact Hne. reflexivity. Qed.

Lemma heap_upd_body_self w p chl v b F :
  heap w !! p = Some (mkObject chl v b) -> heap (upd_body p F w) !! p = Some (mkObject chl v (F b)).
Proof. intros E. unfold upd_body. rewrite heap_upd_obj, decide_True by reflexivity. rewrite E. reflexivity. Qed.

(** X16. Cursor.get(key, default) on a valid cursor looks the key up with MDB_SET_KEY. When found, it returns the value (as a buffer if the transaction uses buffers) and leaves the cursor positioned on it; when not found, it returns the default (None if not given) and leaves the cursor unpositioned. *)
Theorem cursor_get_found_or_default eng w self chl c t key dflt :
  heap w !! self = Some (mkObject chl true (CursorObject c)) ->
  trans_at w (curs_trans c) = Some t ->
  let r := mdb_cursor_get eng (trace w) (curs_curs c) key MDB_SET_KEY in
  let w' := (run_op eng (OCursorGet self (Some key) dflt) w).1 in
  (r.1 = 0 ->
     (run_op eng (OCursorGet self (Some key) dflt) w).2 =
       inr (Some (if trans_buffers t then PyBuffer r.2.2 else PyBytes r.2.2)) /\
     cursor_at w' self = Some (mkCursorFields (curs_trans c) true (curs_curs c) r.2.1 r.2.2)) /\
  (r.1 = MDB_NOTFOUND ->
     (run_op eng (OCursorGet self (Some key) dflt) w).2 = inr (Some (default PyNone dflt)) /\
     cursor_at w' self = Some (mkCursorFields (curs_trans c) false (curs_curs c) [] [])).
Proof.
  intros Hs Ht. cbv zeta.
  assert (Hne : curs_trans c <> self).
  { intros E. rewrite E in Ht. unfold trans_at in Ht. rewrite Hs in Ht. discriminate. }
  set (w1 := set_curs_key self key w).
  assert (H1 : heap w1 !! self = Some (mkObject chl true (CursorObject
             (mkCursorFields (curs_trans c) (curs_positioned c) (curs_curs c) key (curs_val c)))))
    by (unfold w1, set_curs_key; exact (heap_upd_body_self _ _ _ _ _ _ Hs)).
  assert (T1 : trans_at w1 (curs_trans c) = Some t) by (unfold w1, set_curs_key, upd_body;
    rewrite trans_at_upd_obj_ne by congruence; exact Ht).
  simpl. unfold returning, cursor_get, cursor_value, _cursor_get_c, check_valid, get_valid, parse_args,
    get_obj, get_cursor, get_trans, call, lift, err_set, throw, mret, M_ret.
  unfold mbind, M_bind. crunch_full.
  fold w1.
  set (c1 := mkCursorFields (curs_trans c) (curs_positioned c) (curs_curs c) key (curs_val c)) in *.
  pose proof (cursor_at_of _ _ _ _ _ H1) as C1. rewrite C1. cbn.
  replace (trace w1) with (trace w) by (unfold w1, set_curs_key, upd_body; symmetry; apply upd_obj_trace).
  set (w2 := log (ECursorGet (curs_curs c) key MDB_SET_KEY) w1).
  assert (C2 : cursor_at w2 self = Some c1) by exact C1.
  assert (H2 : heap w2 !! self = Some (mkObject chl true (CursorObject c1))) by exact H1.
  assert (T2 : trans_at w2 (curs_trans c) = Some t) by exact T1.
  destruct (mdb_cursor_get eng (trace w) (curs_curs c) key MDB_SET_KEY) as [rc [k v]]. cbn.
  split; intros Hrc; subst rc; cbn.
  - set (w3 := set_curs_pos self true k v w2).
    assert (C3 : cursor_at w3 self = Some (mkCursorFields (curs_trans c) true (curs_curs c) k v))
      by (exact (cursor_at_set_curs_pos _ _ _ _ _ _ C2)).
    assert (H3 : heap w3 !! self = Some (mkObject chl true (CursorObject
              (mkCursorFields (curs_trans c) true (curs_curs c) k v))))
      by (unfold w3, set_curs_pos; exact (heap_upd_body_self _ _ _ _ _ _ H2)).
    assert (T3 : trans_at w3 (curs_trans c) = Some t)
      by (unfold w3, set_curs_pos, upd_body; rewrite trans_at_upd_obj_ne by congruence; exact T2).
    rewrite C3. cbn. rewrite H3. cbn. rewrite C3. cbn. rewrite T3. cbn.
    destruct (trans_buffers t); cbn; rewrite C3; split; reflexivity.
  - replace (MDB_NOTFOUND =? 0) with false by reflexivity. cbn.
    set (w3 := set_curs_pos self false [] [] w2).
    assert (C3 : cursor_at w3 self = Some (mkCursorFields (curs_trans c) false (curs_curs c) [] []))
      by (exact (cursor_at_set_curs_pos _ _ _ _ _ _ C2)).
    rewrite C3. cbn. rewrite C3. split; reflexivity.
Qed.

Lemma cursor_get_found_or_default_witness :
  (run_op (eng_rc MDB_NOTFOUND) (OCursorGet 4%nat (Some [Byte.x61]) (Some (PyOther 7))) ex_w).2
    = inr (Some (PyOther 7)).
Proof.
  destruct (cursor_get_found_or_default (eng_rc MDB_NOTFOUND) ex_w 4%nat [] (ex_curs false) ex_trans
              [Byte.x61] (Some (PyOther 7)) eq_refl eq_refl) as [_ H].
  exact (proj1 (H eq_refl)).
Defined.

Ltac dsum H :=
  repeat (match type of H with
          | context [match ?x with _ => _ end] =>
              lazymatch x with
              | context [match _ with _ => _ end] => fail
              | _ => let E := fresh "E" in destruct x eqn:E
              end
          end; cbn in H; try discriminate H).

Lemma puts_loop_shape eng txn db flags items :
  forall lst w w' l, puts_loop eng txn db flags items lst w = (w', inr l) ->
  exists l2, l = lst ++ l2 /\ length l2 = length items /\ Forall is_pybool l2.
Proof.
  induction items as [|[k v| |n] items IH]; intros lst w w' l H; cbn in H.
  - injection H as _ <-. exists []. rewrite app_nil_r. split; [done|]. split; [done|constructor].
  - unfold mbind, M_bind, val_from_buffer, get_db, call, err_set, throw, mret, M_ret in H.
    destruct k; [|discriminate]. destruct v; [|discriminate]. cbn in H.
    destruct (db_at w db) as [d|]; [|discriminate]. cbn in H.
    destruct (mdb_put _ _ _ _ _ _ _ =? 0); cbn in H.
    + destruct (IH _ _ _ _ H) as (l2 & -> & Hl & Hf). exists (PyBool true :: l2).
      rewrite <- app_assoc. split; [done|]. split; [cbn; lia|]. constructor; [by eexists|done].
    + destruct (_ =? MDB_KEYEXIST); cbn in H; [|discriminate].
      destruct (IH _ _ _ _ H) as (l2 & -> & Hl & Hf). exists (PyBool false :: l2).
      rewrite <- app_assoc. split; [done|]. split; [cbn; lia|]. constructor; [by eexists|done].
  - discriminate.
  - discriminate.
Qed.

(** X18. When Environment.puts returns a list, the list has one entry per item given and every entry is a bool. *)
Theorem env_puts_one_bool_per_item eng self items dupdata overwrite append db w lst :
  (run_op eng (OEnvPuts self (Some items) dupdata overwrite append db) w).2 = inr (Some (PyList lst)) ->
  length lst = length items /\ Forall is_pybool lst.
Proof.
  intros H. simpl in H.
  unfold returning, env_puts, get_env, get_valid, get_obj, parse_args, call, err_set, throw,
    attempt, mret, M_ret in H. unfold mbind, M_bind in H.
  dsum H.
  all: match goal with E : puts_loop _ _ _ _ _ _ _ = (_, inr _) |- _ =>
    destruct (puts_loop_shape _ _ _ _ _ _ _ _ _ E) as (l2 & Hl2 & Hlen & Hf) end;
    injection H as <-; cbn in Hl2; subst; auto.
Qed.

Lemma env_puts_one_bool_per_item_witness :
  length [PyBool true; PyBool true] = length [PutsPair (Buf [Byte.x61]) (Buf [Byte.x31]); PutsPair (Buf [Byte.x62]) (Buf [Byte.x32])]
  /\ Forall is_pybool [PyBool true; PyBool true].
Proof.
  apply (env_puts_one_bool_per_item (eng_rc 0) 1%nat
           [PutsPair (Buf [Byte.x61]) (Buf [Byte.x31]); PutsPair (Buf [Byte.x62]) (Buf [Byte.x32])]
           None None None None ex_w).
  vm_compute. reflexivity.
Defined.

Lemma deletes_loop_shape eng txn db keys :
  forall lst w w' l, deletes_loop eng txn db keys lst w = (w', inr l) ->
  exists l2, l = lst ++ l2 /\ length l2 = length keys /\ Forall is_pybool l2.
Proof.
  induction keys as [|[k|n] keys IH]; intros lst w w' l H; cbn in H.
  - injection H as _ <-. exists []. rewrite app_nil_r. split; [done|]. split; [done|constructor].
  - unfold mbind, M_bind, val_from_buffer, get_db, call, err_set, throw, mret, M_ret in H.
    destruct k; [|discriminate]. cbn in H.
    destruct (db_at w db) as [d|]; [|discriminate]. cbn in H.
    destruct (mdb_del _ _ _ _ _ _ =? 0); cbn in H.
    + destruct (IH _ _ _ _ H) as (l2 & -> & Hl & Hf). exists (PyBool true :: l2).
      rewrite <- app_assoc. split; [done|]. split; [cbn; lia|]. constructor; [by eexists|done].
    + destruct (_ =? MDB_NOTFOUND); cbn in H; [|discriminate].
      destruct (IH _ _ _ _ H) as (l2 & -> & Hl & Hf). exists (PyBool false :: l2).
      rewrite <- app_assoc. split; [done|]. split; [cbn; lia|]. constructor; [by eexists|done].
  - discriminate.
Qed.

(** X19. When Environment.deletes returns a list, the list has one entry per key given and every entry is a bool. *)
Theorem env_deletes_one_bool_per_key eng self keys db w lst :
  (run_op eng (OEnvDeletes self (Some keys) db) w).2 = inr (Some (PyList lst)) ->
  length lst = length keys /\ Forall is_pybool lst.
Proof.
  intros H. simpl in H.
  unfold returning, env_deletes, get_env, get_valid, get_obj, parse_args, call, err_set, throw,
    attempt, mret, M_ret in H. unfold mbind, M_bind in H.
  dsum H.
  all: match goal with E : deletes_loop _ _ _ _ _ _ = (_, inr _) |- _ =>
    destruct (deletes_loop_shape _ _ _ _ _ _ _ _ E) as (l2 & Hl2 & Hlen & Hf) end;
    injection H as <-; cbn in Hl2; subst; auto.
Qed.

Lemma env_deletes_one_bool_per_key_witness :
  length [PyBool false] = length [KeyItem (Buf [Byte.x61])] /\ Forall is_pybool [PyBool false].
Proof.
  apply (env_deletes_one_bool_per_key (eng_rc MDB_NOTFOUND) 1%nat [KeyItem (Buf [Byte.x61])] None ex_w).
  vm_compute. reflexivity.
Defined.

Lemma cursor_at_set_curs_key w p k c : cursor_at w p = Some c ->
  cursor_at (set_curs_key p k w) p = Some (mkCursorFields (curs_trans c) (curs_positioned c) (curs_curs c) k (curs_val c)).
Proof.
  unfold cursor_at, set_curs_key, upd_body. rewrite heap_upd_obj. rewrite decide_True by reflexivity.
  destruct (heap w !! p) as [[chl vl []]|]; simpl; congruence.
Qed.

Lemma cursor_at_log c w p : cursor_at (log c w) p = cursor_at w p.
Proof. reflexivity. Qed.

Lemma upd_obj_iters_next p f w : iters (upd_obj p f w) = iters w /\ next_ptr (upd_obj p f w) = next_ptr w.
Proof. split; [apply upd_obj_iters | apply upd_obj_next]. Qed.

Lemma cursor_iter_from_reverse_unfold eng self k :
  cursor_iter_from eng self (Some k) (Some true) =
  (v ← get_valid self; parse_args v ;;
   lift (set_curs_key self k) ;; _cursor_get_c eng self MDB_SET_RANGE ;;
   c ← get_cursor self;
   (if negb (curs_positioned c) then _cursor_get_c eng self MDB_LAST else mret tt) ;;
   it ← alloc_iter (mkIter self false MDB_PREV VItem);
   mret (PyHandle it)).
Proof. unfold cursor_iter_from. destruct k; reflexivity. Qed.

(** X17. Cursor.iter_from(key, reverse=True) positions the cursor with MDB_SET_RANGE. If that finds a record it makes no other engine call and returns a new iterator that walks backwards with MDB_PREV. If it answers MDB_NOTFOUND it falls back to MDB_LAST: when MDB_LAST finds a record or answers MDB_NOTFOUND (an empty database) it returns that iterator, and when MDB_LAST fails with any other code it raises that engine error. If MDB_SET_RANGE fails with a code other than MDB_NOTFOUND, it raises that error without calling MDB_LAST. *)
Theorem cursor_iter_from_reverse eng w self chl c k :
  heap w !! self = Some (mkObject chl true (CursorObject c)) ->
  let cc := curs_curs c in
  let tr1 := ECursorGet cc k MDB_SET_RANGE :: trace w in
  let rc1 := (mdb_cursor_get eng (trace w) cc k MDB_SET_RANGE).1 in
  let rc2 := (mdb_cursor_get eng tr1 cc [] MDB_LAST).1 in
  let res := run_op eng (OCursorIterFrom self (Some k) (Some true)) w in
  let it := mkIter self false MDB_PREV VItem in
  (rc1 = 0 -> res.2 = inr (Some (PyHandle (next_ptr w))) /\
     trace res.1 = tr1 /\ iters res.1 !! next_ptr w = Some it) /\
  (rc1 = MDB_NOTFOUND ->
     trace res.1 = ECursorGet cc [] MDB_LAST :: tr1 /\
     ((rc2 = 0 \/ rc2 = MDB_NOTFOUND) ->
        res.2 = inr (Some (PyHandle (next_ptr w))) /\ iters res.1 !! next_ptr w = Some it) /\
     (rc2 <> 0 -> rc2 <> MDB_NOTFOUND -> res.2 = inl (EngineError "mdb_cursor_get" rc2))) /\
  (rc1 <> 0 -> rc1 <> MDB_NOTFOUND ->
     trace res.1 = tr1 /\ res.2 = inl (EngineError "mdb_cursor_get" rc1)).
Proof.
  intros Hs. pose proof (cursor_at_of _ _ _ _ _ Hs) as Hc. cbv zeta.
  pose proof (cursor_at_set_curs_key _ _ k _ Hc) as Hk.
  set (w1 := set_curs_key self k w) in *.
  assert (T1 : trace w1 = trace w /\ iters w1 = iters w /\ next_ptr w1 = next_ptr w).
  { unfold w1, set_curs_key, upd_body. rewrite upd_obj_trace. destruct (upd_obj_iters_next self
      (fun o => mkObject (children o) (valid o) (map_cursor (fun c0 => mkCursorFields (curs_trans c0)
        (curs_positioned c0) (curs_curs c0) k (curs_val c0)) (obj_body o))) w) as [-> ->]. auto. }
  destruct T1 as (T1 & I1 & N1).
  change (run_op eng (OCursorIterFrom self (Some k) (Some true)) w)
    with (returning (cursor_iter_from eng self (Some k) (Some true)) w).
  rewrite cursor_iter_from_reverse_unfold.
  unfold returning, get_valid, parse_args, _cursor_get_c, get_obj, get_cursor,
    call, lift, err_set, throw, alloc_iter, mret, M_ret. unfold mbind, M_bind.
  crunch_full. cbn. fold w1. rewrite Hk. cbn. rewrite T1.
  pose proof (fun b k1 v1 => cursor_at_set_curs_pos (log (ECursorGet (curs_curs c) k MDB_SET_RANGE) w1)
    self b k1 v1 _ Hk) as Hp.
  destruct (mdb_cursor_get eng (trace w) (curs_curs c) k MDB_SET_RANGE) as [rc1 [k1 v1]]. cbn.
  destruct (Z.eqb_spec rc1 0) as [->|R0];
    [|destruct (Z.eqb_spec rc1 MDB_NOTFOUND) as [->|RN]]; cbn.
  - split; [|split; [discriminate|intros []; reflexivity]]. intros _.
    rewrite Hp. cbn.
    unfold set_curs_pos, upd_body. rewrite upd_obj_trace. destruct (upd_obj_iters_next self
      (fun o => mkObject (children o) (valid o) (map_cursor (fun c0 => mkCursorFields (curs_trans c0)
        true (curs_curs c0) k1 v1) (obj_body o))) (log (ECursorGet (curs_curs c) k MDB_SET_RANGE) w1)) as [-> ->].
    cbn. rewrite T1, I1, N1. split; [done|]. split; [done|]. apply lookup_insert_eq.
  - split; [discriminate|]. split; [|intros _ []; reflexivity]. intros _. rewrite Hp. cbn.
    set (w2 := set_curs_pos self false [] [] (log (ECursorGet (curs_curs c) k MDB_SET_RANGE) w1)).
    assert (Hc2 : cursor_at w2 self = Some (mkCursorFields (curs_trans c) false (curs_curs c) [] [])) by apply Hp.
    assert (T2 : trace w2 = ECursorGet (curs_curs c) k MDB_SET_RANGE :: trace w /\ iters w2 = iters w /\
      next_ptr w2 = next_ptr w).
    { unfold w2, set_curs_pos, upd_body. rewrite upd_obj_trace. destruct (upd_obj_iters_next self
        (fun o => mkObject (children o) (valid o) (map_cursor (fun c0 => mkCursorFields (curs_trans c0)
          false (curs_curs c0) [] []) (obj_body o))) (log (ECursorGet (curs_curs c) k MDB_SET_RANGE) w1))
        as [-> ->]. cbn. rewrite T1, I1, N1. auto. }
    destruct T2 as (T2 & I2 & N2).
    rewrite Hc2. cbn. rewrite T2.
    pose proof (fun b k1 v1 => cursor_at_set_curs_pos (log (ECursorGet (curs_curs c) [] MDB_LAST) w2)
      self b k1 v1 _ Hc2) as Hp2.
    destruct (mdb_cursor_get eng (ECursorGet (curs_curs c) k MDB_SET_RANGE :: trace w) (curs_curs c) [] MDB_LAST)
      as [rc2 [k2 v2]]. cbn.
    destruct (Z.eqb_spec rc2 0) as [->|S0];
      [|destruct (Z.eqb_spec rc2 MDB_NOTFOUND) as [->|SN]]; cbn.
    + unfold set_curs_pos, upd_body. rewrite upd_obj_trace. destruct (upd_obj_iters_next self
        (fun o => mkObject (children o) (valid o) (map_cursor (fun c0 => mkCursorFields (curs_trans c0)
          true (curs_curs c0) k2 v2) (obj_body o))) (log (ECursorGet (curs_curs c) [] MDB_LAST) w2)) as [-> ->].
      cbn. rewrite T2, I2, N2. split; [done|]. split; [|intros []; reflexivity].
      intros _. split; [done|]. apply lookup_insert_eq.
    + unfold set_curs_pos, upd_body. rewrite upd_obj_trace. destruct (upd_obj_iters_next self
        (fun o => mkObject (children o) (valid o) (map_cursor (fun c0 => mkCursorFields (curs_trans c0)
          false (curs_curs c0) [] []) (obj_body o))) (log (ECursorGet (curs_curs c) [] MDB_LAST) w2)) as [-> ->].
      cbn. rewrite T2, I2, N2. split; [done|]. split; [|intros _ []; reflexivity].
      intros _. split; [done|]. apply lookup_insert_eq.
    + rewrite andb_false_r. cbn.
      unfold set_curs_pos, upd_body. rewrite upd_obj_trace. cbn. rewrite T2.
      split; [done|]. split; [|reflexivity]. intros [?|?]; contradiction.
  - split; [intros; contradiction|]. split; [intros; contradiction|]. intros _ _.
    rewrite andb_false_r. cbn.
    unfold set_curs_pos, upd_body. rewrite upd_obj_trace. cbn. rewrite T1. auto.
Qed.

Lemma cursor_iter_from_reverse_witness :
  (run_op (eng_rc MDB_NOTFOUND) (OCursorIterFrom 4%nat (Some [Byte.x7a]) (Some true)) ex_w).2
    = inr (Some (PyHandle 5%nat)) /\
  trace (run_op (eng_rc MDB_NOTFOUND) (OCursorIterFrom 4%nat (Some [Byte.x7a]) (Some true)) ex_w).1
    = [ECursorGet 70%nat [] MDB_LAST; ECursorGet 70%nat [Byte.x7a] MDB_SET_RANGE] /\
  iters (run_op (eng_rc MDB_NOTFOUND) (OCursorIterFrom 4%nat (Some [Byte.x7a]) (Some true)) ex_w).1 !! 5%nat
    = Some (mkIter 4%nat false MDB_PREV VItem).
Proof.
  destruct (cursor_iter_from_reverse (eng_rc MDB_NOTFOUND) ex_w 4%nat [] (ex_curs false) [Byte.x7a] eq_refl)
    as [_ [H _]].
  destruct (H eq_refl) as [Ht [Hr _]]. destruct (Hr (or_intror eq_refl)) as [H1 H2].
  exact (conj H1 (conj Ht H2)).
Defined.

(** X12. On a valid environment, Environment.get either fails to begin its read-only transaction and raises EngineError mdb_txn_begin after that single call, or aborts the transaction it began as its last engine call, whether the lookup succeeded or raised. *)
Theorem env_get_txn_bracket eng w self chl e a :
  heap w !! self = Some (mkObject chl true (EnvObject e)) ->
  let r := mdb_txn_begin eng (trace w) (env_env e) NULL MDB_RDONLY in
  let res := run_op eng (OEnvGet self a) w in
  (r.1 <> 0 -> res = (log (ETxnBegin (env_env e) NULL MDB_RDONLY) w,
                      inl (EngineError "mdb_txn_begin" r.1))) /\
  (r.1 = 0 -> exists tr, trace res.1 = ETxnAbort r.2 :: tr).
Proof.
  intros Hs. pose proof (env_at_of _ _ _ _ _ Hs) as He. cbv zeta.
  change (run_op eng (OEnvGet self a) w) with (returning (env_get eng self a) w).
  unfold returning, env_get, check_valid, get_env, get_obj, call, err_set, throw,
    attempt, of_result, mret, M_ret.
  remember (generic_get eng true) as g eqn:Hg. unfold mbind, M_bind. crunch_full. cbn.
  destruct (mdb_txn_begin eng (trace w) (env_env e) NULL MDB_RDONLY) as [rc txn]. cbn.
  split.
  - intros Hrc. apply Z.eqb_neq in Hrc. rewrite Hrc. reflexivity.
  - intros ->. cbn.
    destruct (g txn (env_main_db e) false a
      (log (ETxnBegin (env_env e) NULL MDB_RDONLY) w)) as [w2 [err|v]]; cbn; eauto.
Qed.

Lemma env_get_txn_bracket_witness :
  exists tr, trace (run_op (eng_rc 0) (OEnvGet 1%nat (mkGetArgs (Some [Byte.x61]) None None)) ex_w).1
    = ETxnAbort 60%nat :: tr.
Proof.
  destruct (env_get_txn_bracket (eng_rc 0) ex_w 1%nat [3%nat; 2%nat] (ex_env false)
              (mkGetArgs (Some [Byte.x61]) None None) eq_refl) as [_ H].
  exact (H eq_refl).
Defined.
